(** * Terraform variables resolution: the resolver, parser and cache,
      embedded from [src/parsers/terraformParser.ts],
      [src/resolvers/variableResolver.ts] and [src/utils/cache.ts].

    Conventions of the embedding.
    - A JavaScript string is a [string]: a sequence of code units, each
      below 256.  White space ([\s], [trim]) is the set of code units
      9, 10, 11, 12, 13, 32 and 160; code units above 255 are not modelled.
    - [null] is [None].
    - Regular expressions are values of type [re], run by a backtracking
      matcher with the priorities of the ECMAScript one (greedy and lazy
      stars, first alternative first, leftmost start).
    - Fixture texts are written with ['] standing for the double quote and
      built with [q]; lines are joined with [unlines]. *)

From Stdlib Require Import String Ascii List Bool Arith Lia ZArith.
From Stdlib Require Import DecimalString DecimalNat.
Import ListNotations.
Local Open Scope list_scope.
Local Open Scope string_scope.

Set Implicit Arguments.
Set Warnings "-register-all".

(* ================================================================== *)
(** * JavaScript strings *)
(* ================================================================== *)

Module Js.

Definition dquote : ascii := Eval cbv in ascii_of_nat 34.
Definition squote : ascii := Eval cbv in ascii_of_nat 39.
Definition bslash : ascii := Eval cbv in ascii_of_nat 92.
Definition lf : ascii := Eval cbv in ascii_of_nat 10.
Definition cr : ascii := Eval cbv in ascii_of_nat 13.

Definition str1 (c : ascii) : string := String c EmptyString.
Definition nl : string := str1 lf.

(** [q "x = 'a'"] is the text [x = "a"]. *)
Fixpoint q (s : string) : string :=
  match s with
  | EmptyString => EmptyString
  | String c t => String (if Ascii.eqb c squote then dquote else c) (q t)
  end.

Definition code (c : ascii) : nat := nat_of_ascii c.

Definition is_space (c : ascii) : bool :=
  let n := code c in
  (((9 <=? n) && (n <=? 13)) || (n =? 32) || (n =? 160))%nat.

Definition is_digit (c : ascii) : bool :=
  let n := code c in ((48 <=? n) && (n <=? 57))%nat.

Definition is_word (c : ascii) : bool :=
  let n := code c in
  (((48 <=? n) && (n <=? 57)) || ((65 <=? n) && (n <=? 90))
   || ((97 <=? n) && (n <=? 122)) || (n =? 95))%nat.

Definition is_line_terminator (c : ascii) : bool :=
  Ascii.eqb c lf || Ascii.eqb c cr.

Fixpoint rev_string (s acc : string) : string :=
  match s with
  | EmptyString => acc
  | String c t => rev_string t (String c acc)
  end.

Fixpoint trimStart (s : string) : string :=
  match s with
  | String c t => if is_space c then trimStart t else s
  | EmptyString => EmptyString
  end.

Definition trimEnd (s : string) : string :=
  rev_string (trimStart (rev_string s EmptyString)) EmptyString.

(** [String.prototype.trim] *)
Definition trim (s : string) : string := trimEnd (trimStart s).

(** [s.startsWith(p)] *)
Fixpoint startsWith (s p : string) : bool :=
  match p, s with
  | EmptyString, _ => true
  | String a p', String b s' => Ascii.eqb a b && startsWith s' p'
  | String _ _, EmptyString => false
  end.

(** [s.endsWith(p)] *)
Definition endsWith (s p : string) : bool :=
  startsWith (rev_string s EmptyString) (rev_string p EmptyString).

(** [s.indexOf(p)], [None] for -1 *)
Fixpoint indexOf (s p : string) : option nat :=
  if startsWith s p then Some 0 else
  match s with
  | EmptyString => None
  | String _ t => option_map S (indexOf t p)
  end.

(** [s.includes(p)] *)
Definition includes (s p : string) : bool :=
  match indexOf s p with Some _ => true | None => false end.

(** [s.substring(i)] for [0 <= i] *)
Fixpoint drop (n : nat) (s : string) : string :=
  match n, s with
  | O, _ => s
  | S n', String _ t => drop n' t
  | S _, EmptyString => EmptyString
  end.

Fixpoint take (n : nat) (s : string) : string :=
  match n, s with
  | O, _ => EmptyString
  | S n', String c t => String c (take n' t)
  | S _, EmptyString => EmptyString
  end.

(** [s.substring(i, j)] for [0 <= i <= j] *)
Definition substring (i j : nat) (s : string) : string := take (j - i) (drop i s).

(** [s.split(sep)] for a one-character separator *)
Fixpoint split_chr (sep : ascii) (s : string) : list string :=
  match s with
  | EmptyString => [EmptyString]
  | String c t =>
      if Ascii.eqb c sep then EmptyString :: split_chr sep t
      else match split_chr sep t with
           | h :: r => String c h :: r
           | [] => [str1 c]
           end
  end.

(** [xs.join(sep)] *)
Fixpoint join (sep : string) (xs : list string) : string :=
  match xs with
  | [] => EmptyString
  | [x] => x
  | x :: r => x ++ sep ++ join sep r
  end.

Definition unlines (xs : list string) : string := join nl xs.

(** [s.repeat(n)] *)
Fixpoint repeat_str (s : string) (n : nat) : string :=
  match n with O => EmptyString | S n' => s ++ repeat_str s n' end.

Definition is_empty (s : string) : bool :=
  match s with EmptyString => true | _ => false end.

Fixpoint mem (x : string) (xs : list string) : bool :=
  match xs with
  | [] => false
  | y :: r => String.eqb x y || mem x r
  end.

(** [[...new Set(xs)]]: first occurrences, in order *)
Fixpoint dedup_from (seen xs : list string) : list string :=
  match xs with
  | [] => []
  | x :: r => if mem x seen then dedup_from seen r
              else x :: dedup_from (x :: seen) r
  end.
Definition dedup (xs : list string) : list string := dedup_from [] xs.

(** Decimal rendering of a natural number, [String(n)]. *)
Definition nat_to_string (n : nat) : string :=
  NilEmpty.string_of_uint (Nat.to_uint n).

End Js.

(* ================================================================== *)
(** * Regular expressions (the subset of ECMAScript the sources use) *)
(* ================================================================== *)

Module Regex.
Import Js.

Inductive re : Type :=
| Eps                          (* empty pattern *)
| Cls (p : ascii -> bool)      (* one character of a class *)
| Cat (a b : re)
| Alt (a b : re)               (* a|b, a first *)
| Star (a : re)                (* a*  greedy *)
| LazyStar (a : re)            (* a*? *)
| Grp (n : nat) (a : re)       (* capture group number n *)
| Bol (multiline : bool)       (* ^ *)
| Eol (multiline : bool)       (* $ *)
| Wb                           (* \b *)
| Ahead (a : re)               (* (?=a) *)
| Bref (n : nat).              (* back reference to group n *)

(** A position in the subject: the character before it, what is left,
    its index, and the captures made so far. *)
Record mstate : Type := MState {
  prev : option ascii;
  rest : string;
  pos : nat;
  caps : list (nat * string)
}.

Definition step (s : mstate) (c : ascii) (t : string) : mstate :=
  MState (Some c) t (S (pos s)) (caps s).

Fixpoint get_cap (n : nat) (cs : list (nat * string)) : option string :=
  match cs with
  | [] => None
  | (m, v) :: r => if Nat.eqb n m then Some v else get_cap n r
  end.

Fixpoint set_cap (n : nat) (v : string) (cs : list (nat * string))
  : list (nat * string) :=
  match cs with
  | [] => [(n, v)]
  | (m, w) :: r => if Nat.eqb n m then (m, v) :: r else (m, w) :: set_cap n v r
  end.

Definition at_bol (multiline : bool) (s : mstate) : bool :=
  match prev s with
  | None => true
  | Some c => multiline && is_line_terminator c
  end.

Definition at_eol (multiline : bool) (s : mstate) : bool :=
  match rest s with
  | EmptyString => true
  | String c _ => multiline && is_line_terminator c
  end.

Definition word_before (s : mstate) : bool :=
  match prev s with Some c => is_word c | None => false end.
Definition word_after (s : mstate) : bool :=
  match rest s with String c _ => is_word c | EmptyString => false end.

(** Consume the literal [lit] at [s]. *)
Fixpoint eat (lit : string) (s : mstate) : option mstate :=
  match lit with
  | EmptyString => Some s
  | String c l' =>
      match rest s with
      | String d t => if Ascii.eqb c d then eat l' (step s d t) else None
      | EmptyString => None
      end
  end.

Definition orelse {A} (x : option A) (y : unit -> option A) : option A :=
  match x with Some v => Some v | None => y tt end.

(** The backtracking matcher, in continuation-passing style: [rmatch r k s]
    is the first way, in priority order, of matching [r] at [s] and then
    succeeding with [k].  A star iteration that consumes nothing is
    rejected, as in ECMAScript. *)
Fixpoint rmatch (r : re) (k : mstate -> option mstate) (s : mstate)
  {struct r} : option mstate :=
  match r with
  | Eps => k s
  | Cls p =>
      match rest s with
      | String c t => if p c then k (step s c t) else None
      | EmptyString => None
      end
  | Cat a b => rmatch a (rmatch b k) s
  | Alt a b => orelse (rmatch a k s) (fun _ => rmatch b k s)
  | Star a =>
      (fix loop (n : nat) (s : mstate) {struct n} : option mstate :=
         match n with
         | O => k s
         | S n' =>
             orelse
               (rmatch a (fun s' => if Nat.ltb (pos s) (pos s')
                                    then loop n' s' else None) s)
               (fun _ => k s)
         end) (S (String.length (rest s))) s
  | LazyStar a =>
      (fix loop (n : nat) (s : mstate) {struct n} : option mstate :=
         match n with
         | O => k s
         | S n' =>
             orelse (k s)
               (fun _ => rmatch a (fun s' => if Nat.ltb (pos s) (pos s')
                                             then loop n' s' else None) s)
         end) (S (String.length (rest s))) s
  | Grp n a =>
      rmatch a (fun s' =>
        k (MState (prev s') (rest s') (pos s')
             (set_cap n (take (pos s' - pos s) (rest s)) (caps s')))) s
  | Bol m => if at_bol m s then k s else None
  | Eol m => if at_eol m s then k s else None
  | Wb => if xorb (word_before s) (word_after s) then k s else None
  | Ahead a =>
      match rmatch a (fun s' => Some s') s with
      | Some s' => k (MState (prev s) (rest s) (pos s) (caps s'))
      | None => None
      end
  | Bref n =>
      match get_cap n (caps s) with
      | Some v => match eat v s with Some s' => k s' | None => None end
      | None => k s
      end
  end.

(** A match: where it starts and ends, the matched text, the captures. *)
Record rmatch_result : Type := Match {
  m_index : nat;
  m_end : nat;
  m_text : string;      (* match[0] *)
  m_caps : list (nat * string)
}.

(** [match[n]], [None] when the group took no part (undefined). *)
Definition group (n : nat) (m : rmatch_result) : option string :=
  get_cap n (m_caps m).

Definition match_at (r : re) (s : mstate) : option rmatch_result :=
  match rmatch r (fun s' => Some s') s with
  | Some s' => Some (Match (pos s) (pos s') (take (pos s' - pos s) (rest s))
                       (caps s'))
  | None => None
  end.

(** Leftmost match at or after the position [s]. *)
Fixpoint search (r : re) (fuel : nat) (s : mstate) : option rmatch_result :=
  match match_at r s with
  | Some m => Some m
  | None =>
      match fuel, rest s with
      | S f, String c t => search r f (MState (Some c) t (S (pos s)) [])
      | _, _ => None
      end
  end.

Definition start_of (subject : string) : mstate :=
  MState None subject 0 [].

(** [r.exec(subject)] with [lastIndex = 0]. *)
Definition exec (r : re) (subject : string) : option rmatch_result :=
  search r (String.length subject) (start_of subject).

(** [r.test(subject)] *)
Definition test (r : re) (subject : string) : bool :=
  match exec r subject with Some _ => true | None => false end.

(** The position reached after [n] characters of [subject]. *)
Fixpoint seek (n : nat) (s : mstate) : mstate :=
  match n, rest s with
  | S n', String c t => seek n' (step s c t)
  | _, _ => s
  end.

(** All matches of a global regular expression, as the loop
    [while ((m = r.exec(subject)) !== null)] and [replace] see them: each
    search restarts where the last match ended (one further after an empty
    match, as [replace] does). *)
Fixpoint all_matches_from (r : re) (fuel : nat) (s : mstate)
  : list rmatch_result :=
  match fuel with
  | O => []
  | S f =>
      match search r (String.length (rest s)) (MState (prev s) (rest s) (pos s) []) with
      | None => []
      | Some m =>
          let s' := seek (m_end m - pos s) s in
          if Nat.ltb (m_index m) (m_end m)
          then m :: all_matches_from r f s'
          else match rest s' with
               | String c t => m :: all_matches_from r f (step s' c t)
               | EmptyString => [m]
               end
      end
  end.

Definition all_matches (r : re) (subject : string) : list rmatch_result :=
  all_matches_from r (S (String.length subject)) (start_of subject).

(** [(subject.match(r) || []).length] for a global [r]. *)
Definition count_matches (r : re) (subject : string) : nat :=
  List.length (all_matches r subject).

(** Expansion of a replacement string: [$$], [$&], [$`], [$'] and [$n]
    for a group [n] between 1 and [ngroups]. *)
Fixpoint expand (ngroups : nat) (subject : string) (m : rmatch_result)
  (rep : string) : string :=
  match rep with
  | EmptyString => EmptyString
  | String c t =>
      if Ascii.eqb c "$" then
        match t with
        | String d t' =>
            if Ascii.eqb d "$" then String "$" (expand ngroups subject m t')
            else if Ascii.eqb d "&" then m_text m ++ expand ngroups subject m t'
            else if Ascii.eqb d "`" then
              take (m_index m) subject ++ expand ngroups subject m t'
            else if Ascii.eqb d squote then
              drop (m_end m) subject ++ expand ngroups subject m t'
            else if is_digit d then
              let n := code d - 48 in
              if (Nat.leb 1 n && Nat.leb n ngroups)%bool then
                match group n m with
                | Some v => v
                | None => EmptyString
                end ++ expand ngroups subject m t'
              else String c (expand ngroups subject m t)
            else String c (expand ngroups subject m t)
        | EmptyString => String c EmptyString
        end
      else String c (expand ngroups subject m t)
  end.

Fixpoint splice (subject : string) (from : nat) (ms : list rmatch_result)
  (f : rmatch_result -> string) : string :=
  match ms with
  | [] => drop from subject
  | m :: r =>
      substring from (m_index m) subject ++ f m ++ splice subject (m_end m) r f
  end.

(** [subject.replace(r, f)] for a global [r] and a replacer function. *)
Definition replace_fn (r : re) (f : rmatch_result -> string) (subject : string)
  : string :=
  splice subject 0 (all_matches r subject) f.

(** [subject.replace(r, rep)] for a global [r] and a replacement string. *)
Definition replace_all (r : re) (ngroups : nat) (rep subject : string) : string :=
  replace_fn r (fun m => expand ngroups subject m rep) subject.

(** Pattern builders. *)
Definition chr (c : ascii) : re := Cls (Ascii.eqb c).
Fixpoint lit (s : string) : re :=
  match s with
  | EmptyString => Eps
  | String c t => Cat (chr c) (lit t)
  end.
Definition plus (a : re) : re := Cat a (Star a).
Definition opt (a : re) : re := Alt a Eps.
Definition none_of (cs : string) : re :=
  Cls (fun c => negb (includes cs (str1 c))).
Definition one_of (cs : string) : re :=
  Cls (fun c => includes cs (str1 c)).
Definition space : re := Cls is_space.          (* \s *)
Definition word : re := Cls is_word.            (* \w *)
Definition digit : re := Cls is_digit.          (* \d *)
Definition any : re := Cls (fun _ => true).     (* [\s\S] *)
Definition dot : re := Cls (fun c => negb (is_line_terminator c)). (* . *)
Fixpoint seq (rs : list re) : re :=
  match rs with
  | [] => Eps
  | [r] => r
  | r :: t => Cat r (seq t)
  end.

End Regex.

(* ================================================================== *)
(** * JSON values, [JSON.parse] and [JSON.stringify]

    These are the platform's, not the repository's.  A number is kept as
    the decimal text JavaScript prints for it: an integer or decimal token
    without exponent and with at most 15 digits is put in that form, any
    other number token is kept as written (the rounding of doubles is not
    modelled).  A [\uXXXX] escape above 255 is outside the model and makes
    [parse] fail. *)
(* ================================================================== *)

Module Json.
Import Js.

Inductive json : Type :=
| JNull
| JBool (b : bool)
| JNum (text : string)
| JStr (s : string)
| JArr (items : list json)
| JObj (entries : list (string * json)).   (* in Object.entries order *)

Fixpoint skip_ws (s : string) : string :=
  match s with
  | String c t =>
      let n := code c in
      if ((n =? 32) || (n =? 9) || (n =? 10) || (n =? 13))%nat
      then skip_ws t else s
  | EmptyString => EmptyString
  end.

Fixpoint span_digits (s : string) : string * string :=
  match s with
  | String c t =>
      if is_digit c then let (d, r) := span_digits t in (String c d, r)
      else (EmptyString, s)
  | EmptyString => (EmptyString, EmptyString)
  end.

Fixpoint strip_zeros_rev (s : string) : string :=
  match s with
  | String c t => if Ascii.eqb c "0" then strip_zeros_rev t else s
  | EmptyString => EmptyString
  end.
Definition strip_trailing_zeros (s : string) : string :=
  rev_string (strip_zeros_rev (rev_string s EmptyString)) EmptyString.

Fixpoint all_zero (s : string) : bool :=
  match s with
  | String c t => Ascii.eqb c "0" && all_zero t
  | EmptyString => true
  end.

(** The text JavaScript prints for the number written [neg int . frac]. *)
Definition canon_number (neg : bool) (int frac : string) (exp : string)
  (token : string) : string :=
  if negb (is_empty exp) then token
  else if (15 <? String.length int + String.length frac)%nat then token
  else if (String.eqb int "0" && startsWith frac "000000")%bool
          && negb (all_zero frac) then token
  else
    let f := strip_trailing_zeros frac in
    let body := if is_empty f then int else int ++ "." ++ f in
    if (String.eqb int "0" && is_empty f)%bool then "0"
    else if neg then "-" ++ body else body.

(** A number token at the head of [s]: its value and what follows. *)
Definition parse_number (s : string) : option (json * string) :=
  let (neg, s1) := match s with
                   | String c t => if Ascii.eqb c "-" then (true, t) else (false, s)
                   | EmptyString => (false, s)
                   end in
  let (int, s2) := span_digits s1 in
  if is_empty int then None
  else if ((1 <? String.length int)%nat && startsWith int "0")%bool then None
  else
    let fr := match s2 with
              | String c t =>
                  if Ascii.eqb c "." then
                    let (d, r) := span_digits t in
                    if is_empty d then None else Some (d, r)
                  else Some (EmptyString, s2)
              | EmptyString => Some (EmptyString, s2)
              end in
    match fr with
    | None => None
    | Some (frac, s3) =>
        let ex := match s3 with
                  | String c t =>
                      if (Ascii.eqb c "e" || Ascii.eqb c "E")%bool then
                        let (sign, t') :=
                          match t with
                          | String d u =>
                              if (Ascii.eqb d "+" || Ascii.eqb d "-")%bool
                              then (str1 d, u) else (EmptyString, t)
                          | EmptyString => (EmptyString, t)
                          end in
                        let (d, r) := span_digits t' in
                        if is_empty d then None else Some (sign ++ d, r)
                      else Some (EmptyString, s3)
                  | EmptyString => Some (EmptyString, s3)
                  end in
        match ex with
        | None => None
        | Some (exp, s4) =>
            let token := take (String.length s - String.length s4) s in
            Some (JNum (canon_number neg int frac exp token), s4)
        end
    end.

Definition hex_val (c : ascii) : option nat :=
  let n := code c in
  if is_digit c then Some (n - 48)
  else if ((97 <=? n) && (n <=? 102))%nat then Some (n - 87)
  else if ((65 <=? n) && (n <=? 70))%nat then Some (n - 55)
  else None.

(** The rest of a string literal, after its opening quote. *)
Fixpoint parse_string (s : string) : option (string * string) :=
  match s with
  | EmptyString => None
  | String c t =>
      if Ascii.eqb c dquote then Some (EmptyString, t)
      else if (code c <? 32)%nat then None
      else if Ascii.eqb c bslash then
        match t with
        | String e u =>
            let simple (x : ascii) :=
              match parse_string u with
              | Some (v, r) => Some (String x v, r)
              | None => None
              end in
            if Ascii.eqb e dquote then simple dquote
            else if Ascii.eqb e bslash then simple bslash
            else if Ascii.eqb e "/" then simple "/"%char
            else if Ascii.eqb e "b" then simple (ascii_of_nat 8)
            else if Ascii.eqb e "f" then simple (ascii_of_nat 12)
            else if Ascii.eqb e "n" then simple lf
            else if Ascii.eqb e "r" then simple cr
            else if Ascii.eqb e "t" then simple (ascii_of_nat 9)
            else if Ascii.eqb e "u" then
              match u with
              | String h1 (String h2 (String h3 (String h4 u'))) =>
                  match hex_val h1, hex_val h2, hex_val h3, hex_val h4 with
                  | Some a, Some b, Some c3, Some d =>
                      if ((a =? 0) && (b =? 0))%nat then
                        match parse_string u' with
                        | Some (v, r) => Some (String (ascii_of_nat (16 * c3 + d)) v, r)
                        | None => None
                        end
                      else None
                  | _, _, _, _ => None
                  end
              | _ => None
              end
            else None
        | EmptyString => None
        end
      else
        match parse_string t with
        | Some (v, r) => Some (String c v, r)
        | None => None
        end
  end.

(** Property definition on an ordinary object: an existing key keeps its
    place and takes the new value, a new key goes last. *)
Fixpoint obj_set (k : string) (v : json) (es : list (string * json))
  : list (string * json) :=
  match es with
  | [] => [(k, v)]
  | (k', v') :: r =>
      if String.eqb k k' then (k', v) :: r else (k', v') :: obj_set k v r
  end.

Fixpoint all_digits (s : string) : bool :=
  match s with
  | String c t => is_digit c && all_digits t
  | EmptyString => true
  end.

Fixpoint nat_of_digits (s : string) (acc : nat) : nat :=
  match s with
  | String c t => nat_of_digits t (10 * acc + (code c - 48))
  | EmptyString => acc
  end.

(** Array-index keys ("0", "17", ... below 2^32 - 1) come first in
    [Object.entries], in increasing order. *)
Definition is_index_key (k : string) : bool :=
  (negb (is_empty k) && all_digits k
   && (String.eqb k "0" || negb (startsWith k "0"))
   && (String.length k <=? 10)%nat
   && (N.ltb (N.of_nat (nat_of_digits k 0)) 4294967295%N))%bool.

Fixpoint insert_index (e : string * json) (es : list (string * json))
  : list (string * json) :=
  match es with
  | [] => [e]
  | e' :: r =>
      if (nat_of_digits (fst e) 0 <? nat_of_digits (fst e') 0)%nat
      then e :: es else e' :: insert_index e r
  end.

Definition entries_order (es : list (string * json)) : list (string * json) :=
  (fold_right insert_index [] (filter (fun e => is_index_key (fst e)) es)
   ++ filter (fun e => negb (is_index_key (fst e))) es)%list.

Definition expect (word : string) (v : json) (s : string)
  : option (json * string) :=
  if startsWith s word then Some (v, drop (String.length word) s) else None.

Fixpoint parse_value (fuel : nat) (s : string) {struct fuel}
  : option (json * string) :=
  match fuel with
  | O => None
  | S f =>
      match skip_ws s with
      | EmptyString => None
      | String c t as s0 =>
          if Ascii.eqb c "n" then expect "null" JNull s0
          else if Ascii.eqb c "t" then expect "true" (JBool true) s0
          else if Ascii.eqb c "f" then expect "false" (JBool false) s0
          else if Ascii.eqb c dquote then
            match parse_string t with
            | Some (v, r) => Some (JStr v, r)
            | None => None
            end
          else if Ascii.eqb c "[" then
            match skip_ws t with
            | String d u as t0 =>
                if Ascii.eqb d "]" then Some (JArr [], u)
                else match parse_items f t0 with
                     | Some (vs, r) => Some (JArr vs, r)
                     | None => None
                     end
            | EmptyString => None
            end
          else if Ascii.eqb c "{" then
            match skip_ws t with
            | String d u as t0 =>
                if Ascii.eqb d "}" then Some (JObj [], u)
                else match parse_members f t0 [] with
                     | Some (es, r) => Some (JObj (entries_order es), r)
                     | None => None
                     end
            | EmptyString => None
            end
          else parse_number s0
      end
  end
with parse_items (fuel : nat) (s : string) {struct fuel}
  : option (list json * string) :=
  match fuel with
  | O => None
  | S f =>
      match parse_value f s with
      | Some (v, r) =>
          match skip_ws r with
          | String c t =>
              if Ascii.eqb c "," then
                match parse_items f t with
                | Some (vs, r') => Some (v :: vs, r')
                | None => None
                end
              else if Ascii.eqb c "]" then Some ([v], t)
              else None
          | EmptyString => None
          end
      | None => None
      end
  end
with parse_members (fuel : nat) (s : string) (acc : list (string * json))
  {struct fuel} : option (list (string * json) * string) :=
  match fuel with
  | O => None
  | S f =>
      match skip_ws s with
      | String c t =>
          if Ascii.eqb c dquote then
            match parse_string t with
            | Some (k, r) =>
                match skip_ws r with
                | String d u =>
                    if Ascii.eqb d ":" then
                      match parse_value f u with
                      | Some (v, r') =>
                          let acc' := obj_set k v acc in
                          match skip_ws r' with
                          | String e w =>
                              if Ascii.eqb e "," then parse_members f w acc'
                              else if Ascii.eqb e "}" then Some (acc', w)
                              else None
                          | EmptyString => None
                          end
                      | None => None
                      end
                    else None
                | EmptyString => None
                end
            | None => None
            end
          else None
      | EmptyString => None
      end
  end.

(** [JSON.parse(text)]; [None] when it throws a SyntaxError. *)
Definition parse (text : string) : option json :=
  match parse_value (2 * String.length text + 2) text with
  | Some (v, r) => if is_empty (skip_ws r) then Some v else None
  | None => None
  end.

Definition hex_digit (n : nat) : ascii :=
  if (n <? 10)%nat then ascii_of_nat (48 + n) else ascii_of_nat (87 + n).

(** [JSON.stringify] of a string: the quoted, escaped text. *)
Fixpoint quote_body (s : string) : string :=
  match s with
  | EmptyString => EmptyString
  | String c t =>
      let n := code c in
      (if Ascii.eqb c dquote then String bslash (str1 dquote)
       else if Ascii.eqb c bslash then String bslash (str1 bslash)
       else if (n =? 8)%nat then String bslash "b"
       else if (n =? 12)%nat then String bslash "f"
       else if (n =? 10)%nat then String bslash "n"
       else if (n =? 13)%nat then String bslash "r"
       else if (n =? 9)%nat then String bslash "t"
       else if (n <? 32)%nat then
         String bslash ("u00" ++ str1 (hex_digit (n / 16)) ++ str1 (hex_digit (n mod 16)))
       else str1 c) ++ quote_body t
  end.
Definition quote (s : string) : string :=
  str1 dquote ++ quote_body s ++ str1 dquote.

(** [JSON.stringify(v, null, 2)] at the indentation [ind]. *)
Fixpoint stringify_at (ind : string) (v : json) {struct v} : string :=
  match v with
  | JNull => "null"
  | JBool true => "true"
  | JBool false => "false"
  | JNum t => if (String.eqb t "Infinity" || String.eqb t "-Infinity")%bool
              then "null" else t
  | JStr s => quote s
  | JArr [] => "[]"
  | JArr items =>
      let ind' := ind ++ "  " in
      "[" ++ nl ++ ind'
      ++ join ("," ++ nl ++ ind') (map (stringify_at ind') items)
      ++ nl ++ ind ++ "]"
  | JObj [] => "{}"
  | JObj entries =>
      let ind' := ind ++ "  " in
      "{" ++ nl ++ ind'
      ++ join ("," ++ nl ++ ind')
           (map (fun e => quote (fst e) ++ ": " ++ stringify_at ind' (snd e)) entries)
      ++ nl ++ ind ++ "}"
  end.

Definition stringify2 (v : json) : string := stringify_at EmptyString v.

End Json.


(* ================================================================== *)
(** * The pattern extractor: [TerraformParser] *)
(* ================================================================== *)

Module TerraformParser.
Import Js Regex Json.

(** interface ModuleCall (its [location] is always null here).
    [variables] holds the own properties of the object, a later assignment
    to a key replacing the earlier one. *)
Record ModuleCall : Type := mkModuleCall {
  mc_name : string;
  mc_source : string;
  mc_variables : list (string * string)
}.

Definition dq : re := chr dquote.

(** [^\s*NAME\s*=\s*]: [escapeRegex] makes the name match literally. *)
Definition assign_head (variableName : string) : list re :=
  [Bol true; Star space; lit variableName; Star space; chr "="; Star space].

(** The seven patterns of [parseHclVariable], in the order tried. *)
Definition hcl_patterns (variableName : string) : list re :=
  let head := assign_head variableName in
  map (fun tl => seq (head ++ tl)%list)
  [ (* a quoted string, then \s*$ *)
    [dq; Grp 1 (Star (none_of (str1 dquote))); dq; Star space; Eol true];
    (* unquoted value: one or more characters other than white space,
       #, { and [, then \s*, an optional # comment, and $ *)
    [Grp 1 (plus (Cls (fun c => negb (is_space c || includes "#{[" (str1 c)))));
     Star space; opt (Cat (chr "#") (Star dot)); Eol true];
    (* a bracketed array without ] inside, then \s*$ *)
    [Grp 1 (seq [chr "["; Star (none_of "]"); chr "]"]); Star space; Eol true];
    (* from { lazily to a } that is followed by \s* and a line feed
       or $ *)
    [Grp 1 (seq [chr "{"; LazyStar any; chr "}"]); Star space;
     Alt (chr lf) (Eol true)];
    (* true or false, then \s*$ *)
    [Grp 1 (Alt (lit "true") (lit "false")); Star space; Eol true];
    (* digits with an optional fraction, then \s*$ *)
    [Grp 1 (Cat (plus digit) (opt (Cat (chr ".") (plus digit))));
     Star space; Eol true];
    (* heredoc: the marker word, lazily the body, and a line holding
       the marker again *)
    [lit "<<"; opt (chr "-"); Star space; Grp 1 (plus word); Star space;
     chr lf; Grp 2 (LazyStar any); Bol true; Star space; Bref 1; Star space;
     Eol true] ].

(** cleanValue *)
Definition cleanValue (value : string) : string :=
  if is_empty value then EmptyString
  else
    let cleaned := trim value in
    let cleaned := match indexOf cleaned "#" with
                   | Some i => trim (take i cleaned)
                   | None => cleaned
                   end in
    if endsWith cleaned ","
    then trim (take (String.length cleaned - 1) cleaned)
    else cleaned.

(** hasMatchingBraces: the scan state is (braceCount, inString, escaped). *)
Fixpoint braces_scan (str : string) (braceCount : Z) (inString escaped : bool)
  : Z :=
  match str with
  | EmptyString => braceCount
  | String char t =>
      if escaped then braces_scan t braceCount inString false
      else if Ascii.eqb char bslash then braces_scan t braceCount inString true
      else if Ascii.eqb char dquote then braces_scan t braceCount (negb inString) false
      else if negb inString then
        if Ascii.eqb char "{" then braces_scan t (braceCount + 1)%Z inString false
        else if Ascii.eqb char "}" then braces_scan t (braceCount - 1)%Z inString false
        else braces_scan t braceCount inString false
      else braces_scan t braceCount inString false
  end.

Definition hasMatchingBraces (str : string) : bool :=
  Z.eqb (braces_scan str 0%Z false false) 0%Z.

(** formatHclObject *)
Fixpoint formatHclObject_lines (lines : list string) (indentLevel : nat)
  : list string :=
  match lines with
  | [] => []
  | line :: r =>
      let trimmed := trim line in
      if is_empty trimmed then formatHclObject_lines r indentLevel
      else
        let indentLevel := if includes trimmed "}" then Nat.pred indentLevel
                           else indentLevel in
        (repeat_str "  " indentLevel ++ trimmed)
        :: formatHclObject_lines r
             (if includes trimmed "{" then S indentLevel else indentLevel)
  end.

Definition formatHclObject (hclObj : string) : string :=
  join nl (formatHclObject_lines (split_chr lf hclObj) 0).

(** The regular expression literal [/^\\d+(\\.\\d+)?$/]: a backslash, the
    letter d one or more times, and optionally a backslash, any character,
    a backslash and d's. *)
Definition re_backslash_d : re :=
  seq [Bol false; chr bslash; plus (chr "d");
       opt (seq [chr bslash; dot; chr bslash; plus (chr "d")]); Eol false].

(** convertHclObjectToJson *)
Definition convertHclObjectToJson (hclObj : string) : string :=
  let jsonStr := trim hclObj in
  let jsonStr := if startsWith jsonStr "{" then jsonStr
                 else "{" ++ jsonStr ++ "}" in
  (* word, \s*, =, \s*  becomes the quoted word and a colon *)
  let jsonStr :=
    replace_all (seq [Grp 1 (plus word); Star space; chr "="; Star space]) 1
      (str1 dquote ++ "$1" ++ str1 dquote ++ ": ") jsonStr in
  (* a colon, \s*, group 1: characters outside the class written
     [^ quote , \\ { \\ [ \\ n \\ r], group 2: \s* and one of [, \\ } \\ n \\ r];
     in this regular expression literal \\ is the backslash, so the classes
     hold the backslash and the letters n and r *)
  let jsonStr :=
    replace_fn
      (seq [chr ":"; Star space;
            Grp 1 (plus (none_of (String dquote (String bslash ",{[nr"))));
            Grp 2 (Cat (Star space) (one_of (String bslash ",}nr")))])
      (fun m =>
         let value := match group 1 m with Some v => v | None => EmptyString end in
         let suffix := match group 2 m with Some v => v | None => EmptyString end in
         let trimmedValue := trim value in
         if (String.eqb trimmedValue "true" || String.eqb trimmedValue "false"
             || test re_backslash_d trimmedValue)%bool
         then ": " ++ trimmedValue ++ suffix
         else ": " ++ str1 dquote ++ trimmedValue ++ str1 dquote ++ suffix)
      jsonStr in
  (* a comma and group 1: \s*, the class [\\}\\] (backslash or }), and
     a literal ] *)
  replace_all
    (seq [chr ","; Grp 1 (seq [Star space; one_of (String bslash "}"); chr "]"])])
    1 "$1" jsonStr.

(** formatComplexObject *)
Definition formatComplexObject (objectStr : string) : string :=
  let trimmed := trim objectStr in
  match parse (convertHclObjectToJson trimmed) with
  | Some parsed => stringify2 parsed
  | None => formatHclObject objectStr
  end.

(** The literals [/\\{/g] and [/\\}/g] of extractCompleteObject: a
    backslash followed by a brace. *)
Definition re_bslash_open : re := lit (String bslash "{").
Definition re_bslash_close : re := lit (String bslash "}").

Definition brace_delta (line : string) : Z :=
  (Z.of_nat (count_matches re_bslash_open line)
   - Z.of_nat (count_matches re_bslash_close line))%Z.

(** The lines collected by the loop of extractCompleteObject. *)
Fixpoint collect_object (variableName : string) (lines : list string)
  (inObject : bool) (braceCount : Z) : list string :=
  match lines with
  | [] => []
  | line :: r =>
      if (negb inObject
          && test (seq [Bol false; Star space; lit variableName; Star space;
                        chr "="; Star space; chr "{"]) line)%bool
      then
        let braceCount := brace_delta line in
        let afterEquals :=
          trim (drop (match indexOf line "=" with Some i => S i | None => 0 end)
                  line) in
        if Z.eqb braceCount 0 then [afterEquals]
        else afterEquals :: collect_object variableName r true braceCount
      else if inObject then
        let braceCount := (braceCount + brace_delta line)%Z in
        if Z.leb braceCount 0 then [line]
        else line :: collect_object variableName r true braceCount
      else collect_object variableName r inObject braceCount
  end.

(** extractCompleteObject *)
Definition extractCompleteObject (content variableName : string) : string :=
  let objectLines := collect_object variableName (split_chr lf content) false 0 in
  match objectLines with
  | [] => "{}"
  | _ => formatComplexObject (join nl objectLines)
  end.

(** parseComplexObject *)
Definition parseComplexObject (objectValue fullContent variableName : string)
  : string :=
  if String.eqb (trim objectValue) "{"
  then extractCompleteObject fullContent variableName
  else if negb (hasMatchingBraces objectValue)
  then extractCompleteObject fullContent variableName
  else formatComplexObject objectValue.

Fixpoint first_match (patterns : list re) (content : string)
  : option rmatch_result :=
  match patterns with
  | [] => None
  | p :: r =>
      match exec p content with
      | Some m => Some m
      | None => first_match r content
      end
  end.

(** parseHclVariable *)
Definition parseHclVariable (content variableName : string) : option string :=
  match first_match (hcl_patterns variableName) content with
  | Some m =>
      let value := match group 1 m with Some v => v | None => EmptyString end in
      let value := match group 2 m with Some v => v | None => value end in
      if startsWith (trim value) "{"
      then Some (parseComplexObject value content variableName)
      else Some (cleanValue value)
  | None => None
  end.

(** The block body shared by the locals, output and module patterns:
    an opening brace, group 1 made of non-} characters and of inner
    brace pairs without } inside, and a closing brace. *)
Definition block_body : list re :=
  [chr "{";
   Grp 1 (Cat (Star (none_of "}"))
            (Star (seq [chr "{"; Star (none_of "}"); chr "}"; Star (none_of "}")])));
   chr "}"].

Fixpoint first_some {A B} (f : A -> option B) (xs : list A) : option B :=
  match xs with
  | [] => None
  | x :: r => match f x with Some v => Some v | None => first_some f r end
  end.

(** parseLocalsBlock *)
Definition parseLocalsBlock (content variableName : string) : option string :=
  first_some
    (fun m => match group 1 m with
              | Some localsContent => parseHclVariable localsContent variableName
              | None => None
              end)
    (all_matches (seq ([lit "locals"; Star space] ++ block_body)%list) content).

(** parseOutputBlock *)
Definition parseOutputBlock (content outputName : string) : option string :=
  match exec (seq ([lit "output"; plus space; dq; lit outputName; dq; Star space]
                   ++ block_body)%list) content with
  | Some m =>
      let outputContent := match group 1 m with Some v => v | None => EmptyString end in
      match exec (seq [lit "value"; Star space; chr "="; Star space;
                       Grp 1 (Star (none_of nl))]) outputContent with
      | Some vm =>
          Some (cleanValue (match group 1 vm with Some v => v | None => EmptyString end))
      | None =>
          match exec (seq ([lit "value"; Star space; chr "="; Star space]
                           ++ block_body)%list) outputContent with
          | Some mm =>
              Some ("{" ++ match group 1 mm with Some v => v | None => EmptyString end
                    ++ "}")
          | None => None
          end
      end
  | None => None
  end.

(** [variables[key] = value] on a plain object: assigning the key
    [__proto__] a string creates no property. *)
Fixpoint var_set (k v : string) (vs : list (string * string))
  : list (string * string) :=
  match vs with
  | [] => [(k, v)]
  | (k', v') :: r =>
      if String.eqb k k' then (k', v) :: r else (k', v') :: var_set k v r
  end.

(** [variables[k]] for an own property.  (A name that only
    [Object.prototype] defines reads as a function there; the callers then
    fail inside resolveVariableReference and get null, as for an absent
    key.) *)
Fixpoint var_get (k : string) (vs : list (string * string)) : option string :=
  match vs with
  | [] => None
  | (k', v) :: r => if String.eqb k k' then Some v else var_get k r
  end.

(** parseModuleVariables *)
Fixpoint parseModuleVariables_lines (lines : list string)
  (variables : list (string * string)) : list (string * string) :=
  match lines with
  | [] => variables
  | line :: r =>
      let trimmedLine := trim line in
      if (startsWith trimmedLine "source" || startsWith trimmedLine "#"
          || negb (includes trimmedLine "="))%bool
      then parseModuleVariables_lines r variables
      else
        match exec (seq [Bol false; Star space; Grp 1 (plus word); Star space;
                         chr "="; Star space; Grp 2 (plus dot); Eol false])
                trimmedLine with
        | Some m =>
            let key := match group 1 m with Some v => v | None => EmptyString end in
            let value :=
              cleanValue (match group 2 m with Some v => v | None => EmptyString end) in
            parseModuleVariables_lines r
              (if String.eqb key "__proto__" then variables
               else var_set key value variables)
        | None => parseModuleVariables_lines r variables
        end
  end.

Definition parseModuleVariables (moduleContent : string)
  : list (string * string) :=
  parseModuleVariables_lines (split_chr lf moduleContent) [].

(** The source line: source, =, and a quoted string (group 1). *)
Definition re_source : re :=
  seq [lit "source"; Star space; chr "="; Star space; dq;
       Grp 1 (Star (none_of (str1 dquote))); dq].

(** parseModuleBlock *)
Definition parseModuleBlock (content moduleName : string) : option ModuleCall :=
  match exec (seq ([lit "module"; plus space; dq; lit moduleName; dq; Star space]
                   ++ block_body)%list) content with
  | Some m =>
      let moduleContent := match group 1 m with Some v => v | None => EmptyString end in
      match exec re_source moduleContent with
      | Some sm =>
          Some (mkModuleCall moduleName
                  (match group 1 sm with Some v => v | None => EmptyString end)
                  (parseModuleVariables moduleContent))
      | None => None
      end
  | None => None
  end.

(** extractVariableReferences *)
Definition extractVariableReferences (value : string) : list string :=
  let dotted := plus (Cls (fun c => is_word c || Ascii.eqb c "."))%bool in
  let texts (r : re) := map m_text (all_matches r value) in
  dedup
    (texts (seq [Wb; lit "var."; Grp 1 (plus word)])
     ++ texts (seq [Wb; lit "local."; Grp 1 (plus word)])
     ++ texts (seq [Wb; lit "module."; Grp 1 dotted])
     ++ map (fun m =>
               ("data." ++ match group 1 m with Some v => v | None => EmptyString end
                ++ "." ++ match group 2 m with Some v => v | None => EmptyString end)%string)
          (all_matches (seq [Wb; lit "data."; Grp 1 dotted; chr "."; Grp 2 dotted])
             value))%list.

(** formatValue, on a value produced by [JSON.parse].  The source takes
    [value.slice(0, 3)] (or [entries.slice(0, 2)]) before mapping; here the
    prefix is taken after mapping, which is the same list. *)
Fixpoint formatValue (value : json) {struct value} : string :=
  match value with
  | JNull => "null"
  | JStr s => str1 dquote ++ s ++ str1 dquote
  | JBool b => if b then "true" else "false"
  | JNum text => text
  | JArr [] => "[]"
  | JArr items =>
      if (3 <? List.length items)%nat
      then "[" ++ join ", " (firstn 3 (map formatValue items)) ++ ", ...]"
      else "[" ++ join ", " (map formatValue items) ++ "]"
  | JObj [] => "{}"
  | JObj entries =>
      let pairs := map (fun e => fst e ++ " = " ++ formatValue (snd e)) entries in
      if (3 <? List.length entries)%nat
      then "{ " ++ join ", " (firstn 2 pairs) ++ ", ... }"
      else "{ " ++ join ", " pairs ++ " }"
  end.

(** The result of reading a property [json[name]]. *)
Inductive property : Type :=
| PTypeError                 (* reading a property of null *)
| PUndefined
| PValue (v : json).

Fixpoint entry_get (name : string) (es : list (string * json)) : option json :=
  match es with
  | [] => None
  | (k, v) :: r => if String.eqb name k then Some v else entry_get name r
  end.

(** [json[name]] for the own properties of a parsed value: the keys of an
    object, the indices and [length] of an array or a string.  Names that
    only the built-in prototypes define ([toString], [constructor], ...)
    are outside the model and read as undefined. *)
Definition js_get (j : json) (name : string) : property :=
  match j with
  | JNull => PTypeError
  | JObj es => match entry_get name es with Some v => PValue v | None => PUndefined end
  | JArr items =>
      if String.eqb name "length"
      then PValue (JNum (nat_to_string (List.length items)))
      else if is_index_key name then
        match nth_error items (nat_of_digits name 0) with
        | Some v => PValue v
        | None => PUndefined
        end
      else PUndefined
  | JStr s =>
      if String.eqb name "length"
      then PValue (JNum (nat_to_string (String.length s)))
      else if is_index_key name then
        match String.get (nat_of_digits name 0) s with
        | Some c => PValue (JStr (str1 c))
        | None => PUndefined
        end
      else PUndefined
  | JBool _ | JNum _ => PUndefined
  end.

(** parseJsonVariable *)
Definition parseJsonVariable (content variableName : string) : option string :=
  match parse content with
  | Some json =>
      match js_get json variableName with
      | PValue v => Some (formatValue v)
      | PUndefined => None
      | PTypeError => None
      end
  | None => None
  end.

End TerraformParser.

(* ================================================================== *)
(** * POSIX paths: the functions of Node's [path] module that the
      resolver calls *)
(* ================================================================== *)

Module Path.
Import Js.

Definition slash : ascii := "/"%char.
Definition is_absolute (p : string) : bool := startsWith p "/".

(** normalizeString: resolve [.] and [..] segments; the result is kept as
    the reversed list of segments. *)
Fixpoint normalize_segments (segs : list string) (allowAboveRoot : bool)
  (res : list string) : list string :=
  match segs with
  | [] => res
  | seg :: r =>
      if (is_empty seg || String.eqb seg ".")%bool
      then normalize_segments r allowAboveRoot res
      else if String.eqb seg ".." then
        match res with
        | last :: res' =>
            if String.eqb last ".."
            then normalize_segments r allowAboveRoot
                   (if allowAboveRoot then ".." :: res else res)
            else normalize_segments r allowAboveRoot res'
        | [] =>
            normalize_segments r allowAboveRoot
              (if allowAboveRoot then [".."] else [])
        end
      else normalize_segments r allowAboveRoot (seg :: res)
  end.

Definition normalizeString (p : string) (allowAboveRoot : bool) : string :=
  join "/" (rev (normalize_segments (split_chr slash p) allowAboveRoot [])).

(** path.normalize *)
Definition normalize (p : string) : string :=
  if is_empty p then "."
  else
    let isAbsolute := is_absolute p in
    let trailingSeparator := endsWith p "/" in
    let n := normalizeString p (negb isAbsolute) in
    if is_empty n then
      if isAbsolute then "/" else if trailingSeparator then "./" else "."
    else
      let n := if trailingSeparator then n ++ "/" else n in
      if isAbsolute then "/" ++ n else n.

(** path.join(a, b) *)
Definition join2 (a b : string) : string :=
  if is_empty a then (if is_empty b then "." else normalize b)
  else if is_empty b then normalize a
  else normalize (a ++ "/" ++ b).

(** path.resolve(a, b), with [cwd] the (absolute) working directory *)
Definition resolve (cwd a b : string) : string :=
  let s0 := if is_empty b then EmptyString else b ++ "/" in
  let s1 := if (is_absolute b || is_empty a)%bool then s0 else a ++ "/" ++ s0 in
  let s2 := if (is_absolute b || is_absolute a)%bool then s1
            else cwd ++ "/" ++ s1 in
  let absolute := (is_absolute b || is_absolute a || is_absolute cwd)%bool in
  let n := normalizeString s2 (negb absolute) in
  if absolute then "/" ++ n else if is_empty n then "." else n.

Fixpoint skip_slashes (s : string) : string :=
  match s with
  | String c t => if Ascii.eqb c slash then skip_slashes t else s
  | EmptyString => EmptyString
  end.

Fixpoint skip_name (s : string) : string :=
  match s with
  | String c t => if Ascii.eqb c slash then s else skip_name t
  | EmptyString => EmptyString
  end.

(** path.dirname: scanning from the end down to index 1, pass the trailing
    slashes and the last name; the slash found next ends the result. *)
Definition dirname (p : string) : string :=
  match p with
  | EmptyString => "."
  | String c body =>
      let hasRoot := Ascii.eqb c slash in
      match skip_name (skip_slashes (rev_string body EmptyString)) with
      | EmptyString => if hasRoot then "/" else "."
      | String _ before =>
          let e := S (String.length before) in
          if (hasRoot && Nat.eqb e 1)%bool then "//" else take e p
      end
  end.

End Path.


(* ================================================================== *)
(** * The bounded cache: [TerraformCache] *)
(* ================================================================== *)

Module TerraformCache.
Import Js.
Local Open Scope Z_scope.

Record CacheEntry : Type := mkEntry {
  value : string;
  timestamp : Z;
  accessCount : Z;
  lastAccessed : Z
}.

(** The [Map<string, CacheEntry>], in insertion order. *)
Definition Cache : Type := list (string * CacheEntry).

Definition TTL : Z := 60000.
Definition MAX_SIZE : nat := 1000.

Fixpoint map_get (key : string) (c : Cache) : option CacheEntry :=
  match c with
  | [] => None
  | (k, e) :: r => if String.eqb key k then Some e else map_get key r
  end.

(** [Map.prototype.set]: a present key keeps its place. *)
Fixpoint map_set (key : string) (e : CacheEntry) (c : Cache) : Cache :=
  match c with
  | [] => [(key, e)]
  | (k, e') :: r =>
      if String.eqb key k then (k, e) :: r else (k, e') :: map_set key e r
  end.

Fixpoint map_delete (key : string) (c : Cache) : Cache :=
  match c with
  | [] => []
  | (k, e) :: r => if String.eqb key k then r else (k, e) :: map_delete key r
  end.

(** get(key), when [Date.now()] would read [now].  The clock is read only
    when the key is present. *)
Definition get (now : Z) (key : string) (c : Cache) : option string * Cache :=
  match map_get key c with
  | None => (None, c)
  | Some entry =>
      if TTL <? now - timestamp entry then (None, map_delete key c)
      else (Some (value entry),
            map_set key (mkEntry (value entry) (timestamp entry)
                           (accessCount entry + 1) now) c)
  end.

(** The scan of evictLeastRecentlyUsed: the first entry with the least
    [lastAccessed] below the starting time. *)
Fixpoint lru_scan (c : Cache) (lruKey : option string) (lruTimestamp : Z)
  : option string :=
  match c with
  | [] => lruKey
  | (k, e) :: r =>
      if lastAccessed e <? lruTimestamp
      then lru_scan r (Some k) (lastAccessed e)
      else lru_scan r lruKey lruTimestamp
  end.

(** evictLeastRecentlyUsed; [if (lruKey)] is false for the empty key. *)
Definition evictLeastRecentlyUsed (now : Z) (c : Cache) : Cache :=
  match lru_scan c None now with
  | Some k => if is_empty k then c else map_delete k c
  | None => c
  end.

(** set(key, value): [now1] is read by the eviction when the cache is full,
    [now2] stamps the entry. *)
Definition set (now1 now2 : Z) (key v : string) (c : Cache) : Cache :=
  let c := if (MAX_SIZE <=? List.length c)%nat
           then evictLeastRecentlyUsed now1 c else c in
  map_set key (mkEntry v now2 1 now2) c.

End TerraformCache.

(* ================================================================== *)
(** * The file accessor and the effects of the resolver *)
(* ================================================================== *)

Module Effects.
Import Js.

(** What the resolver can observe of the file system.  [None] is a
    rejected promise (ENOENT, EACCES, ENOTDIR, ...). *)
Record FileSystem : Type := mkFS {
  fs_isDirectory : string -> bool;           (* access and stat succeed, isDirectory() *)
  fs_readdir : string -> option (list string);
  fs_readFile : string -> option string
}.

(** The mutable objects a resolution works on: the cache, the map of
    resolved module paths, the visited set passed along the recursive
    calls, and the number of clock readings made so far. *)
Record State : Type := mkState {
  cache : TerraformCache.Cache;
  resolvedModulePaths : list (string * string);
  visited : list string;
  ticks : nat
}.

(** How a call ends: it returns, it throws, or the model ran out of fuel
    (which is no behaviour of the program). *)
Inductive outcome (A : Type) : Type :=
| Ret (a : A)
| Throw
| OutOfFuel.
Arguments Ret {A} a.
Arguments Throw {A}.
Arguments OutOfFuel {A}.

Definition M (A : Type) : Type := State -> outcome A * State.

Definition ret {A} (a : A) : M A := fun s => (Ret a, s).
Definition throw {A} : M A := fun s => (Throw, s).
Definition out_of_fuel {A} : M A := fun s => (OutOfFuel, s).

Definition bind {A B} (m : M A) (k : A -> M B) : M B :=
  fun s =>
    match m s with
    | (Ret a, s') => k a s'
    | (Throw, s') => (Throw, s')
    | (OutOfFuel, s') => (OutOfFuel, s')
    end.

(** [try { m } catch { h }] *)
Definition try_catch {A} (m : M A) (h : M A) : M A :=
  fun s =>
    match m s with
    | (Throw, s') => h s'
    | r => r
    end.

(** [try { m } finally { f }] for a finalizer that cannot throw *)
Definition finally {A} (m : M A) (f : State -> State) : M A :=
  fun s => let (r, s') := m s in (r, f s').

(** A promise that may reject. *)
Definition lift_option {A} (x : option A) : M A :=
  match x with Some a => ret a | None => throw end.

End Effects.

Declare Scope resolver_scope.
Delimit Scope resolver_scope with resolver.
Notation "x <- m ;; k" := (Effects.bind m (fun x => k))
  (at level 61, m at next level, right associativity) : resolver_scope.
Notation "m ;;; k" := (Effects.bind m (fun _ => k))
  (at level 61, right associativity) : resolver_scope.

(* ================================================================== *)
(** * The resolution engine: [TerraformVariableResolver] *)
(* ================================================================== *)

Module Resolver.
Import Js Regex Json TerraformParser Effects.
Local Open Scope resolver_scope.

Definition maxRecursionDepth : nat := 10.

(** [String(v)] for a parsed value, as a template literal prints it. *)
Fixpoint js_to_string (v : json) {struct v} : string :=
  match v with
  | JNull => "null"
  | JBool b => if b then "true" else "false"
  | JNum t => t
  | JStr s => s
  | JArr items =>
      join "," (map (fun x => match x with
                              | JNull => EmptyString
                              | _ => js_to_string x
                              end) items)
  | JObj _ => "[object Object]"
  end.

(** [JSON.stringify(v)] without indentation. *)
Fixpoint stringify (v : json) {struct v} : string :=
  match v with
  | JNull => "null"
  | JBool b => if b then "true" else "false"
  | JNum t => if (String.eqb t "Infinity" || String.eqb t "-Infinity")%bool
              then "null" else t
  | JStr s => quote s
  | JArr items => "[" ++ join "," (map stringify items) ++ "]"
  | JObj entries =>
      "{" ++ join "," (map (fun e => quote (fst e) ++ ":" ++ stringify (snd e)) entries)
      ++ "}"
  end.

(** A ModuleCall as the JavaScript object it is. *)
Definition module_object (mc : ModuleCall) : json :=
  JObj [("name", JStr (mc_name mc));
        ("source", JStr (mc_source mc));
        ("variables",
         JObj (entries_order (map (fun kv => (fst kv, JStr (snd kv)))
                                (mc_variables mc))));
        ("location", JNull)].

(** Truthiness of a parsed value. *)
Definition truthy (v : json) : bool :=
  match v with
  | JNull => false
  | JBool b => b
  | JNum t => negb (String.eqb t "0")
  | JStr s => negb (is_empty s)
  | JArr _ | JObj _ => true
  end.

(** The value of [moduleCall.source]: a string, or something else whose
    printed form is all that is used before [startsWith] throws. *)
Inductive js_source : Type :=
| IsString (s : string)
| NotString (printed : string).

Definition source_of (moduleCall : json) : js_source :=
  match js_get moduleCall "source" with
  | PValue (JStr s) => IsString s
  | PValue v => NotString (js_to_string v)
  | _ => NotString "undefined"
  end.

Definition printed (src : js_source) : string :=
  match src with IsString s => s | NotString p => p end.

(** looksLikeJson *)
Definition looksLikeJson (str : string) : bool :=
  match parse str with Some _ => true | None => false end.

(** The lines of formatHclStructure, with the running indentation. *)
Fixpoint formatHclStructure_lines (lines : list string) (indentLevel : nat)
  : list string :=
  match lines with
  | [] => []
  | line :: r =>
      let trimmedLine := trim line in
      let indentLevel :=
        if (includes trimmedLine "}" || includes trimmedLine "]")%bool
        then Nat.pred indentLevel else indentLevel in
      (repeat_str "  " indentLevel ++ trimmedLine)
      :: formatHclStructure_lines r
           (if (includes trimmedLine "{" || includes trimmedLine "[")%bool
            then S indentLevel else indentLevel)
  end.

(** formatHclStructure.  Its pattern is a comma, white space, and a
    lookahead for a rest of the text that holds an even number of double
    quotes. *)
Definition formatHclStructure (hclStr : string) : string :=
  if is_empty hclStr then hclStr
  else
    let nq := none_of (str1 dquote) in
    let formatted :=
      replace_all
        (seq [chr ","; Star space;
              Ahead (seq [Star nq; Star (seq [dq; Star nq; dq; Star nq]);
                          Eol false])])
        0 ("," ++ nl ++ "  ") hclStr in
    join nl (formatHclStructure_lines (split_chr lf formatted) 0).

(** preserveComplexStructure *)
Definition preserveComplexStructure (value : string) : string :=
  if is_empty value then value
  else
    let trimmed := trim value in
    if ((startsWith trimmed "{" && endsWith trimmed "}")
        || (startsWith trimmed "[" && endsWith trimmed "]"))%bool
    then
      match parse trimmed with
      | Some parsed => stringify2 parsed
      | None => formatHclStructure trimmed
      end
    else trimmed.

(** The keys of the cache and of the visited set. *)
Definition resolve_key (variableName currentDir : string) (depth : nat) : string :=
  "resolve:" ++ variableName ++ ":" ++ currentDir ++ ":" ++ nat_to_string depth.
Definition enhanced_key (variableName currentDir : string) (depth : nat)
  (moduleContext : list string) : string :=
  "enhanced:" ++ variableName ++ ":" ++ currentDir ++ ":" ++ nat_to_string depth
  ++ ":" ++ join "," moduleContext.
Definition visit_key (variableName currentDir : string) (depth : nat) : string :=
  currentDir ++ ":" ++ variableName ++ ":" ++ nat_to_string depth.
Definition tfvars_key (variableName dir : string) : string :=
  "tfvars:" ++ variableName ++ ":" ++ dir.
Definition locals_key (variableName dir : string) : string :=
  "locals:" ++ variableName ++ ":" ++ dir.
Definition outputs_key (variableName dir : string) : string :=
  "outputs:" ++ variableName ++ ":" ++ dir.
Definition module_key (moduleName dir : string) : string :=
  "module:" ++ moduleName ++ ":" ++ dir.
Definition modulePath_key (source currentDir : string) : string :=
  "modulePath:" ++ source ++ ":" ++ currentDir.

Fixpoint remove_str (x : string) (xs : list string) : list string :=
  match xs with
  | [] => []
  | y :: r => if String.eqb x y then remove_str x r else y :: remove_str x r
  end.

Fixpoint assoc_get (k : string) (m : list (string * string)) : option string :=
  match m with
  | [] => None
  | (k', v) :: r => if String.eqb k k' then Some v else assoc_get k r
  end.

Fixpoint assoc_set (k v : string) (m : list (string * string))
  : list (string * string) :=
  match m with
  | [] => [(k, v)]
  | (k', v') :: r =>
      if String.eqb k k' then (k', v) :: r else (k', v') :: assoc_set k v r
  end.

Section WithEnvironment.

(** The file set, the workspace root given to the constructor, the working
    directory of the process (read by [path.resolve] for relative paths),
    and the successive readings of [Date.now()]. *)
Variable fs : FileSystem.
Variable workspaceRoot : string.
Variable cwd : string.
Variable clock : nat -> Z.

(** this.cache.get(key) *)
Definition cache_get (key : string) : M (option string) :=
  fun s =>
    match TerraformCache.map_get key (cache s) with
    | None => (Ret None, s)
    | Some _ =>
        let (r, c) := TerraformCache.get (clock (ticks s)) key (cache s) in
        (Ret r, mkState c (resolvedModulePaths s) (visited s) (S (ticks s)))
    end.

(** this.cache.set(key, value) *)
Definition cache_set (key value : string) : M unit :=
  fun s =>
    if (TerraformCache.MAX_SIZE <=? List.length (cache s))%nat
    then (Ret tt,
          mkState (TerraformCache.set (clock (ticks s)) (clock (S (ticks s)))
                     key value (cache s))
            (resolvedModulePaths s) (visited s) (S (S (ticks s))))
    else (Ret tt,
          mkState (TerraformCache.set 0 (clock (ticks s)) key value (cache s))
            (resolvedModulePaths s) (visited s) (S (ticks s))).

Definition visited_has (key : string) : M bool :=
  fun s => (Ret (mem key (visited s)), s).

Definition visited_add (key : string) : M unit :=
  fun s => (Ret tt,
            mkState (cache s) (resolvedModulePaths s)
              (if mem key (visited s) then visited s
               else (visited s ++ [key])%list) (ticks s)).

Definition visited_delete (key : string) (s : State) : State :=
  mkState (cache s) (resolvedModulePaths s) (remove_str key (visited s)) (ticks s).

Definition paths_get (key : string) : M (option string) :=
  fun s => (Ret (assoc_get key (resolvedModulePaths s)), s).

Definition paths_set (key v : string) : M unit :=
  fun s => (Ret tt,
            mkState (cache s) (assoc_set key v (resolvedModulePaths s))
              (visited s) (ticks s)).

(** directoryExists *)
Definition directoryExists (dirPath : string) : M bool :=
  ret (fs_isDirectory fs dirPath).

(** isWithinWorkspace *)
Definition isWithinWorkspace (dirPath : string) : bool :=
  let normalizedDir := Path.normalize dirPath in
  let normalizedWorkspace := Path.normalize workspaceRoot in
  startsWith normalizedDir normalizedWorkspace.

(** The loop [for (const file of files)] shared by the four finders: read
    the file and parse it; a hit is stored and returned, a miss or a failed
    read goes on to the next file. *)
Fixpoint for_files {A} (dir : string) (files : list string)
  (parse_file : string -> string -> option A) (found : A -> M A)
  : M (option A) :=
  match files with
  | [] => ret None
  | file :: r =>
      let filePath := Path.join2 dir file in
      hit <- try_catch
               (content <- lift_option (fs_readFile fs filePath) ;;
                match parse_file file content with
                | Some v => (v' <- found v ;; ret (Some v'))
                | None => ret None
                end)
               (ret None) ;;
      match hit with
      | Some v => ret (Some v)
      | None => for_files dir r parse_file found
      end
  end.

(** findInTfvarsFiles *)
Definition findInTfvarsFiles (variableName dir : string) : M (option string) :=
  try_catch
    (let cacheKey := tfvars_key variableName dir in
     cached <- cache_get cacheKey ;;
     match cached with
     | Some v => ret (Some v)
     | None =>
         ex <- directoryExists dir ;;
         if negb ex then ret None
         else
           files <- lift_option (fs_readdir fs dir) ;;
           let tfvarsFiles :=
             filter (fun f => endsWith f ".tfvars" || endsWith f ".tfvars.json")%bool
               files in
           for_files dir tfvarsFiles
             (fun file content =>
                if endsWith file ".json"
                then parseJsonVariable content variableName
                else parseHclVariable content variableName)
             (fun value =>
                let preservedValue := preserveComplexStructure value in
                cache_set cacheKey preservedValue ;;; ret preservedValue)
     end)
    (ret None).

(** findInLocals *)
Definition findInLocals (variableName dir : string) : M (option string) :=
  try_catch
    (let cacheKey := locals_key variableName dir in
     cached <- cache_get cacheKey ;;
     match cached with
     | Some v => ret (Some v)
     | None =>
         ex <- directoryExists dir ;;
         if negb ex then ret None
         else
           files <- lift_option (fs_readdir fs dir) ;;
           for_files dir (filter (fun f => endsWith f ".tf") files)
             (fun _ content => parseLocalsBlock content variableName)
             (fun value => cache_set cacheKey value ;;; ret value)
     end)
    (ret None).

(** findInOutputs *)
Definition findInOutputs (variableName dir : string) : M (option string) :=
  try_catch
    (let cacheKey := outputs_key variableName dir in
     cached <- cache_get cacheKey ;;
     match cached with
     | Some v => ret (Some v)
     | None =>
         ex <- directoryExists dir ;;
         if negb ex then ret None
         else
           files <- lift_option (fs_readdir fs dir) ;;
           for_files dir (filter (fun f => endsWith f ".tf") files)
             (fun _ content => parseOutputBlock content variableName)
             (fun value => cache_set cacheKey value ;;; ret value)
     end)
    (ret None).

(** findModuleCall: the module call as a JavaScript value, which is
    whatever [JSON.parse] makes of the cached text on a cache hit. *)
Definition findModuleCall (moduleName dir : string) : M (option json) :=
  try_catch
    (let cacheKey := module_key moduleName dir in
     cached <- cache_get cacheKey ;;
     match cached with
     | Some text => (v <- lift_option (parse text) ;; ret (Some v))
     | None =>
         ex <- directoryExists dir ;;
         if negb ex then ret None
         else
           files <- lift_option (fs_readdir fs dir) ;;
           for_files dir (filter (fun f => endsWith f ".tf") files)
             (fun _ content =>
                option_map module_object (parseModuleBlock content moduleName))
             (fun moduleCall =>
                cache_set cacheKey (stringify moduleCall) ;;; ret moduleCall)
     end)
    (ret None).

(** resolveModulePath.  A [source] that is no string makes
    [source.startsWith] throw, after the lookup of the printed key. *)
Definition resolveModulePath (source : js_source) (currentDir : string)
  : M (option string) :=
  try_catch
    (let cacheKey := modulePath_key (printed source) currentDir in
     let candidate (candidatePath : string) : M (option string) :=
       ex <- directoryExists candidatePath ;;
       ret (if ex then Some candidatePath else None) in
     let finish (resolvedPath : option string) : M (option string) :=
       match resolvedPath with
       | Some p =>
           if (negb (is_empty p) && isWithinWorkspace p)%bool
           then paths_set cacheKey p ;;; ret (Some p)
           else ret None
       | None => ret None
       end in
     let uncached : M (option string) :=
       match source with
       | NotString _ => throw
       | IsString source =>
           if (startsWith source "./" || startsWith source "../")%bool then
             r <- candidate (Path.resolve cwd currentDir source) ;; finish r
           else if startsWith source "/" then
             r <- candidate (Path.join2 workspaceRoot source) ;; finish r
           else if (includes source "terraform.io"
                    || includes source "github.com")%bool
           then ret None
           else
             r <- candidate (Path.resolve cwd currentDir source) ;; finish r
       end in
     cached <- paths_get cacheKey ;;
     match cached with
     | Some p => if is_empty p then uncached else ret (Some p)
     | None => uncached
     end)
    (ret None).

(** The pattern [new RegExp("\\b" + varRef.replace('.', '\\.') + "\\b")]:
    only the first dot of [varRef] is escaped, a later one matches any
    character but a line terminator.  [varRef] comes from
    extractVariableReferences, so it is made of word characters and dots. *)
Fixpoint ref_pattern_chars (varRef : string) (escaped : bool) : re :=
  match varRef with
  | EmptyString => Eps
  | String c t =>
      if Ascii.eqb c "." then
        Cat (if escaped then dot else chr ".") (ref_pattern_chars t true)
      else Cat (chr c) (ref_pattern_chars t escaped)
  end.
Definition ref_pattern (varRef : string) : re :=
  seq [Wb; ref_pattern_chars varRef false; Wb].

(** The type of the two public resolution functions once [visited] is in
    the state: name, directory, depth. *)
Definition resolver : Type := string -> string -> nat -> M (option string).

Section Plain.
(** [rvv] stands for the recursive calls of resolveVariableValue. *)
Variable rvv : resolver.

Fixpoint substitute_refs (varRefs : list string) (contextDir : string)
  (depth : nat) (resolvedValue : string) : M string :=
  match varRefs with
  | [] => ret resolvedValue
  | varRef :: r =>
      resolvedRef <- rvv varRef contextDir depth ;;
      match resolvedRef with
      | Some v =>
          substitute_refs r contextDir depth
            (replace_all (ref_pattern varRef) 0 v resolvedValue)
      | None => substitute_refs r contextDir depth resolvedValue
      end
  end.

(** resolveReferencesInValue *)
Definition resolveReferencesInValue (value contextDir : string) (depth : nat)
  : M string :=
  if is_empty value then ret value
  else
    try_catch
      (substitute_refs (extractVariableReferences value) contextDir depth value)
      (ret value).

(** resolveModuleOutput *)
Definition resolveModuleOutput (variableRef currentDir : string) (depth : nat)
  : M (option string) :=
  try_catch
    (let parts := split_chr "." variableRef in
     if ((List.length parts <? 3)%nat
         || negb (String.eqb (nth 0 parts EmptyString) "module"))%bool
     then ret None
     else
       let moduleName := nth 1 parts EmptyString in
       let outputName := join "." (skipn 2 parts) in
       moduleCall <- findModuleCall moduleName currentDir ;;
       match moduleCall with
       | None => ret None
       | Some mc =>
           if negb (truthy mc) then ret None
           else
             modulePath <- resolveModulePath (source_of mc) currentDir ;;
             match modulePath with
             | None => ret None
             | Some modulePath =>
                 if is_empty modulePath then ret None
                 else
                   outputValue <- findInOutputs outputName modulePath ;;
                   match outputValue with
                   | Some ov =>
                       v <- resolveReferencesInValue ov modulePath (depth + 1) ;;
                       ret (Some v)
                   | None => ret None
                   end
             end
       end)
    (ret None).

End Plain.

(** resolveVariableValue.  [fuel] bounds the nesting of the recursive
    calls in the model; [maxRecursionDepth + 2] is always enough, since
    each of them is made at a greater depth. *)
Fixpoint resolveVariableValue (fuel : nat) (variableName currentDir : string)
  (depth : nat) {struct fuel} : M (option string) :=
  match fuel with
  | O => out_of_fuel
  | S fuel' =>
      if (maxRecursionDepth <? depth)%nat then ret None
      else
        let cacheKey := resolve_key variableName currentDir depth in
        cached <- cache_get cacheKey ;;
        match cached with
        | Some v => ret (Some v)
        | None =>
            let visitKey := visit_key variableName currentDir depth in
            seen <- visited_has visitKey ;;
            if seen then ret None
            else
              visited_add visitKey ;;;
              finally
                (try_catch
                   (resolvedValue <- findInTfvarsFiles variableName currentDir ;;
                    match resolvedValue with
                    | Some v => cache_set cacheKey v ;;; ret (Some v)
                    | None =>
                    resolvedValue <- findInLocals variableName currentDir ;;
                    match resolvedValue with
                    | Some v => cache_set cacheKey v ;;; ret (Some v)
                    | None =>
                    resolvedValue <- findInOutputs variableName currentDir ;;
                    match resolvedValue with
                    | Some v => cache_set cacheKey v ;;; ret (Some v)
                    | None =>
                    resolvedValue <-
                      (if startsWith variableName "module."
                       then resolveModuleOutput (resolveVariableValue fuel')
                              variableName currentDir (depth + 1)
                       else ret None) ;;
                    match resolvedValue with
                    | Some v => cache_set cacheKey v ;;; ret (Some v)
                    | None =>
                    let parentDir := Path.dirname currentDir in
                    if (negb (String.eqb parentDir currentDir)
                        && isWithinWorkspace parentDir)%bool
                    then
                      resolvedValue <-
                        resolveVariableValue fuel' variableName parentDir (depth + 1) ;;
                      match resolvedValue with
                      | Some v => cache_set cacheKey v ;;; ret (Some v)
                      | None => ret None
                      end
                    else ret None
                    end end end end)
                   (ret None))
                (visited_delete visitKey)
        end
  end.

(** The pattern of findModuleCallsToDirectory: a module block, group 1
    its name (word characters), group 2 its body. *)
Definition re_any_module : re :=
  seq [lit "module"; plus space; dq; Grp 1 (plus word); dq; Star space; chr "{";
       Grp 2 (Cat (Star (none_of "}"))
                (Star (seq [chr "{"; Star (none_of "}"); chr "}";
                            Star (none_of "}")])));
       chr "}"].

Fixpoint calls_in_matches (ms : list rmatch_result) (searchDir targetDir : string)
  (moduleCalls : list ModuleCall) : M (list ModuleCall) :=
  match ms with
  | [] => ret moduleCalls
  | m :: r =>
      let moduleName := match group 1 m with Some v => v | None => EmptyString end in
      let moduleContent := match group 2 m with Some v => v | None => EmptyString end in
      match exec re_source moduleContent with
      | None => calls_in_matches r searchDir targetDir moduleCalls
      | Some sm =>
          let source := match group 1 sm with Some v => v | None => EmptyString end in
          resolvedSource <- resolveModulePath (IsString source) searchDir ;;
          match resolvedSource with
          | Some p =>
              if String.eqb p targetDir
              then calls_in_matches r searchDir targetDir
                     (moduleCalls
                      ++ [mkModuleCall moduleName source
                            (parseModuleVariables moduleContent)])%list
              else calls_in_matches r searchDir targetDir moduleCalls
          | None => calls_in_matches r searchDir targetDir moduleCalls
          end
      end
  end.

(** The loop over the .tf files: a failed read ends the scan, and the
    calls collected so far are what the function returns. *)
Fixpoint calls_in_files (files : list string) (searchDir targetDir : string)
  (moduleCalls : list ModuleCall) : M (list ModuleCall) :=
  match files with
  | [] => ret moduleCalls
  | file :: r =>
      match fs_readFile fs (Path.join2 searchDir file) with
      | None => ret moduleCalls
      | Some content =>
          moduleCalls' <- calls_in_matches (all_matches re_any_module content)
                            searchDir targetDir moduleCalls ;;
          calls_in_files r searchDir targetDir moduleCalls'
      end
  end.

(** findModuleCallsToDirectory *)
Definition findModuleCallsToDirectory (searchDir targetDir : string)
  : M (list ModuleCall) :=
  ex <- directoryExists searchDir ;;
  if negb ex then ret []
  else
    match fs_readdir fs searchDir with
    | None => ret []
    | Some files =>
        calls_in_files (filter (fun f => endsWith f ".tf") files)
          searchDir targetDir []
    end.

(** The reference text with every single and double quote removed, then
    trimmed (the first statement of resolveVariableReference). *)
Definition clean_reference (reference : string) : string :=
  trim (replace_all (one_of (String squote (str1 dquote))) 0 EmptyString
          reference).

Section Enhanced.
(** [rve] stands for the recursive calls of resolveVariableValueEnhanced
    (with the module context they pass), [rvv] for resolveVariableValue. *)
Variable rve : string -> string -> nat -> list string -> M (option string).
Variable rvv : resolver.

(** resolveVariableReference *)
Definition resolveVariableReference (reference contextDir : string) (depth : nat)
  : M (option string) :=
  try_catch
    (let cleanRef := clean_reference reference in
     if startsWith cleanRef "var." then
       rve (drop 4 cleanRef) contextDir depth []
     else if startsWith cleanRef "local." then
       findInLocals (drop 6 cleanRef) contextDir
     else if startsWith cleanRef "module." then
       resolveModuleOutput rvv cleanRef contextDir depth
     else ret (Some cleanRef))
    (ret None).

(** The loop [for (const moduleCall of moduleCalls)] of resolveAsModuleInput
    and findVariableInParentModule.  [moduleCall.variables[variableName]]
    is falsy when the key is absent or its value is the empty string. *)
Fixpoint first_passed_input (moduleCalls : list ModuleCall)
  (variableName parentDir : string) (depth : nat) : M (option string) :=
  match moduleCalls with
  | [] => ret None
  | moduleCall :: r =>
      match var_get variableName (mc_variables moduleCall) with
      | Some variableReference =>
          if is_empty variableReference
          then first_passed_input r variableName parentDir depth
          else
            resolvedRef <- resolveVariableReference variableReference parentDir depth ;;
            match resolvedRef with
            | Some v => ret (Some v)
            | None => first_passed_input r variableName parentDir depth
            end
      | None => first_passed_input r variableName parentDir depth
      end
  end.

(** resolveAsModuleInput *)
Definition resolveAsModuleInput (variableName moduleDir : string) (depth : nat)
  : M (option string) :=
  try_catch
    (let parentDir := Path.dirname moduleDir in
     if negb (isWithinWorkspace parentDir) then ret None
     else
       moduleCalls <- findModuleCallsToDirectory parentDir moduleDir ;;
       first_passed_input moduleCalls variableName parentDir depth)
    (ret None).

(** findVariableInParentModule *)
Definition findVariableInParentModule (variableName currentDir parentDir : string)
  (depth : nat) : M (option string) :=
  try_catch
    (moduleCalls <- findModuleCallsToDirectory parentDir currentDir ;;
     first_passed_input moduleCalls variableName parentDir depth)
    (ret None).

Fixpoint substitute_nested (varRefs : list string) (contextDir : string)
  (depth : nat) (resolvedValue : string) : M string :=
  match varRefs with
  | [] => ret resolvedValue
  | varRef :: r =>
      resolved <- resolveVariableReference varRef contextDir depth ;;
      match resolved with
      | Some v =>
          if String.eqb v varRef
          then substitute_nested r contextDir depth resolvedValue
          else substitute_nested r contextDir depth
                 (replace_all (seq [Wb; lit varRef; Wb]) 0 v resolvedValue)
      | None => substitute_nested r contextDir depth resolvedValue
      end
  end.

(** resolveNestedReferences *)
Definition resolveNestedReferences (value contextDir : string) (depth : nat)
  : M string :=
  if is_empty value then ret value
  else
    try_catch
      (substitute_nested (extractVariableReferences value) contextDir depth value)
      (ret value).

End Enhanced.

(** resolveVariableValueEnhanced *)
Fixpoint resolveVariableValueEnhanced (fuel : nat)
  (variableName currentDir : string) (depth : nat) (moduleContext : list string)
  {struct fuel} : M (option string) :=
  match fuel with
  | O => out_of_fuel
  | S fuel' =>
      if (maxRecursionDepth <? depth)%nat then ret None
      else
        let rve := resolveVariableValueEnhanced fuel' in
        let rvv := resolveVariableValue fuel' in
        let cacheKey := enhanced_key variableName currentDir depth moduleContext in
        cached <- cache_get cacheKey ;;
        match cached with
        | Some v => ret (Some v)
        | None =>
            let visitKey := visit_key variableName currentDir depth in
            seen <- visited_has visitKey ;;
            if seen then ret None
            else
              let nested (resolvedValue : string) : M (option string) :=
                finalValue <- resolveNestedReferences rve rvv resolvedValue
                                currentDir (depth + 1) ;;
                cache_set cacheKey finalValue ;;; ret (Some finalValue) in
              visited_add visitKey ;;;
              finally
                (try_catch
                   (resolvedValue <- findInTfvarsFiles variableName currentDir ;;
                    match resolvedValue with
                    | Some v => nested v
                    | None =>
                    resolvedValue <- findInLocals variableName currentDir ;;
                    match resolvedValue with
                    | Some v => nested v
                    | None =>
                    resolvedValue <- findInOutputs variableName currentDir ;;
                    match resolvedValue with
                    | Some v => nested v
                    | None =>
                    moduleVariable <-
                      (match moduleContext with
                       | [] => resolveAsModuleInput rve rvv variableName currentDir
                                 (depth + 1)
                       | _ :: _ => ret None
                       end) ;;
                    match moduleVariable with
                    | Some v => cache_set cacheKey v ;;; ret (Some v)
                    | None =>
                    resolvedValue <-
                      (if startsWith variableName "module."
                       then resolveModuleOutput rvv variableName currentDir (depth + 1)
                       else ret None) ;;
                    match resolvedValue with
                    | Some v => nested v
                    | None =>
                    let parentDir := Path.dirname currentDir in
                    if (negb (String.eqb parentDir currentDir)
                        && isWithinWorkspace parentDir)%bool
                    then
                      parentModuleValue <-
                        findVariableInParentModule rve rvv variableName currentDir
                          parentDir (depth + 1) ;;
                      match parentModuleValue with
                      | Some v => cache_set cacheKey v ;;; ret (Some v)
                      | None =>
                          resolvedValue <-
                            rve variableName parentDir (depth + 1) moduleContext ;;
                          match resolvedValue with
                          | Some v => cache_set cacheKey v ;;; ret (Some v)
                          | None => ret None
                          end
                      end
                    else ret None
                    end end end end end)
                   (ret None))
                (visited_delete visitKey)
        end
  end.

(** resolveVariableInMultipleContexts.  The source starts the resolutions
    together and awaits them jointly; here they run one after the other, in
    the order of [searchDirectories], each with a visited set of its own. *)
Fixpoint resolveVariableInMultipleContexts (variableName : string)
  (searchDirectories : list string) : M (list (string * string)) :=
  match searchDirectories with
  | [] => ret []
  | dir :: r =>
      result <-
        try_catch
          (fun s =>
             let (o, s') :=
               resolveVariableValue (maxRecursionDepth + 2) variableName dir 0
                 (mkState (cache s) (resolvedModulePaths s) [] (ticks s)) in
             (o, mkState (cache s') (resolvedModulePaths s') (visited s) (ticks s')))
          (ret None) ;;
      rest <- resolveVariableInMultipleContexts variableName r ;;
      match result with
      | Some value =>
          if (negb (is_empty value) && negb (is_empty (trim value)))%bool
          then ret ((value, dir) :: rest)
          else ret rest
      | None => ret rest
      end
  end.

End WithEnvironment.
End Resolver.


(* ================================================================== *)
(** * Notions used to state the properties *)
(* ================================================================== *)

Module Notions.
Import Js Regex Json TerraformParser Effects Resolver.

(** The state right after [visited.add(key)]. *)
Definition entered (key : string) (s : State) : State :=
  mkState (cache s) (resolvedModulePaths s) (visited s ++ [key])%list (ticks s).

(** The first file of [files], in order, that can be read and in which
    [parse_file] finds a value. *)
Fixpoint first_readable_hit {A} (fs : FileSystem) (dir : string)
  (files : list string) (parse_file : string -> string -> option A) : option A :=
  match files with
  | [] => None
  | file :: r =>
      match fs_readFile fs (Path.join2 dir file) with
      | Some content =>
          match parse_file file content with
          | Some v => Some v
          | None => first_readable_hit fs dir r parse_file
          end
      | None => first_readable_hit fs dir r parse_file
      end
  end.

Definition is_tfvars (f : string) : bool :=
  (endsWith f ".tfvars" || endsWith f ".tfvars.json")%bool.
Definition is_tf (f : string) : bool := endsWith f ".tf".

(** What the override files of a directory listing assign to a name. *)
Definition override_value (fs : FileSystem) (variableName dir : string)
  (files : list string) : option string :=
  first_readable_hit fs dir (filter is_tfvars files)
    (fun file content =>
       if endsWith file ".json"
       then parseJsonVariable content variableName
       else parseHclVariable content variableName).

(** What the locals blocks of the .tf files of a listing give a name. *)
Definition locals_value (fs : FileSystem) (variableName dir : string)
  (files : list string) : option string :=
  first_readable_hit fs dir (filter is_tf files)
    (fun _ content => parseLocalsBlock content variableName).

(** What the output blocks of the .tf files of a listing give a name. *)
Definition outputs_value (fs : FileSystem) (variableName dir : string)
  (files : list string) : option string :=
  first_readable_hit fs dir (filter is_tf files)
    (fun _ content => parseOutputBlock content variableName).

(** Nothing is cached for the lookups of a name in a directory. *)
Definition cold_lookups (variableName dir : string) (s : State) : Prop :=
  TerraformCache.map_get (tfvars_key variableName dir) (cache s) = None
  /\ TerraformCache.map_get (locals_key variableName dir) (cache s) = None
  /\ TerraformCache.map_get (outputs_key variableName dir) (cache s) = None.

(** A computation is well behaved when, from every state, it gives the
    visited set back as it found it and does not run out of fuel; with
    [may_throw = false] it does not throw either. *)
Definition behaved (may_throw : bool) {A} (m : M A) : Prop :=
  forall s,
    visited (snd (m s)) = visited s
    /\ fst (m s) <> OutOfFuel
    /\ (may_throw = false -> fst (m s) <> Throw).

(** A computation stores its result under [key]: whenever it returns a
    value, the cache then holds that value under [key], stamped with a
    reading of the clock. *)
Definition stores (clock : nat -> Z) (key : string) (m : M (option string))
  : Prop :=
  forall s v,
    fst (m s) = Ret (Some v) ->
    exists e i,
      TerraformCache.map_get key (cache (snd (m s))) = Some e
      /\ TerraformCache.value e = v
      /\ TerraformCache.timestamp e = clock i.


Fixpoint no_slash (s : string) : bool :=
  match s with
  | EmptyString => true
  | String c t => negb (Ascii.eqb c Path.slash) && no_slash t
  end.

Fixpoint no_backslash (s : string) : bool :=
  match s with
  | EmptyString => true
  | String c t => negb (Ascii.eqb bslash c) && no_backslash t
  end.

(** The directory part of [parent/name], as path.dirname gives it. *)
Definition dir_part (parent : string) : string :=
  match parent with
  | EmptyString => "/"
  | String c rest =>
      if (Ascii.eqb c Path.slash && Nat.eqb (S (String.length rest)) 1)%bool
      then "//" else parent
  end.

End Notions.

(* ================================================================== *)
(** * File sets and texts for the worked examples *)
(* ================================================================== *)

Module Fixtures.
Import Js Effects Resolver.

Fixpoint lookup {A} (k : string) (t : list (string * A)) : option A :=
  match t with
  | [] => None
  | (k', v) :: r => if String.eqb k k' then Some v else lookup k r
  end.

(** A file set given by its directories, each with its listing ([None] for
    a directory that cannot be listed), and its files, each with its
    content ([None] for a file that cannot be read). *)
Definition table_fs (dirs : list (string * option (list string)))
  (files : list (string * option string)) : FileSystem :=
  mkFS (fun d => match lookup d dirs with Some _ => true | None => false end)
       (fun d => match lookup d dirs with Some l => l | None => None end)
       (fun f => match lookup f files with Some c => c | None => None end).

(** A resolver that has done nothing yet. *)
Definition fresh : State := mkState [] [] [] 0.

(** A clock that starts at 1000 and advances by one at each of its first
    thousand readings. *)
Definition clock (n : nat) : Z := (1000 + Z.of_nat (Nat.min n 1000))%Z.

(** One directory whose override file and whose locals block both give a
    value to [x]. *)
Definition precedence_files : FileSystem :=
  table_fs
    [("/w", Some ["main.tf"; "prod.tfvars"])]
    [("/w/main.tf", Some (unlines ["locals {"; q "  x = 'from-locals'"; "}"]));
     ("/w/prod.tfvars", Some (q "x = 'from-override'"))].

(** [/w/main.tf] calls the module in [/w/child] with
    [size = var.env_size]; [env_size] is assigned in [/w/prod.tfvars] only. *)
Definition threading_files : FileSystem :=
  table_fs
    [("/w", Some ["main.tf"; "prod.tfvars"; "child"]);
     ("/w/child", Some ["main.tf"])]
    [("/w/main.tf",
      Some (unlines [q "module 'child' {"; q "  source = './child'";
                     "  size = var.env_size"; "}"]));
     ("/w/prod.tfvars", Some (q "env_size = 'large'"));
     ("/w/child/main.tf",
      Some (unlines [q "variable 'size' {"; "  type = string"; "}"]))].

(** An override file with the chain a0 -> a1 -> ... -> a12, a12 being a
    plain string: thirteen names, twelve references. *)
Definition chain : string :=
  unlines ["a0 = var.a1"; "a1 = var.a2"; "a2 = var.a3"; "a3 = var.a4";
           "a4 = var.a5"; "a5 = var.a6"; "a6 = var.a7"; "a7 = var.a8";
           "a8 = var.a9"; "a9 = var.a10"; "a10 = var.a11"; "a11 = var.a12";
           q "a12 = 'end'"].

Definition chain_files : FileSystem :=
  table_fs [("/w", Some ["chain.tfvars"])] [("/w/chain.tfvars", Some chain)].

(** [local.a = local.b] and [local.b = local.a] in one locals block. *)
Definition cycle_files : FileSystem :=
  table_fs
    [("/w", Some ["main.tf"])]
    [("/w/main.tf",
      Some (unlines ["locals {"; "  a = local.b"; "  b = local.a"; "}"]))].



(** [/w/a.tfvars] is listed but cannot be read, [/w/b.tfvars] assigns x;
    [/locked] is a directory that cannot be listed. *)
Definition unreadable_files : FileSystem :=
  table_fs
    [("/w", Some ["a.tfvars"; "b.tfvars"]); ("/locked", None)]
    [("/w/a.tfvars", None); ("/w/b.tfvars", Some (q "x = 'found'"))].

(** The file set of [threading_files] with one more .tf file in [/w],
    listed first, that cannot be read. *)
Definition threading_files_unreadable : FileSystem :=
  table_fs
    [("/w", Some ["a.tf"; "main.tf"; "prod.tfvars"; "child"]);
     ("/w/child", Some ["main.tf"])]
    [("/w/a.tf", None);
     ("/w/main.tf",
      Some (unlines [q "module 'child' {"; q "  source = './child'";
                     "  size = var.env_size"; "}"]));
     ("/w/prod.tfvars", Some (q "env_size = 'large'"));
     ("/w/child/main.tf",
      Some (unlines [q "variable 'size' {"; "  type = string"; "}"]))].

(** [/w/root.tfvars] assigns [x]; [/w/sub] holds no declaration of it. *)
Definition parent_files : FileSystem :=
  table_fs
    [("/w", Some ["root.tfvars"; "sub"]); ("/w/sub", Some ["main.tf"])]
    [("/w/root.tfvars", Some (q "x = 'up'"));
     ("/w/sub/main.tf", Some (unlines [q "resource 'null_resource' 'r' {"; "}"]))].

(** Workspace [/w/app]; its sibling [/w/app2] holds a module and a
    subdirectory. *)
Definition sibling_files : FileSystem :=
  table_fs
    [("/w/app", Some ["main.tf"]);
     ("/w/app2", Some ["outputs.tf"; "up.tfvars"; "sub"]);
     ("/w/app2/sub", Some [])]
    [("/w/app/main.tf",
      Some (unlines [q "module 'm' {"; q "  source = '../app2'"; "}"]));
     ("/w/app2/outputs.tf",
      Some (unlines [q "output 'id' {"; q "  value = 'outside'"; "}"]));
     ("/w/app2/up.tfvars", Some (q "x = 'outside'"))].

(** A .tfvars.json text. *)
Definition json_content : string :=
  q "{ 'zones': ['a', 'b', 'c', 'd'], 'name': 'web', 'tags': { 'env': 'prod', 'team': 'core', 'tier': 1, 'cost': 2 } }".

(** A variable whose object value holds a nested object. *)
Definition nested_object : string :=
  unlines ["x = {"; "  b = {"; q "    c = '2'"; "  }"; "}"].

End Fixtures.

(* ================================================================== *)
(** * The upkeep of the cache: the other methods of [TerraformCache] and
      the resolver methods that call them *)
(* ================================================================== *)

Module CacheUpkeep.
Import Js Effects.
Import TerraformCache.
Local Open Scope Z_scope.

(** The loop of invalidateFile over the entries of the map, in insertion
    order: an entry whose key holds [filePath] is deleted.  Deleting the
    entry just visited leaves the iteration of a [Map] undisturbed, so the
    loop runs over the entries the map had at the start. *)
Fixpoint invalidate_entries (filePath : string) (entries : Cache) (c : Cache)
  : Cache :=
  match entries with
  | [] => c
  | (key, _) :: r =>
      invalidate_entries filePath r
        (if includes key filePath then map_delete key c else c)
  end.

(** invalidateFile *)
Definition invalidateFile (filePath : string) (c : Cache) : Cache :=
  invalidate_entries filePath c c.

(** The loop of cleanup: an entry older than the time to live at [now]
    is deleted. *)
Fixpoint cleanup_entries (now : Z) (entries : Cache) (c : Cache) : Cache :=
  match entries with
  | [] => c
  | (key, entry) :: r =>
      cleanup_entries now r
        (if TTL <? now - timestamp entry then map_delete key c else c)
  end.

(** cleanup, when [Date.now()] reads [now] *)
Definition cleanup (now : Z) (c : Cache) : Cache := cleanup_entries now c c.

(** handleFileChange of the resolver: the file watcher reports the path
    of a file that was changed, created or deleted. *)
Definition handleFileChange (filePath : string) (s : State) : State :=
  mkState (invalidateFile filePath (cache s)) (resolvedModulePaths s)
    (visited s) (ticks s).

End CacheUpkeep.

(* ================================================================== *)
(** * The hint label: [TerraformInlayProvider]

    Of the provider, the functions that turn a resolved value into the
    text of a hint and that decide whether a position of a line lies in a
    string or a comment.  The label starts with a space, an arrow (a
    character outside the code units of this model) and a space;
    [displayText] is the label after that prefix. *)
(* ================================================================== *)

Module InlayProvider.
Import Js Regex.

(** [s.slice(1, -1)] *)
Definition slice_inner (s : string) : string :=
  take (String.length s - 2) (drop 1 s).

(** The literal [/^[\d.]+$/]. *)
Definition re_digits_dots : re :=
  seq [Bol false; plus (Cls (fun c => is_digit c || Ascii.eqb c "."))%bool;
       Eol false].

(** The literal [/^(true|false)$/]. *)
Definition re_true_false : re :=
  seq [Bol false; Grp 1 (Alt (lit "true") (lit "false")); Eol false].

(** formatResolvedValue *)
Definition formatResolvedValue (value : string) : string :=
  if (is_empty value || is_empty (trim value))%bool then EmptyString
  else if (startsWith (trim value) "{" && endsWith (trim value) "}")%bool then
    let content := trim (slice_inner (trim value)) in
    if ((50 <? String.length content)%nat || includes content nl)%bool
    then "complex object"
    else "{ " ++ content ++ " }"
  else if (startsWith (trim value) "[" && endsWith (trim value) "]")%bool then
    let content := trim (slice_inner (trim value)) in
    if ((50 <? String.length content)%nat || includes content nl)%bool
    then "array"
    else "[" ++ content ++ "]"
  else if (80 <? String.length value)%nat then
    str1 dquote ++ take 75 value ++ "..." ++ str1 dquote
  else if (negb (startsWith value (str1 dquote))
           && negb (startsWith value (str1 squote))
           && negb (test re_digits_dots value)
           && negb (test re_true_false value))%bool
  then str1 dquote ++ value ++ str1 dquote
  else value.

(** isComplexObject *)
Definition isComplexObject (value : string) : bool :=
  if is_empty value then false
  else
    let trimmed := trim value in
    if (startsWith trimmed "{" && endsWith trimmed "}")%bool then
      let content := trim (slice_inner trimmed) in
      ((50 <? String.length content)%nat
       || includes content nl
       || (2 <? List.length (split_chr "=" content))%nat
       || includes content "{"
       || includes content "[")%bool
    else if (startsWith trimmed "[" && endsWith trimmed "]")%bool then
      let content := trim (slice_inner trimmed) in
      ((50 <? String.length content)%nat
       || includes content nl
       || includes content "{"
       || (3 <? List.length (split_chr "," content))%nat)%bool
    else false.

(** A resolved value with the names of the contexts that gave it and the
    directory it was first found from. *)
Record ResolvedValue : Type := mkResolved {
  rv_value : string;
  rv_context : string;
  rv_source : string
}.

(** The label chosen by createInlayHintWithMultipleValues, after its
    arrow. *)
Definition displayText (resolvedValues : list ResolvedValue) : string :=
  match resolvedValues with
  | [singleValue] =>
      if isComplexObject (rv_value singleValue) then "complex object"
      else formatResolvedValue (rv_value singleValue)
  | _ => "multiple values"
  end.

(** The scan of isInStringOrComment over the first characters of the
    line: the state is (inString, stringChar, escaped), [stringChar] being
    [None] for the empty string. *)
Fixpoint string_scan (n : nat) (lineText : string) (inString : bool)
  (stringChar : option ascii) (escaped : bool) : bool :=
  match n, lineText with
  | S n', String char t =>
      if escaped then string_scan n' t inString stringChar false
      else if Ascii.eqb char bslash then string_scan n' t inString stringChar true
      else if ((Ascii.eqb char dquote || Ascii.eqb char squote) && negb inString)%bool
      then string_scan n' t true (Some char) false
      else if (match stringChar with
               | Some c => Ascii.eqb char c
               | None => false
               end && inString)%bool
      then string_scan n' t false None false
      else string_scan n' t inString stringChar false
  | _, _ => inString
  end.

(** isInStringOrComment, on the text of the line of the position and the
    character index of the position. *)
Definition isInStringOrComment (lineText : string) (charIndex : nat) : bool :=
  match indexOf lineText "#" with
  | Some commentIndex =>
      if (commentIndex <? charIndex)%nat then true
      else string_scan charIndex lineText false None false
  | None => string_scan charIndex lineText false None false
  end.

End InlayProvider.

(* ================================================================== *)
(** * Notions used to state the further properties *)
(* ================================================================== *)

Module Shapes.
Import Js Regex TerraformParser Effects Resolver.

(** A [Map] holds each key once. *)
Definition unique_keys (c : TerraformCache.Cache) : Prop :=
  NoDup (map fst c).

(** [s] holds no character [c]. *)
Fixpoint lacks (c : ascii) (s : string) : bool :=
  match s with
  | EmptyString => true
  | String d t => negb (Ascii.eqb c d) && lacks c t
  end.

(** The number of occurrences of [c] in [s]. *)
Fixpoint count_char (c : ascii) (s : string) : Z :=
  match s with
  | EmptyString => 0%Z
  | String d t => ((if Ascii.eqb c d then 1 else 0) + count_char c t)%Z
  end.

(** Text without double quotes and backslashes. *)
Definition unquoted (s : string) : bool := lacks dquote s && lacks bslash s.

(** [xs] is [ys] with some elements left out. *)
Inductive subsequence {A : Type} : list A -> list A -> Prop :=
| sub_nil : subsequence [] []
| sub_take x xs ys : subsequence xs ys -> subsequence (x :: xs) (x :: ys)
| sub_skip y xs ys : subsequence xs ys -> subsequence xs (y :: ys).

(** Every memoised module path is a directory that passes
    isWithinWorkspace. *)
Definition paths_sound (fs : FileSystem) (workspaceRoot : string) (s : State)
  : Prop :=
  forall key p,
    assoc_get key (resolvedModulePaths s) = Some p ->
    is_empty p = false ->
    fs_isDirectory fs p = true /\ isWithinWorkspace workspaceRoot p = true.

(** The value that the first line [value = ...] of an output body gives
    (the first of the two patterns of parseOutputBlock). *)
Definition value_line (outputContent : string) : option string :=
  match exec (seq [lit "value"; Star space; chr "="; Star space;
                   Grp 1 (Star (none_of nl))]) outputContent with
  | Some vm =>
      Some (cleanValue (match group 1 vm with Some v => v | None => EmptyString end))
  | None => None
  end.

(** The body of the first output block named [outputName]. *)
Definition output_body (content outputName : string) : option string :=
  match exec (seq ([lit "output"; plus space; dq; lit outputName; dq; Star space]
                   ++ block_body)%list) content with
  | Some m => Some (match group 1 m with Some v => v | None => EmptyString end)
  | None => None
  end.

(** A computation keeps the memo of module paths sound and returns only
    sound paths. *)
Definition yields_sound_paths (fs : FileSystem) (workspaceRoot : string)
  (m : M (option string)) : Prop :=
  forall s,
    paths_sound fs workspaceRoot s ->
    paths_sound fs workspaceRoot (snd (m s))
    /\ forall p,
         fst (m s) = Ret (Some p) ->
         fs_isDirectory fs p = true /\ isWithinWorkspace workspaceRoot p = true.

(** The pattern [r] holds no capture group numbered [n]. *)
Fixpoint keeps (n : nat) (r : re) : bool :=
  match r with
  | Grp m a => negb (Nat.eqb n m) && keeps n a
  | Cat a b | Alt a b => keeps n a && keeps n b
  | Star a | LazyStar a | Ahead a => keeps n a
  | Eps | Cls _ | Bol _ | Eol _ | Wb | Bref _ => true
  end.

End Shapes.

(* ================================================================== *)
(** * What the files of a directory say

    The answers of the lookups as functions of the file set alone, with
    no cache and no memo: the properties of the resolver are stated
    against them. *)
(* ================================================================== *)

Module Sources.
Import Js Regex Json TerraformParser Effects Resolver Notions.

Section WithEnvironment.
Variable fs : FileSystem.
Variable workspaceRoot : string.
Variable cwd : string.

(** The value that the override files, the locals or the outputs of a
    listing give a name, in the order of the resolution. *)
Definition direct_value (variableName dir : string) (files : list string)
  : option string :=
  match override_value fs variableName dir files with
  | Some v => Some (preserveComplexStructure v)
  | None =>
      match locals_value fs variableName dir files with
      | Some v => Some v
      | None => outputs_value fs variableName dir files
      end
  end.

(** A candidate directory of resolveModulePath that exists and passes its
    last test. *)
Definition checked_directory (candidatePath : string) : option string :=
  if fs_isDirectory fs candidatePath then
    if (negb (is_empty candidatePath)
        && isWithinWorkspace workspaceRoot candidatePath)%bool
    then Some candidatePath else None
  else None.

(** The directory a module source resolves to from [currentDir], as
    resolveModulePath finds it when it has nothing memoised. *)
Definition module_path (source currentDir : string) : option string :=
  if (startsWith source "./" || startsWith source "../")%bool then
    checked_directory (Path.resolve cwd currentDir source)
  else if startsWith source "/" then
    checked_directory (Path.join2 workspaceRoot source)
  else if (includes source "terraform.io" || includes source "github.com")%bool
  then None
  else checked_directory (Path.resolve cwd currentDir source).

(** The module calls among the matches of the module pattern whose source
    resolves to [targetDir]. *)
Fixpoint calls_of_matches (ms : list rmatch_result) (searchDir targetDir : string)
  : list ModuleCall :=
  match ms with
  | [] => []
  | m :: r =>
      let moduleName := match group 1 m with Some v => v | None => EmptyString end in
      let moduleContent := match group 2 m with Some v => v | None => EmptyString end in
      match exec re_source moduleContent with
      | None => calls_of_matches r searchDir targetDir
      | Some sm =>
          let source := match group 1 sm with Some v => v | None => EmptyString end in
          match module_path source searchDir with
          | Some p =>
              if String.eqb p targetDir
              then mkModuleCall moduleName source (parseModuleVariables moduleContent)
                   :: calls_of_matches r searchDir targetDir
              else calls_of_matches r searchDir targetDir
          | None => calls_of_matches r searchDir targetDir
          end
      end
  end.

(** The same over the files of a listing, up to the first file that cannot
    be read. *)
Fixpoint calls_of_files (files : list string) (searchDir targetDir : string)
  : list ModuleCall :=
  match files with
  | [] => []
  | file :: r =>
      match fs_readFile fs (Path.join2 searchDir file) with
      | None => []
      | Some content =>
          (calls_of_matches (all_matches re_any_module content) searchDir targetDir
           ++ calls_of_files r searchDir targetDir)%list
      end
  end.

(** The module calls of [searchDir] to [targetDir], in the order in which
    findModuleCallsToDirectory collects them. *)
Definition module_calls_to (searchDir targetDir : string) : list ModuleCall :=
  if fs_isDirectory fs searchDir then
    match fs_readdir fs searchDir with
    | Some files => calls_of_files (filter is_tf files) searchDir targetDir
    | None => []
    end
  else [].

(** The argument of the first call that assigns [variableName] one that is
    not empty. *)
Fixpoint passed_argument (variableName : string) (moduleCalls : list ModuleCall)
  : option string :=
  match moduleCalls with
  | [] => None
  | moduleCall :: r =>
      match var_get variableName (mc_variables moduleCall) with
      | Some variableReference =>
          if is_empty variableReference then passed_argument variableName r
          else Some variableReference
      | None => passed_argument variableName r
      end
  end.

(** What is memoised for the sources of [dir] is what they resolve to. *)
Definition paths_faithful (dir : string) (s : State) : Prop :=
  forall source p,
    assoc_get (modulePath_key source dir) (resolvedModulePaths s) = Some p ->
    is_empty p = false ->
    module_path source dir = Some p.

(** [s'] is [s] with more sources of [dir] memoised, each with the
    directory it resolves to. *)
Definition memoised_more (dir : string) (s s' : State) : Prop :=
  cache s' = cache s /\ visited s' = visited s /\ ticks s' = ticks s
  /\ forall key,
       assoc_get key (resolvedModulePaths s') = assoc_get key (resolvedModulePaths s)
       \/ exists source p,
            key = modulePath_key source dir
            /\ assoc_get key (resolvedModulePaths s') = Some p
            /\ module_path source dir = Some p.

End WithEnvironment.

(** Nothing is cached for the enhanced resolution of a name in a directory
    at a depth, and the call is not on the visited set. *)
Definition cold_enhanced (variableName dir : string) (depth : nat) (s : State)
  : Prop :=
  TerraformCache.map_get (enhanced_key variableName dir depth []) (cache s) = None
  /\ cold_lookups variableName dir s
  /\ mem (visit_key variableName dir depth) (visited s) = false.

(** The same for resolveVariableValue. *)
Definition cold_plain (variableName dir : string) (depth : nat) (s : State)
  : Prop :=
  TerraformCache.map_get (resolve_key variableName dir depth) (cache s) = None
  /\ cold_lookups variableName dir s
  /\ mem (visit_key variableName dir depth) (visited s) = false.

(** Every reference that extractVariableReferences finds in the value is
    a [var.] reference. *)
Definition only_var_references (value : string) : bool :=
  forallb (fun r => startsWith (clean_reference r) "var.")
    (extractVariableReferences value).

End Sources.

(* ================================================================== *)
(** * Further file sets and states for the worked examples *)
(* ================================================================== *)

Module MoreFixtures.
Import Js Effects Resolver Fixtures.

(** A full cache: a thousand entries, all set and last accessed at the
    time 5. *)
Definition full_cache : TerraformCache.Cache :=
  map (fun n => ("k" ++ nat_to_string n, TerraformCache.mkEntry "v" 5 1 5))
    (List.seq 0 1000).

(** The state left by resolving [x] from [/w] in [precedence_files]. *)
Definition warm_precedence : State :=
  snd (resolveVariableValue precedence_files "/w" "/" clock 12
         "x" "/w" 0 fresh).

(** [precedence_files] after an edit of [/w/prod.tfvars]. *)
Definition edited_files : FileSystem :=
  table_fs
    [("/w", Some ["main.tf"; "prod.tfvars"])]
    [("/w/main.tf", Some (unlines ["locals {"; q "  x = 'from-locals'"; "}"]));
     ("/w/prod.tfvars", Some (q "x = 'edited'"))].

(** [/w/main.tf] calls the module in [/w/network]; the module has the
    output [cidr]. *)
Definition output_files : FileSystem :=
  table_fs
    [("/w", Some ["main.tf"; "network"]); ("/w/network", Some ["outputs.tf"])]
    [("/w/main.tf",
      Some (unlines [q "module 'net' {"; q "  source = './network'"; "}"]));
     ("/w/network/outputs.tf",
      Some (unlines [q "output 'cidr' {"; q "  value = '10.0.0.0/16'"; "}"]))].

(** [/w/main.tf] calls the module in [/w/child] with a text for [size]. *)
Definition literal_files : FileSystem :=
  table_fs
    [("/w", Some ["main.tf"; "child"]); ("/w/child", Some ["main.tf"])]
    [("/w/main.tf",
      Some (unlines [q "module 'child' {"; q "  source = './child'";
                     q "  size = 'large'"; "}"]));
     ("/w/child/main.tf",
      Some (unlines [q "variable 'size' {"; "  type = string"; "}"]))].


(** The file set of [threading_files] with a nested block before the
    argument of the module call. *)
Definition nested_block_files : FileSystem :=
  table_fs
    [("/w", Some ["main.tf"; "prod.tfvars"; "child"]);
     ("/w/child", Some ["main.tf"])]
    [("/w/main.tf",
      Some (unlines [q "module 'child' {"; q "  source = './child'";
                     "  providers = {"; "    aws = aws.east"; "  }";
                     "  size = var.env_size"; "}"]));
     ("/w/prod.tfvars", Some (q "env_size = 'large'"));
     ("/w/child/main.tf",
      Some (unlines [q "variable 'size' {"; "  type = string"; "}"]))].

(** [a = var.b] and [b = var.a] in one override file. *)
Definition var_cycle_files : FileSystem :=
  table_fs
    [("/w", Some ["cycle.tfvars"])]
    [("/w/cycle.tfvars", Some (unlines ["a = var.b"; "b = var.a"]))].

End MoreFixtures.

(* ================================================================== *)
(** * The platform functions and the parser on examples *)
(* ================================================================== *)

Module JsonTests.
Import Js Json.

Example parse_object :
  parse (q "{ 'b': [1, 2.50, true], '2': null, 'a': 'x\ny', '1': {} }")
  = Some (JObj [("1", JObj []); ("2", JNull);
                ("b", JArr [JNum "1"; JNum "2.5"; JBool true]);
                ("a", JStr (unlines ["x"; "y"]))]).
Proof. vm_compute. reflexivity. Qed.

Example parse_rejects_open_brace : parse "{" = None.
Proof. reflexivity. Qed.

Example parse_rejects_hcl : parse (q "{ a = 'x' }") = None.
Proof. reflexivity. Qed.

Example stringify_nested :
  stringify2 (JObj [("a", JStr "x"); ("b", JArr [JNum "1"; JObj []])])
  = unlines [ "{"; q "  'a': 'x',"; q "  'b': ["; "    1,"; "    {}"; "  ]"; "}" ].
Proof. vm_compute. reflexivity. Qed.

End JsonTests.

Module PathTests.
Import Js Path.

Example dirname_nested : dirname "/w/app/child" = "/w/app".
Proof. reflexivity. Qed.
Example dirname_top : dirname "/w" = "/".
Proof. reflexivity. Qed.
Example dirname_root : dirname "/" = "/".
Proof. reflexivity. Qed.
Example dirname_relative : dirname "child" = ".".
Proof. reflexivity. Qed.
Example dirname_trailing : dirname "/w/app/" = "/w".
Proof. reflexivity. Qed.
Example normalize_dots : normalize "/w/./app/../app2//x/" = "/w/app2/x/".
Proof. reflexivity. Qed.
Example resolve_relative : resolve "/home" "/w/app" "./child" = "/w/app/child".
Proof. reflexivity. Qed.
Example resolve_up : resolve "/home" "/w/app" "../lib" = "/w/lib".
Proof. reflexivity. Qed.
Example join_absolute_source : join2 "/w/app" "/modules/m" = "/w/app/modules/m".
Proof. reflexivity. Qed.

End PathTests.

(* ================================================================== *)
(** * How the resolver's computations end *)
(* ================================================================== *)

Module Laws.
Import Js Regex Json TerraformParser Effects Resolver Notions.
Local Open Scope resolver_scope.

Lemma behaved_weaken {A} (m : M A) b : behaved false m -> behaved b m.
Proof.
  intros H s. destruct (H s) as (Hv & Hf & Ht).
  repeat split; auto.
Qed.

Ltac trivial_outcome :=
  intros s; repeat split; cbn; intros; try discriminate; auto.

Lemma behaved_ret {A} (a : A) b : behaved b (ret a).
Proof. trivial_outcome. Qed.

Lemma behaved_throw {A} : behaved true (@throw A).
Proof. trivial_outcome. Qed.

Lemma behaved_lift_option {A} (x : option A) : behaved true (lift_option x).
Proof. destruct x; [apply behaved_ret | apply behaved_throw]. Qed.

Lemma behaved_bind {A B} (m : M A) (k : A -> M B) b :
  behaved b m -> (forall a, behaved b (k a)) -> behaved b (bind m k).
Proof.
  intros Hm Hk s. unfold bind.
  destruct (Hm s) as (Hv & Hf & Ht).
  destruct (m s) as [[a| |] s']; cbn in *.
  - destruct (Hk a s') as (Hv' & Hf' & Ht'). rewrite Hv', Hv. auto.
  - repeat split; try (now auto); try discriminate.
    intros Hb. exfalso. apply (Ht Hb). reflexivity.
  - congruence.
Qed.

Lemma behaved_try_catch {A} (m h : M A) b :
  behaved true m -> behaved b h -> behaved b (try_catch m h).
Proof.
  intros Hm Hh s. unfold try_catch.
  destruct (Hm s) as (Hv & Hf & _).
  destruct (m s) as [[a| |] s']; cbn in *.
  - repeat split; try (now auto); intros; try discriminate.
  - destruct (Hh s') as (Hv' & Hf' & Ht'). rewrite Hv', Hv. auto.
  - congruence.
Qed.

Lemma mem_remove_last key V :
  mem key V = false -> remove_str key (V ++ [key]) = V.
Proof.
  induction V as [|y V IH]; cbn.
  - rewrite String.eqb_refl. reflexivity.
  - rewrite orb_false_iff. intros [Hy HV]. rewrite Hy, IH; auto.
Qed.

Lemma behaved_total {A} (m : M A) :
  behaved false m -> forall s, exists a, fst (m s) = Ret a.
Proof.
  intros H s. destruct (H s) as (_ & Hf & Ht).
  destruct (fst (m s)) as [a| |].
  - eauto.
  - exfalso. apply Ht; reflexivity.
  - exfalso. apply Hf; reflexivity.
Qed.

Section WithEnvironment.
Variable fs : FileSystem.
Variable workspaceRoot : string.
Variable cwd : string.
Variable clock : nat -> Z.

Lemma behaved_cache_get key b : behaved b (cache_get clock key).
Proof.
  intros s. unfold cache_get.
  destruct (TerraformCache.map_get key (cache s)); cbn.
  - destruct (TerraformCache.get _ _ _); cbn.
    repeat split; intros; try discriminate; auto.
  - repeat split; intros; try discriminate; auto.
Qed.

Lemma behaved_cache_set key v b : behaved b (cache_set clock key v).
Proof.
  intros s. unfold cache_set.
  destruct (_ <=? _)%nat; cbn; repeat split; intros; try discriminate; auto.
Qed.

Lemma behaved_paths_get key b : behaved b (paths_get key).
Proof. trivial_outcome. Qed.

Lemma behaved_paths_set key v b : behaved b (paths_set key v).
Proof. trivial_outcome. Qed.

Lemma behaved_directoryExists d b : behaved b (directoryExists fs d).
Proof. apply behaved_ret. Qed.

(** The bracket around the body of the two resolvers: the visited test,
    [visited.add], the body, and [visited.delete] in the finally clause. *)
Lemma behaved_visit {A} key (body : M (option A)) b :
  behaved b body ->
  behaved b (seen <- visited_has key ;;
             if seen then ret None
             else visited_add key ;;; finally body (visited_delete key)).
Proof.
  intros Hb s. unfold bind, visited_has, visited_add, finally. cbn.
  destruct (mem key (visited s)) eqn:Hm; cbn.
  - repeat split; try (now auto); intros; try discriminate.
  - rewrite Hm.
    match goal with |- context [body ?s0] => destruct (Hb s0) as (Hv & Hf & Ht);
      destruct (body s0) as [o s'] end.
    cbn in *. rewrite Hv. rewrite mem_remove_last by assumption. auto.
Qed.

End WithEnvironment.

Create HintDb behaved.
#[export] Hint Resolve behaved_cache_get behaved_cache_set behaved_paths_get
  behaved_paths_set behaved_directoryExists : behaved.

(** One step through the body of a resolver function. *)
Ltac behave_step :=
  match goal with
  | |- behaved _ (ret _) => apply behaved_ret
  | |- behaved true throw => apply behaved_throw
  | |- behaved true (lift_option _) => apply behaved_lift_option
  | |- behaved _ (bind _ _) => apply behaved_bind; [ | intro ]
  | |- behaved _ (try_catch _ _) => apply behaved_try_catch
  | |- behaved _ (match ?x with _ => _ end) => destruct x
  | |- behaved _ _ => solve [auto with behaved]
  | |- behaved true _ => apply behaved_weaken; solve [auto with behaved]
  end.
Ltac behave := cbv beta zeta; repeat behave_step.


Section Finders.
Variable fs : FileSystem.
Variable workspaceRoot : string.
Variable cwd : string.
Variable clock : nat -> Z.

Lemma behaved_for_files {A} dir files (parse_file : string -> string -> option A)
  (found : A -> M A) b :
  (forall v, behaved false (found v)) ->
  behaved b (for_files fs dir files parse_file found).
Proof.
  intros Hfound. apply behaved_weaken.
  induction files as [|file r IH]; cbn [for_files]; behave.
Qed.

Lemma behaved_findInTfvarsFiles name dir b :
  behaved b (findInTfvarsFiles fs clock name dir).
Proof.
  unfold findInTfvarsFiles. behave.
  apply behaved_for_files. intros v. behave.
Qed.

Lemma behaved_findInLocals name dir b :
  behaved b (findInLocals fs clock name dir).
Proof.
  unfold findInLocals. behave.
  apply behaved_for_files. intros v. behave.
Qed.

Lemma behaved_findInOutputs name dir b :
  behaved b (findInOutputs fs clock name dir).
Proof.
  unfold findInOutputs. behave.
  apply behaved_for_files. intros v. behave.
Qed.

Lemma behaved_findModuleCall name dir b :
  behaved b (findModuleCall fs clock name dir).
Proof.
  unfold findModuleCall. behave.
  apply behaved_for_files. intros v. behave.
Qed.

Lemma behaved_resolveModulePath source dir b :
  behaved b (resolveModulePath fs workspaceRoot cwd source dir).
Proof.
  unfold resolveModulePath. behave.
Qed.

End Finders.

#[export] Hint Resolve behaved_findInTfvarsFiles behaved_findInLocals
  behaved_findInOutputs behaved_findModuleCall behaved_resolveModulePath
  : behaved.

#[export] Hint Extern 2 (_ < _) => cbv [maxRecursionDepth] in *; lia : behaved.
#[export] Hint Extern 2 (_ <= _) => cbv [maxRecursionDepth] in *; lia : behaved.

Ltac behave_rec_step :=
  match goal with
  | |- behaved _ (bind (visited_has _) _) => apply behaved_visit
  | |- behaved true ?m =>
      first [ apply behaved_throw | apply behaved_lift_option
            | apply behaved_weaken; solve [eauto 3 with behaved] ]
  | |- behaved _ _ => solve [eauto 3 with behaved]
  | |- behaved _ (ret _) => apply behaved_ret
  | |- behaved _ (bind _ _) => apply behaved_bind; [ | intro ]
  | |- behaved _ (try_catch _ _) => apply behaved_try_catch
  | |- behaved _ (match ?x with _ => _ end) => destruct x
  end.
Ltac behave_rec := cbv beta zeta; repeat behave_rec_step.

Abbreviation rvv_ok rvv K :=
  (forall n d k, K <= k -> behaved false (rvv n d k : M (option string))).
Abbreviation rve_ok rve K :=
  (forall n d k mc, K <= k -> behaved false (rve n d k mc : M (option string))).

Section Recursion.
Variable fs : FileSystem.
Variable workspaceRoot : string.
Variable cwd : string.
Variable clock : nat -> Z.

Lemma behaved_substitute_refs rvv K refs dir depth v b :
  rvv_ok rvv K -> K <= depth ->
  behaved b (substitute_refs rvv refs dir depth v).
Proof.
  intros Hr Hk. apply behaved_weaken. revert v.
  induction refs as [|x r IH]; intros v; cbn [substitute_refs]; behave_rec.
Qed.

Lemma behaved_resolveReferencesInValue rvv K value dir depth b :
  rvv_ok rvv K -> K <= depth ->
  behaved b (resolveReferencesInValue rvv value dir depth).
Proof.
  intros Hr Hk. unfold resolveReferencesInValue. behave_rec.
  all: eapply behaved_substitute_refs; eauto.
Qed.

Lemma behaved_resolveModuleOutput rvv K ref dir depth b :
  rvv_ok rvv K -> K <= depth + 1 ->
  behaved b (resolveModuleOutput fs workspaceRoot cwd clock rvv ref dir depth).
Proof.
  intros Hr Hk. unfold resolveModuleOutput. behave_rec.
  all: eapply behaved_resolveReferencesInValue; eauto.
Qed.

(** Every call of resolveVariableValue returns: with fuel for the depths
    that remain it neither throws nor runs out of fuel, and the visited set
    is as before the call. *)
Lemma behaved_resolveVariableValue fuel :
  forall n d depth,
    maxRecursionDepth + 1 - depth < fuel ->
    behaved false (resolveVariableValue fs workspaceRoot cwd clock fuel n d depth).
Proof.
  induction fuel as [|fuel IH]; intros n d depth Hfuel; [lia|].
  cbn [resolveVariableValue].
  destruct (maxRecursionDepth <? depth)%nat eqn:Hd; [apply behaved_ret|].
  apply Nat.ltb_ge in Hd.
  assert (Hrec : rvv_ok (resolveVariableValue fs workspaceRoot cwd clock fuel)
                   (depth + 1)).
  { intros n' d' k Hk. apply IH. cbv [maxRecursionDepth] in *. lia. }
  behave_rec.
  all: try (eapply behaved_resolveModuleOutput; [exact Hrec | lia]).
  all: try (apply behaved_weaken; apply Hrec; lia).
Qed.

End Recursion.

Section EnhancedRecursion.
Variable fs : FileSystem.
Variable workspaceRoot : string.
Variable cwd : string.
Variable clock : nat -> Z.

Lemma behaved_calls_in_matches ms searchDir targetDir acc b :
  behaved b (calls_in_matches fs workspaceRoot cwd ms searchDir targetDir acc).
Proof.
  apply behaved_weaken. revert acc.
  induction ms as [|m r IH]; intros acc; cbn [calls_in_matches]; behave_rec.
Qed.

Lemma behaved_calls_in_files files searchDir targetDir acc b :
  behaved b (calls_in_files fs workspaceRoot cwd files searchDir targetDir acc).
Proof.
  apply behaved_weaken. revert acc.
  induction files as [|f r IH]; intros acc; cbn [calls_in_files]; behave_rec.
  apply behaved_calls_in_matches.
Qed.

Lemma behaved_findModuleCallsToDirectory searchDir targetDir b :
  behaved b (findModuleCallsToDirectory fs workspaceRoot cwd searchDir targetDir).
Proof.
  unfold findModuleCallsToDirectory. behave_rec.
  apply behaved_calls_in_files.
Qed.

Section Helpers.
Variable rve : string -> string -> nat -> list string -> M (option string).
Variable rvv : resolver.
Variable K : nat.
Hypothesis Hrve : rve_ok rve K.
Hypothesis Hrvv : rvv_ok rvv K.

Lemma behaved_resolveVariableReference reference dir depth b :
  K <= depth ->
  behaved b (resolveVariableReference fs workspaceRoot cwd clock rve rvv
               reference dir depth).
Proof.
  intros Hk. unfold resolveVariableReference. behave_rec.
  eapply behaved_resolveModuleOutput; [exact Hrvv | lia].
Qed.

Lemma behaved_first_passed_input calls name dir depth b :
  K <= depth ->
  behaved b (first_passed_input fs workspaceRoot cwd clock rve rvv
               calls name dir depth).
Proof.
  intros Hk. apply behaved_weaken.
  induction calls as [|c r IH]; cbn [first_passed_input]; behave_rec.
  apply behaved_resolveVariableReference; assumption.
Qed.

Lemma behaved_resolveAsModuleInput name dir depth b :
  K <= depth ->
  behaved b (resolveAsModuleInput fs workspaceRoot cwd clock rve rvv
               name dir depth).
Proof.
  intros Hk. unfold resolveAsModuleInput. behave_rec.
  - apply behaved_findModuleCallsToDirectory.
  - apply behaved_first_passed_input; assumption.
Qed.

Lemma behaved_findVariableInParentModule name dir parent depth b :
  K <= depth ->
  behaved b (findVariableInParentModule fs workspaceRoot cwd clock rve rvv
               name dir parent depth).
Proof.
  intros Hk. unfold findVariableInParentModule. behave_rec.
  - apply behaved_findModuleCallsToDirectory.
  - apply behaved_first_passed_input; assumption.
Qed.

Lemma behaved_substitute_nested refs dir depth v b :
  K <= depth ->
  behaved b (substitute_nested fs workspaceRoot cwd clock rve rvv
               refs dir depth v).
Proof.
  intros Hk. apply behaved_weaken. revert v.
  induction refs as [|x r IH]; intros v; cbn [substitute_nested]; behave_rec.
  apply behaved_resolveVariableReference; assumption.
Qed.

Lemma behaved_resolveNestedReferences value dir depth b :
  K <= depth ->
  behaved b (resolveNestedReferences fs workspaceRoot cwd clock rve rvv
               value dir depth).
Proof.
  intros Hk. unfold resolveNestedReferences. behave_rec.
  all: apply behaved_substitute_nested; assumption.
Qed.

End Helpers.

(** The same for resolveVariableValueEnhanced. *)
Lemma behaved_resolveVariableValueEnhanced fuel :
  forall n d depth mc,
    maxRecursionDepth + 1 - depth < fuel ->
    behaved false
      (resolveVariableValueEnhanced fs workspaceRoot cwd clock fuel n d depth mc).
Proof.
  induction fuel as [|fuel IH]; intros n d depth mc Hfuel; [lia|].
  cbn [resolveVariableValueEnhanced].
  destruct (maxRecursionDepth <? depth)%nat eqn:Hd; [apply behaved_ret|].
  apply Nat.ltb_ge in Hd.
  assert (Hrve : rve_ok (resolveVariableValueEnhanced fs workspaceRoot cwd clock fuel)
                   (depth + 1)).
  { intros n' d' k mc' Hk. apply IH. cbv [maxRecursionDepth] in *. lia. }
  assert (Hrvv : rvv_ok (resolveVariableValue fs workspaceRoot cwd clock fuel)
                   (depth + 1)).
  { intros n' d' k Hk. apply behaved_resolveVariableValue.
    cbv [maxRecursionDepth] in *. lia. }
  behave_rec.
  all: try (eapply behaved_resolveNestedReferences; eauto; lia).
  all: try (eapply behaved_resolveAsModuleInput; eauto; lia).
  all: try (eapply behaved_findVariableInParentModule; eauto; lia).
  all: try (eapply behaved_resolveModuleOutput; [exact Hrvv | lia]).
  all: try (apply behaved_weaken; apply Hrve; lia).
Qed.

End EnhancedRecursion.

Section MultipleContexts.
Variable fs : FileSystem.
Variable workspaceRoot : string.
Variable cwd : string.
Variable clock : nat -> Z.

Lemma behaved_resolveVariableInMultipleContexts name dirs :
  behaved false
    (resolveVariableInMultipleContexts fs workspaceRoot cwd clock name dirs).
Proof.
  induction dirs as [|dir r IH]; cbn [resolveVariableInMultipleContexts].
  - apply behaved_ret.
  - apply behaved_bind.
    + apply behaved_try_catch; [|apply behaved_ret].
      intros s.
      pose proof (@behaved_resolveVariableValue fs workspaceRoot cwd clock
                    (maxRecursionDepth + 2) name dir 0) as H.
      specialize (H ltac:(cbv [maxRecursionDepth]; lia)
                    (mkState (cache s) (resolvedModulePaths s) [] (ticks s))).
      destruct H as (_ & Hf & Ht).
      destruct (resolveVariableValue _ _ _ _ _ _ _ _ _) as [o s'].
      cbn in *. repeat split; auto.
    + intros result. apply behaved_bind; [exact IH|].
      intros rest. destruct result as [value|]; [|apply behaved_ret].
      destruct (_ && _)%bool; apply behaved_ret.
Qed.

End MultipleContexts.

End Laws.

(* ================================================================== *)
(** * Properties of the resolution engine *)
(* ================================================================== *)

Module Properties.
Import Js Regex Json TerraformParser Effects Resolver Notions Laws.
Local Open Scope resolver_scope.

Lemma startsWith_nil s : startsWith s EmptyString = true.
Proof. destruct s; reflexivity. Qed.

Lemma bind_step {A B} (m : M A) (k : A -> M B) s a s' :
  m s = (Ret a, s') -> bind m k s = k a s'.
Proof. intros H. unfold bind. rewrite H. reflexivity. Qed.

(** Run the first computation of a bind whose result is known. *)
Ltac run H := rewrite (@bind_step _ _ _ _ _ _ _ H).

Section Steps.
Variable fs : FileSystem.
Variable clock : nat -> Z.

Lemma cache_get_miss key s :
  TerraformCache.map_get key (cache s) = None ->
  cache_get clock key s = (Ret None, s).
Proof. intros H. unfold cache_get. rewrite H. reflexivity. Qed.

Lemma visited_enter {A} key (body : M (option A)) s :
  mem key (visited s) = false ->
  (seen <- visited_has key ;;
   if seen then ret None
   else visited_add key ;;; finally body (visited_delete key)) s
  = (fst (body (entered key s)), visited_delete key (snd (body (entered key s)))).
Proof.
  intros H. unfold bind, visited_has, visited_add, finally. cbn.
  rewrite H. cbn. rewrite H. unfold entered.
  destruct (body _) as [o s']. reflexivity.
Qed.

Lemma visited_seen {A} key (body : M (option A)) s :
  mem key (visited s) = true ->
  (seen <- visited_has key ;;
   if seen then ret None
   else visited_add key ;;; finally body (visited_delete key)) s
  = (Ret None, s).
Proof.
  intros H. unfold bind, visited_has. cbn. rewrite H. reflexivity.
Qed.

Lemma visited_leave key s :
  mem key (visited s) = false -> visited_delete key (entered key s) = s.
Proof.
  intros H. unfold visited_delete, entered. cbn.
  rewrite mem_remove_last by exact H. destruct s; reflexivity.
Qed.

(** The loop over the files returns the first readable hit ... *)
Lemma for_files_result {A} dir files (parse_file : string -> string -> option A)
  (found : A -> M A) (g : A -> A) :
  (forall v s, fst (found v s) = Ret (g v)) ->
  forall s,
    fst (for_files fs dir files parse_file found s)
    = Ret (option_map g (first_readable_hit fs dir files parse_file)).
Proof.
  intros Hfound. induction files as [|file r IH]; intros s; [reflexivity|].
  cbn [for_files first_readable_hit].
  unfold bind at 1. unfold try_catch, bind, lift_option.
  destruct (fs_readFile fs (Path.join2 dir file)) as [content|]; cbn.
  - destruct (parse_file file content) as [v|]; cbn.
    + specialize (Hfound v s). destruct (found v s) as [o s'].
      cbn in Hfound. subst o. reflexivity.
    + apply IH.
  - apply IH.
Qed.

(** ... and changes nothing when there is none. *)
Lemma for_files_miss {A} dir files (parse_file : string -> string -> option A)
  (found : A -> M A) s :
  first_readable_hit fs dir files parse_file = None ->
  for_files fs dir files parse_file found s = (Ret None, s).
Proof.
  induction files as [|file r IH]; [reflexivity|].
  cbn [for_files first_readable_hit].
  unfold bind at 1. unfold try_catch, bind, lift_option.
  destruct (fs_readFile fs (Path.join2 dir file)) as [content|]; cbn.
  - destruct (parse_file file content) as [v|]; cbn; [discriminate | exact IH].
  - exact IH.
Qed.

Lemma stored_value key (v : string) s :
  fst ((cache_set clock key v ;;; ret v) s) = Ret v.
Proof. unfold bind, cache_set, ret. destruct (_ <=? _)%nat; reflexivity. Qed.

(** The common course of the three finders once their key is found cold
    and the directory is listed. *)
Ltac finder_cold Hmiss Hdir Hls :=
  unfold try_catch;
  run (cache_get_miss _ _ Hmiss);
  unfold directoryExists; rewrite Hdir;
  unfold bind at 1; cbn [ret]; rewrite Hls; unfold bind at 1;
  cbn [lift_option ret negb]; cbv beta.

Lemma findInTfvarsFiles_cold x D files s :
  TerraformCache.map_get (tfvars_key x D) (cache s) = None ->
  fs_isDirectory fs D = true ->
  fs_readdir fs D = Some files ->
  fst (findInTfvarsFiles fs clock x D s)
  = Ret (option_map preserveComplexStructure (override_value fs x D files)).
Proof.
  intros Hmiss Hdir Hls. unfold findInTfvarsFiles. finder_cold Hmiss Hdir Hls.
  match goal with
  | |- context [for_files ?a ?b ?c ?d ?e ?st] =>
      pose proof (@for_files_result _ b c d e preserveComplexStructure
                    (fun v s0 => stored_value _ _ s0) st) as Hr;
      destruct (for_files a b c d e st) as [o s']
  end.
  cbn in Hr. subst o. unfold override_value, is_tfvars.
  destruct (first_readable_hit _ _ _ _); reflexivity.
Qed.

Lemma findInTfvarsFiles_miss x D files s :
  TerraformCache.map_get (tfvars_key x D) (cache s) = None ->
  fs_isDirectory fs D = true ->
  fs_readdir fs D = Some files ->
  override_value fs x D files = None ->
  findInTfvarsFiles fs clock x D s = (Ret None, s).
Proof.
  intros Hmiss Hdir Hls Hnone. unfold findInTfvarsFiles.
  finder_cold Hmiss Hdir Hls.
  rewrite for_files_miss by exact Hnone. reflexivity.
Qed.

Lemma findInLocals_cold x D files s :
  TerraformCache.map_get (locals_key x D) (cache s) = None ->
  fs_isDirectory fs D = true ->
  fs_readdir fs D = Some files ->
  fst (findInLocals fs clock x D s) = Ret (locals_value fs x D files).
Proof.
  intros Hmiss Hdir Hls. unfold findInLocals. finder_cold Hmiss Hdir Hls.
  match goal with
  | |- context [for_files ?a ?b ?c ?d ?e ?st] =>
      pose proof (@for_files_result _ b c d e (fun v => v)
                    (fun v s0 => stored_value _ _ s0) st) as Hr;
      destruct (for_files a b c d e st) as [o s']
  end.
  cbn in Hr. subst o. unfold locals_value, is_tf.
  destruct (first_readable_hit _ _ _ _); reflexivity.
Qed.

Lemma findInLocals_miss x D files s :
  TerraformCache.map_get (locals_key x D) (cache s) = None ->
  fs_isDirectory fs D = true ->
  fs_readdir fs D = Some files ->
  locals_value fs x D files = None ->
  findInLocals fs clock x D s = (Ret None, s).
Proof.
  intros Hmiss Hdir Hls Hnone. unfold findInLocals.
  finder_cold Hmiss Hdir Hls.
  rewrite for_files_miss by exact Hnone. reflexivity.
Qed.

Lemma findInOutputs_cold x D files s :
  TerraformCache.map_get (outputs_key x D) (cache s) = None ->
  fs_isDirectory fs D = true ->
  fs_readdir fs D = Some files ->
  fst (findInOutputs fs clock x D s) = Ret (outputs_value fs x D files).
Proof.
  intros Hmiss Hdir Hls. unfold findInOutputs. finder_cold Hmiss Hdir Hls.
  match goal with
  | |- context [for_files ?a ?b ?c ?d ?e ?st] =>
      pose proof (@for_files_result _ b c d e (fun v => v)
                    (fun v s0 => stored_value _ _ s0) st) as Hr;
      destruct (for_files a b c d e st) as [o s']
  end.
  cbn in Hr. subst o. unfold outputs_value, is_tf.
  destruct (first_readable_hit _ _ _ _); reflexivity.
Qed.

Lemma findInOutputs_miss x D files s :
  TerraformCache.map_get (outputs_key x D) (cache s) = None ->
  fs_isDirectory fs D = true ->
  fs_readdir fs D = Some files ->
  outputs_value fs x D files = None ->
  findInOutputs fs clock x D s = (Ret None, s).
Proof.
  intros Hmiss Hdir Hls Hnone. unfold findInOutputs.
  finder_cold Hmiss Hdir Hls.
  rewrite for_files_miss by exact Hnone. reflexivity.
Qed.

(** A directory that cannot be listed answers not-found in each finder. *)
Ltac finder_unlisted Hmiss Hdir Hls :=
  unfold try_catch;
  run (cache_get_miss _ _ Hmiss);
  unfold directoryExists; rewrite Hdir;
  unfold bind at 1; cbn [ret]; rewrite Hls; reflexivity.

Lemma finders_unlisted x D s :
  cold_lookups x D s ->
  fs_isDirectory fs D = true ->
  fs_readdir fs D = None ->
  findInTfvarsFiles fs clock x D s = (Ret None, s)
  /\ findInLocals fs clock x D s = (Ret None, s)
  /\ findInOutputs fs clock x D s = (Ret None, s).
Proof.
  intros (Ht & Hl & Ho) Hdir Hls. refine (conj _ (conj _ _)).
  - unfold findInTfvarsFiles. finder_unlisted Ht Hdir Hls.
  - unfold findInLocals. finder_unlisted Hl Hdir Hls.
  - unfold findInOutputs. finder_unlisted Ho Hdir Hls.
Qed.

End Steps.


Section Directory.
Variable fs : FileSystem.
Variable workspaceRoot : string.
Variable cwd : string.
Variable clock : nat -> Z.

Local Abbreviation rVV := (resolveVariableValue fs workspaceRoot cwd clock).
Local Abbreviation rVVE :=
  (resolveVariableValueEnhanced fs workspaceRoot cwd clock).

Lemma not_too_deep depth :
  depth <= maxRecursionDepth -> (maxRecursionDepth <? depth)%nat = false.
Proof. intros H. apply Nat.ltb_ge. exact H. Qed.

Lemma stored_result key (v : string) s :
  fst ((cache_set clock key v ;;; ret (Some v)) s) = Ret (Some v).
Proof. unfold bind, cache_set, ret. destruct (_ <=? _)%nat; reflexivity. Qed.

Lemma cold_entered x D key s : cold_lookups x D s -> cold_lookups x D (entered key s).
Proof. exact (fun H => H). Qed.

(** C1 (resolution order in a directory).  Let resolveVariableValue be
    called for a name in a directory that exists and can be listed, at a
    depth within the bound, with nothing cached for the name in that
    directory and the call not on the visited set.  Then the sources of
    the directory are consulted in the order override files, locals,
    outputs, and the first that has a value decides: if a readable
    .tfvars or .tfvars.json file of the listing assigns the name, the
    value of the first such file is returned (in the form
    preserveComplexStructure gives it), whatever the locals and outputs
    of the directory hold; if no override file does and a locals block
    defines it, that value is returned; if neither does and an output
    block defines it, that one. *)
Theorem override_files_then_locals_then_outputs
  (fuel : nat) (x D : string) (depth : nat) (s : State) (files : list string)
  (Hdepth : depth <= maxRecursionDepth)
  (Hmiss : TerraformCache.map_get (resolve_key x D depth) (cache s) = None)
  (Hcold : cold_lookups x D s)
  (Hfresh : mem (visit_key x D depth) (visited s) = false)
  (Hdir : fs_isDirectory fs D = true)
  (Hls : fs_readdir fs D = Some files) :
  (forall v,
      override_value fs x D files = Some v ->
      fst (rVV (S fuel) x D depth s) = Ret (Some (preserveComplexStructure v)))
  /\ (forall v,
      override_value fs x D files = None ->
      locals_value fs x D files = Some v ->
      fst (rVV (S fuel) x D depth s) = Ret (Some v))
  /\ (forall v,
      override_value fs x D files = None ->
      locals_value fs x D files = None ->
      outputs_value fs x D files = Some v ->
      fst (rVV (S fuel) x D depth s) = Ret (Some v)).
Proof.
  destruct Hcold as (Ht & Hl & Ho).
  set (s0 := entered (visit_key x D depth) s).
  refine (conj _ (conj _ _)).
  - intros v Hv.
    cbn [resolveVariableValue]. rewrite (not_too_deep Hdepth).
    run (cache_get_miss clock _ _ Hmiss).
    rewrite visited_enter by exact Hfresh. fold s0. cbn [fst].
    unfold try_catch.
    pose proof (findInTfvarsFiles_cold fs clock x D s0 Ht Hdir Hls) as H1.
    rewrite Hv in H1. cbn [option_map] in H1.
    destruct (findInTfvarsFiles fs clock x D s0) as [o t1] eqn:E.
    cbn in H1. subst o. run E.
    pose proof (stored_result (resolve_key x D depth) (preserveComplexStructure v) t1)
      as H2.
    destruct ((cache_set clock _ _ ;;; ret _) t1) as [o t2].
    cbn in H2. subst o. reflexivity.
  - intros v H1 H2.
    cbn [resolveVariableValue]. rewrite (not_too_deep Hdepth).
    run (cache_get_miss clock _ _ Hmiss).
    rewrite visited_enter by exact Hfresh. fold s0. cbn [fst].
    unfold try_catch.
    run (findInTfvarsFiles_miss fs clock x D s0 Ht Hdir Hls H1).
    pose proof (findInLocals_cold fs clock x D s0 Hl Hdir Hls) as H3.
    rewrite H2 in H3.
    destruct (findInLocals fs clock x D s0) as [o t1] eqn:E.
    cbn in H3. subst o. run E.
    pose proof (stored_result (resolve_key x D depth) v t1) as H4.
    destruct ((cache_set clock _ _ ;;; ret _) t1) as [o t2].
    cbn in H4. subst o. reflexivity.
  - intros v H1 H2 H3.
    cbn [resolveVariableValue]. rewrite (not_too_deep Hdepth).
    run (cache_get_miss clock _ _ Hmiss).
    rewrite visited_enter by exact Hfresh. fold s0. cbn [fst].
    unfold try_catch.
    run (findInTfvarsFiles_miss fs clock x D s0 Ht Hdir Hls H1).
    run (findInLocals_miss fs clock x D s0 Hl Hdir Hls H2).
    pose proof (findInOutputs_cold fs clock x D s0 Ho Hdir Hls) as H4.
    rewrite H3 in H4.
    destruct (findInOutputs fs clock x D s0) as [o t1] eqn:E.
    cbn in H4. subst o. run E.
    pose proof (stored_result (resolve_key x D depth) v t1) as H5.
    destruct ((cache_set clock _ _ ;;; ret _) t1) as [o t2].
    cbn in H5. subst o. reflexivity.
Qed.

(** C7 (parent fallback).  Let resolveVariableValue be called for a name
    [x], not a module reference, in a directory [D] that exists and can be
    listed but declares [x] nowhere - no override file, no locals block,
    no output block of its listing gives it a value - at a depth within
    the bound, nothing being cached for [x] in [D] and the call not on the
    visited set.  If the parent of [D] differs from [D] and passes
    isWithinWorkspace, the call returns the value that resolving [x] in
    the parent returns.  If the parent does not pass isWithinWorkspace,
    the call returns null and leaves the state as it was: the parent is
    consulted only behind the containment check. *)
Theorem parent_fallback_within_workspace
  (fuel : nat) (x D : string) (depth : nat) (s : State) (files : list string)
  (Hdepth : depth <= maxRecursionDepth)
  (Hmiss : TerraformCache.map_get (resolve_key x D depth) (cache s) = None)
  (Hcold : cold_lookups x D s)
  (Hfresh : mem (visit_key x D depth) (visited s) = false)
  (Hplain : startsWith x "module." = false)
  (Hdir : fs_isDirectory fs D = true)
  (Hls : fs_readdir fs D = Some files)
  (Hno_override : override_value fs x D files = None)
  (Hno_local : locals_value fs x D files = None)
  (Hno_output : outputs_value fs x D files = None) :
  (forall v,
      Path.dirname D <> D ->
      isWithinWorkspace workspaceRoot (Path.dirname D) = true ->
      fst (rVV fuel x (Path.dirname D) (depth + 1)
             (entered (visit_key x D depth) s)) = Ret (Some v) ->
      fst (rVV (S fuel) x D depth s) = Ret (Some v))
  /\ (isWithinWorkspace workspaceRoot (Path.dirname D) = false ->
      rVV (S fuel) x D depth s = (Ret None, s)).
Proof.
  destruct Hcold as (Ht & Hl & Ho).
  set (s0 := entered (visit_key x D depth) s).
  assert (Hnone : forall st : State, @ret (option string) None st = (Ret None, st))
    by reflexivity.
  split.
  - intros v Hne Hin Hparent.
    cbn [resolveVariableValue]. rewrite (not_too_deep Hdepth).
    run (cache_get_miss clock _ _ Hmiss).
    rewrite visited_enter by exact Hfresh. fold s0. cbn [fst].
    unfold try_catch.
    run (findInTfvarsFiles_miss fs clock x D s0 Ht Hdir Hls Hno_override).
    run (findInLocals_miss fs clock x D s0 Hl Hdir Hls Hno_local).
    run (findInOutputs_miss fs clock x D s0 Ho Hdir Hls Hno_output).
    rewrite Hplain. run (Hnone s0).
    apply String.eqb_neq in Hne. rewrite Hne, Hin. cbn [negb andb].
    destruct (rVV fuel x (Path.dirname D) (depth + 1) s0) as [o t1] eqn:E.
    cbn in Hparent. subst o. run E.
    pose proof (stored_result (resolve_key x D depth) v t1) as H.
    destruct ((cache_set clock _ _ ;;; ret _) t1) as [o t2].
    cbn in H. subst o. reflexivity.
  - intros Hout.
    cbn [resolveVariableValue]. rewrite (not_too_deep Hdepth).
    run (cache_get_miss clock _ _ Hmiss).
    rewrite visited_enter by exact Hfresh. fold s0.
    unfold try_catch.
    run (findInTfvarsFiles_miss fs clock x D s0 Ht Hdir Hls Hno_override).
    run (findInLocals_miss fs clock x D s0 Hl Hdir Hls Hno_local).
    run (findInOutputs_miss fs clock x D s0 Ho Hdir Hls Hno_output).
    rewrite Hplain. run (Hnone s0).
    rewrite Hout, andb_false_r. cbn [fst snd ret].
    unfold s0. rewrite visited_leave by exact Hfresh. reflexivity.
Qed.

End Directory.

(** ** The three properties on file sets *)

Example locals_alone_would_answer :
  fst (findInLocals Fixtures.precedence_files Fixtures.clock "x" "/w" Fixtures.fresh)
  = Ret (Some "from-locals").
Proof. vm_compute. reflexivity. Qed.

Lemma override_wins_witness :
  fst (resolveVariableValue Fixtures.precedence_files "/w" "/" Fixtures.clock
         12 "x" "/w" 0 Fixtures.fresh)
  = Ret (Some "from-override").
Proof.
  refine (proj1 (@override_files_then_locals_then_outputs
                   Fixtures.precedence_files "/w" "/" Fixtures.clock 11
                   "x" "/w" 0 Fixtures.fresh ["main.tf"; "prod.tfvars"]
                   _ _ _ _ _ _) "from-override" _).
  - cbv [maxRecursionDepth]. lia.
  - reflexivity.
  - repeat split.
  - reflexivity.
  - reflexivity.
  - reflexivity.
  - vm_compute. reflexivity.
Defined.

Lemma parent_fallback_witness :
  fst (resolveVariableValue Fixtures.parent_files "/w" "/" Fixtures.clock 12
         "x" "/w/sub" 0 Fixtures.fresh)
  = Ret (Some "up").
Proof.
  refine (proj1 (@parent_fallback_within_workspace
                   Fixtures.parent_files "/w" "/" Fixtures.clock 11
                   "x" "/w/sub" 0 Fixtures.fresh ["main.tf"]
                   _ _ _ _ _ _ _ _ _ _) "up" _ _ _).
  - cbv [maxRecursionDepth]. lia.
  - reflexivity.
  - repeat split.
  - reflexivity.
  - reflexivity.
  - reflexivity.
  - reflexivity.
  - vm_compute. reflexivity.
  - vm_compute. reflexivity.
  - vm_compute. reflexivity.
  - vm_compute. discriminate.
  - vm_compute. reflexivity.
  - vm_compute. reflexivity.
Defined.

Section Bounds.
Variable fs : FileSystem.
Variable workspaceRoot : string.
Variable cwd : string.
Variable clock : nat -> Z.

Local Abbreviation rVV := (resolveVariableValue fs workspaceRoot cwd clock).
Local Abbreviation rVVE :=
  (resolveVariableValueEnhanced fs workspaceRoot cwd clock).

(** No exception reaches the caller.  Each public resolution
    operation returns a value from every state, for every file set - so
    also when directories are missing and files or listings cannot be
    read: resolveVariableValue and resolveVariableValueEnhanced return a
    value or null, resolveVariableInMultipleContexts a list; none throws.
    The same holds of the four finders they are built on.  A file that
    cannot be read does not end a finder's search: the loop goes on with
    the files after it, exactly as if it were not listed.  A directory
    that cannot be listed makes each finder answer null, after which the
    resolver goes on to its next source. *)
Theorem no_exception_reaches_the_caller
  (name dir file locked : string) (depth : nat)
  (searchDirectories later : list string) (s : State)
  (Hunreadable : fs_readFile fs (Path.join2 dir file) = None)
  (Hlocked : fs_isDirectory fs locked = true /\ fs_readdir fs locked = None) :
  (exists r, fst (rVV (maxRecursionDepth + 2) name dir depth s) = Ret r)
  /\ (exists r, fst (rVVE (maxRecursionDepth + 2) name dir depth [] s) = Ret r)
  /\ (exists r, fst (resolveVariableInMultipleContexts fs workspaceRoot cwd clock
                       name searchDirectories s) = Ret r)
  /\ (exists r, fst (findInTfvarsFiles fs clock name dir s) = Ret r)
  /\ (exists r, fst (findInLocals fs clock name dir s) = Ret r)
  /\ (exists r, fst (findInOutputs fs clock name dir s) = Ret r)
  /\ (exists r, fst (findModuleCall fs clock name dir s) = Ret r)
  /\ (forall (A : Type) (parse_file : string -> string -> option A)
             (found : A -> M A),
         for_files fs dir (file :: later) parse_file found s
         = for_files fs dir later parse_file found s)
  /\ (cold_lookups name locked s ->
      findInTfvarsFiles fs clock name locked s = (Ret None, s)
      /\ findInLocals fs clock name locked s = (Ret None, s)
      /\ findInOutputs fs clock name locked s = (Ret None, s)).
Proof.
  refine (conj _ (conj _ (conj _ (conj _ (conj _ (conj _ (conj _ (conj _ _)))))))).
  - apply behaved_total, behaved_resolveVariableValue.
    cbv [maxRecursionDepth]. lia.
  - apply behaved_total, behaved_resolveVariableValueEnhanced.
    cbv [maxRecursionDepth]. lia.
  - apply behaved_total, behaved_resolveVariableInMultipleContexts.
  - apply behaved_total, behaved_findInTfvarsFiles.
  - apply behaved_total, behaved_findInLocals.
  - apply behaved_total, behaved_findInOutputs.
  - apply behaved_total, behaved_findModuleCall.
  - intros A parse_file found. cbn [for_files].
    unfold bind at 1. unfold try_catch, bind, lift_option.
    rewrite Hunreadable. reflexivity.
  - intros Hcold. destruct Hlocked as [Hdir Hls].
    apply finders_unlisted; assumption.
Qed.

End Bounds.

(** ** The bounds on file sets *)

(** A chain that fits in the bound is followed to its end. *)
Example short_chain_resolved :
  fst (resolveVariableValueEnhanced Fixtures.chain_files "/w" "/" Fixtures.clock
         12 "a2" "/w" 0 [] Fixtures.fresh)
  = Ret (Some "end").
Proof. vm_compute. reflexivity. Qed.

(** At a0 the chain is longer than the bound: the call for a11 is made at
    depth 11 and answers null, so [var.a11] stays in the text, and that
    text - not null - is what the resolution returns. *)
Lemma long_chain_returns_unresolved_text :
  fst (resolveVariableValueEnhanced Fixtures.chain_files "/w" "/" Fixtures.clock
         12 "a0" "/w" 0 [] Fixtures.fresh)
  = Ret (Some "var.a11")
  /\ fst (resolveVariableValueEnhanced Fixtures.chain_files "/w" "/"
            Fixtures.clock 12 "a0" "/w" 0 [] Fixtures.fresh)
     <> Ret None.
Proof. split; vm_compute; [reflexivity | discriminate]. Qed.

(** Resolving [local.a] (the name the callers pass is [a]) ends, and with
    a value: the text of the other reference. *)
Lemma mutual_locals_resolve_to_text :
  fst (resolveVariableValue Fixtures.cycle_files "/w" "/" Fixtures.clock 12
         "a" "/w" 0 Fixtures.fresh)
  = Ret (Some "local.b")
  /\ fst (resolveVariableValueEnhanced Fixtures.cycle_files "/w" "/"
            Fixtures.clock 12 "a" "/w" 0 [] Fixtures.fresh)
     = Ret (Some "local.a").
Proof. split; vm_compute; reflexivity. Qed.

Example value_found_past_unreadable_file :
  fst (resolveVariableValue Fixtures.unreadable_files "/w" "/" Fixtures.clock 12
         "x" "/w" 0 Fixtures.fresh)
  = Ret (Some "found").
Proof. vm_compute. reflexivity. Qed.

(** C6 (an unreadable file and the remaining search paths): in
    [threading_files_unreadable] the listing of [/w] holds a file that
    cannot be read, [a.tf], before [main.tf], which holds the module call
    for [/w/child].  findModuleCallsToDirectory reads the files of the
    listing inside one try block: the failed read ends the scan, no call
    is found, and the enhanced resolution of [size] from [/w/child]
    answers null, where it answers [large] when [a.tf] is not listed.  It
    returns normally in both cases.  The finders of the same class read
    each file in a try block of its own and go on after a failed read:
    findInTfvarsFiles finds the value of [x] in [/w/b.tfvars] behind the
    unreadable [/w/a.tfvars]. *)
Theorem unreadable_file_ends_the_module_call_scan :
  fs_readFile Fixtures.threading_files_unreadable "/w/a.tf" = None
  /\ fst (findModuleCallsToDirectory Fixtures.threading_files_unreadable "/w" "/"
            "/w" "/w/child" Fixtures.fresh) = Ret []
  /\ fst (resolveVariableValueEnhanced Fixtures.threading_files_unreadable
            "/w" "/" Fixtures.clock 12 "size" "/w/child" 0 [] Fixtures.fresh)
     = Ret None
  /\ fst (resolveVariableValueEnhanced Fixtures.threading_files
            "/w" "/" Fixtures.clock 12 "size" "/w/child" 0 [] Fixtures.fresh)
     = Ret (Some "large")
  /\ fs_readFile Fixtures.unreadable_files "/w/a.tfvars" = None
  /\ fst (findInTfvarsFiles Fixtures.unreadable_files Fixtures.clock "x" "/w"
            Fixtures.fresh) = Ret (Some "found").
Proof.
  refine (conj _ (conj _ (conj _ (conj _ (conj _ _))))); vm_compute; reflexivity.
Qed.

Lemma unreadable_file_witness :
  exists r,
    fst (resolveVariableValue Fixtures.unreadable_files "/w" "/" Fixtures.clock
           (maxRecursionDepth + 2) "x" "/w" 0 Fixtures.fresh) = Ret r.
Proof.
  apply (@no_exception_reaches_the_caller Fixtures.unreadable_files "/w" "/"
           Fixtures.clock "x" "/w" "a.tfvars" "/locked" 0 [] ["b.tfvars"]
           Fixtures.fresh).
  - reflexivity.
  - split; reflexivity.
Defined.

(** ** Strings and keys *)

Lemma append_assoc (a b c : string) : (a ++ b) ++ c = a ++ b ++ c.
Proof. induction a as [|x a IH]; cbn; [reflexivity | now rewrite IH]. Qed.

Lemma append_nil_r s : s ++ EmptyString = s.
Proof. induction s as [|c s IH]; cbn; congruence. Qed.

Lemma length_app a b : String.length (a ++ b) = String.length a + String.length b.
Proof. induction a; cbn; auto. Qed.










Section CacheReuse.
Variable fs : FileSystem.
Variable workspaceRoot : string.
Variable cwd : string.
Variable clock : nat -> Z.

Local Abbreviation rVV := (resolveVariableValue fs workspaceRoot cwd clock).
Local Abbreviation rVVE :=
  (resolveVariableValueEnhanced fs workspaceRoot cwd clock).

Lemma map_get_map_set key e c :
  TerraformCache.map_get key (TerraformCache.map_set key e c) = Some e.
Proof.
  induction c as [|[k e'] c IH]; cbn.
  - now rewrite String.eqb_refl.
  - destruct (String.eqb key k) eqn:E; cbn; rewrite E; auto.
Qed.

Lemma stores_set key v :
  stores clock key (cache_set clock key v ;;; ret (Some v)).
Proof.
  intros s v' H. unfold bind, cache_set, ret in *.
  destruct (_ <=? _)%nat; cbn in *; injection H as <-;
    unfold TerraformCache.set; rewrite map_get_map_set;
    do 2 eexists; (split; [reflexivity | split; reflexivity]).
Qed.

Lemma stores_ret_none key : stores clock key (ret None).
Proof. intros s v H. discriminate. Qed.

Lemma stores_bind {A} key (m : M A) (k : A -> M (option string)) :
  (forall a, stores clock key (k a)) -> stores clock key (bind m k).
Proof.
  intros Hk s v. unfold bind.
  destruct (m s) as [[a| |] s']; cbn; try discriminate.
  apply Hk.
Qed.

Lemma stores_try_catch key (m h : M (option string)) :
  stores clock key m -> stores clock key h -> stores clock key (try_catch m h).
Proof.
  intros Hm Hh s v. unfold try_catch.
  specialize (Hm s v).
  destruct (m s) as [[a| |] s']; cbn in *; try discriminate; auto.
Qed.

Ltac stores_step :=
  match goal with
  | |- stores _ _ (ret None) => apply stores_ret_none
  | |- stores _ _ (bind (cache_set _ _ _) _) => apply stores_set
  | |- stores _ _ (bind _ _) => apply stores_bind; intro
  | |- stores _ _ (try_catch _ _) => apply stores_try_catch
  | |- stores _ _ (match ?x with _ => _ end) => destruct x
  end.

(** A live entry is served. *)
Lemma cache_get_live key e i s :
  (forall a b, (clock b - clock a <= TerraformCache.TTL)%Z) ->
  TerraformCache.map_get key (cache s) = Some e ->
  TerraformCache.timestamp e = clock i ->
  fst (cache_get clock key s) = Ret (Some (TerraformCache.value e)).
Proof.
  intros Hclock He Hi. unfold cache_get, TerraformCache.get. rewrite He, Hi.
  destruct (Z.ltb_spec TerraformCache.TTL (clock (ticks s) - clock i)) as [Hlt|_].
  - specialize (Hclock i (ticks s)). lia.
  - reflexivity.
Qed.

Lemma resolveVariableValue_stores fuel name dir depth s v :
  TerraformCache.map_get (resolve_key name dir depth) (cache s) = None ->
  fst (rVV fuel name dir depth s) = Ret (Some v) ->
  exists e i,
    TerraformCache.map_get (resolve_key name dir depth)
      (cache (snd (rVV fuel name dir depth s))) = Some e
    /\ TerraformCache.value e = v
    /\ TerraformCache.timestamp e = clock i.
Proof.
  intros Hcold. destruct fuel as [|fuel]; [discriminate|].
  cbn [resolveVariableValue].
  destruct (maxRecursionDepth <? depth)%nat; [discriminate|].
  run (cache_get_miss clock _ _ Hcold).
  destruct (mem (visit_key name dir depth) (visited s)) eqn:Hseen.
  - rewrite visited_seen by exact Hseen. discriminate.
  - rewrite visited_enter by exact Hseen. cbn [fst snd].
    match goal with
    | |- fst (?body ?s0) = _ -> _ =>
        assert (Hs : stores clock (resolve_key name dir depth) body)
    end.
    { cbv beta zeta. repeat stores_step. }
    intros H. apply Hs in H. exact H.
Qed.

Lemma resolveVariableValueEnhanced_stores fuel name dir depth mc s v :
  TerraformCache.map_get (enhanced_key name dir depth mc) (cache s) = None ->
  fst (rVVE fuel name dir depth mc s) = Ret (Some v) ->
  exists e i,
    TerraformCache.map_get (enhanced_key name dir depth mc)
      (cache (snd (rVVE fuel name dir depth mc s))) = Some e
    /\ TerraformCache.value e = v
    /\ TerraformCache.timestamp e = clock i.
Proof.
  intros Hcold. destruct fuel as [|fuel]; [discriminate|].
  cbn [resolveVariableValueEnhanced].
  destruct (maxRecursionDepth <? depth)%nat; [discriminate|].
  run (cache_get_miss clock _ _ Hcold).
  destruct (mem (visit_key name dir depth) (visited s)) eqn:Hseen.
  - rewrite visited_seen by exact Hseen. discriminate.
  - rewrite visited_enter by exact Hseen. cbn [fst snd].
    match goal with
    | |- fst (?body ?s0) = _ -> _ =>
        assert (Hs : stores clock (enhanced_key name dir depth mc) body)
    end.
    { cbv beta zeta. repeat stores_step. }
    intros H. apply Hs in H. exact H.
Qed.


End CacheReuse.



(** ** Values of .tfvars.json files *)

(** C9 (values of .tfvars.json files are reformatted).  When the content
    parses as JSON and the name is one of its properties, parseJsonVariable
    returns formatValue of the property, not its source text: an array of
    more than three elements gives its first three elements, formatted and
    joined by a comma and a space, followed by [, ...] and the closing
    bracket; an object of more than three entries gives its first two
    entries as [key = value], followed by [, ... ] and the closing brace; a
    string gives the string between double quotes. *)
Theorem json_values_are_summarised
  (content variableName : string) (json : Json.json)
  (Hparse : parse content = Some json) :
  (forall items,
      js_get json variableName = PValue (JArr items) ->
      3 < List.length items ->
      parseJsonVariable content variableName
      = Some ("[" ++ join ", " (map formatValue (firstn 3 items)) ++ ", ...]"))
  /\ (forall entries,
      js_get json variableName = PValue (JObj entries) ->
      3 < List.length entries ->
      parseJsonVariable content variableName
      = Some ("{ " ++ join ", "
                       (map (fun e => fst e ++ " = " ++ formatValue (snd e))
                          (firstn 2 entries))
              ++ ", ... }"))
  /\ (forall text,
      js_get json variableName = PValue (JStr text) ->
      parseJsonVariable content variableName
      = Some (str1 dquote ++ text ++ str1 dquote)).
Proof.
  unfold parseJsonVariable. rewrite Hparse.
  refine (conj _ (conj _ _)).
  - intros items Hget Hlen. rewrite Hget.
    destruct items as [|x items]; [cbn in Hlen; lia|].
    cbn [formatValue].
    apply Nat.ltb_lt in Hlen. rewrite Hlen.
    rewrite firstn_map. reflexivity.
  - intros entries Hget Hlen. rewrite Hget.
    destruct entries as [|x entries]; [cbn in Hlen; lia|].
    cbn [formatValue].
    apply Nat.ltb_lt in Hlen. rewrite Hlen.
    rewrite firstn_map. reflexivity.
  - intros text Hget. rewrite Hget. reflexivity.
Qed.

Example long_object_is_cut :
  parseJsonVariable Fixtures.json_content "tags"
  = Some (q "{ env = 'prod', team = 'core', ... }").
Proof. vm_compute. reflexivity. Qed.

Example string_is_quoted :
  parseJsonVariable Fixtures.json_content "name" = Some (q "'web'").
Proof. vm_compute. reflexivity. Qed.

Lemma long_array_witness :
  parseJsonVariable Fixtures.json_content "zones" = Some (q "['a', 'b', 'c', ...]").
Proof.
  refine (proj1 (@json_values_are_summarised Fixtures.json_content "zones" _ _)
            [JStr "a"; JStr "b"; JStr "c"; JStr "d"] _ _).
  - vm_compute. reflexivity.
  - vm_compute. reflexivity.
  - cbn. lia.
Defined.

(** ** Brace matching in parseHclVariable *)

Lemma match_at_backslash_pair c st :
  no_backslash (rest st) = true ->
  match_at (lit (String bslash (String c EmptyString))) st = None.
Proof.
  intros H. unfold match_at, lit, chr. cbn [rmatch].
  destruct (rest st) as [|x t]; [reflexivity|].
  cbn [no_backslash] in H. apply andb_true_iff in H. destruct H as [Hx _].
  apply negb_true_iff in Hx. rewrite Hx. reflexivity.
Qed.

Lemma search_backslash_pair c fuel :
  forall st, no_backslash (rest st) = true ->
             search (lit (String bslash (String c EmptyString))) fuel st = None.
Proof.
  induction fuel as [|f IH]; intros st H; cbn [search];
    rewrite match_at_backslash_pair by exact H.
  - reflexivity.
  - destruct (rest st) as [|x t] eqn:E; [reflexivity|].
    apply IH. cbn [rest]. cbn [no_backslash] in H.
    apply andb_true_iff in H. apply H.
Qed.

(** The counting of extractCompleteObject sees nothing in a line that
    holds no backslash, whatever braces it holds. *)
Lemma brace_delta_without_backslash line :
  no_backslash line = true -> brace_delta line = 0%Z.
Proof.
  intros H. unfold brace_delta, count_matches, all_matches,
    re_bslash_open, re_bslash_close.
  cbn [all_matches_from start_of rest prev pos].
  rewrite !search_backslash_pair by exact H. reflexivity.
Qed.

(** So its loop never goes past the line of the assignment. *)
Lemma collect_object_one_line name lines :
  Forall (fun l => no_backslash l = true) lines ->
  List.length (collect_object name lines false 0) <= 1.
Proof.
  induction 1 as [|line r Hline _ IH]; cbn [collect_object]; [cbn; lia|].
  cbn [negb andb].
  destruct (test _ line).
  - rewrite brace_delta_without_backslash by exact Hline. cbn. lia.
  - exact IH.
Qed.

Lemma no_backslash_lines c s :
  no_backslash s = true ->
  Forall (fun l => no_backslash l = true) (split_chr c s).
Proof.
  induction s as [|x s IH]; intros H; cbn [split_chr].
  - repeat constructor.
  - cbn [no_backslash] in H. apply andb_true_iff in H. destruct H as [Hx Hs].
    specialize (IH Hs).
    destruct (Ascii.eqb x c).
    + constructor; [reflexivity | exact IH].
    + destruct (split_chr c s) as [|h r].
      * repeat constructor. unfold str1. cbn [no_backslash]. rewrite Hx. reflexivity.
      * inversion IH as [|? ? Hh Hr]; subst.
        constructor; [|exact Hr].
        cbn [no_backslash]. rewrite Hx, Hh. reflexivity.
Qed.

(** On a text without backslashes, whatever its braces, the fallback
    extractCompleteObject keeps one line at most. *)
Lemma fallback_keeps_one_line content name :
  no_backslash content = true ->
  List.length (collect_object name (split_chr lf content) false 0) <= 1.
Proof.
  intros H. apply collect_object_one_line, no_backslash_lines, H.
Qed.

(** The value is cut at the first closing brace that ends a line, which
    leaves the braces unbalanced ... *)
Example lazy_pattern_stops_early :
  option_map (Regex.group 1)
    (first_match (hcl_patterns "x") Fixtures.nested_object)
  = Some (Some (unlines ["{"; "  b = {"; q "    c = '2'"; "  }"]))
  /\ hasMatchingBraces (unlines ["{"; "  b = {"; q "    c = '2'"; "  }"]) = false.
Proof. split; vm_compute; reflexivity. Qed.

(** C8 (multi-line objects): on a declaration whose object value holds a
    nested object, parseHclVariable returns the opening brace alone, not
    the object up to its matching closing brace. *)
Theorem nested_object_is_cut_to_its_first_line :
  parseHclVariable Fixtures.nested_object "x" = Some "{".
Proof. vm_compute. reflexivity. Qed.

(** The string-aware scan itself is right: braces inside a string literal,
    and an escaped quote, do not count. *)
Example braces_in_strings_ignored :
  hasMatchingBraces
    (String.concat EmptyString
       ["{ a = "; q "'}{{'"; " b = "; q "'x"; String bslash (q "' }'"); " }"])
  = true.
Proof. vm_compute. reflexivity. Qed.

(** An object without nesting is returned whole (as re-serialised JSON). *)
Example flat_object_is_complete :
  parseHclVariable (unlines ["x = {"; q "  a = '1'"; "}"]) "x"
  = Some (unlines ["{"; q "  'a': '1'"; "}"]).
Proof. vm_compute. reflexivity. Qed.

(** ** The containment check *)

Lemma rev_string_acc s acc :
  rev_string s acc = rev_string s EmptyString ++ acc.
Proof.
  revert acc. induction s as [|c s IH]; intros acc; cbn; [reflexivity|].
  rewrite IH, (IH (String c EmptyString)), append_assoc. reflexivity.
Qed.

Lemma rev_string_app a b :
  rev_string (a ++ b) EmptyString
  = rev_string b EmptyString ++ rev_string a EmptyString.
Proof.
  induction a as [|c a IH]; cbn.
  - symmetry. apply append_nil_r.
  - rewrite (rev_string_acc (a ++ b)), (rev_string_acc a), IH, append_assoc.
    reflexivity.
Qed.

Lemma no_slash_app a b : no_slash (a ++ b) = no_slash a && no_slash b.
Proof.
  induction a as [|c a IH]; cbn; [reflexivity|].
  rewrite IH, andb_assoc. reflexivity.
Qed.

Lemma no_slash_rev s : no_slash (rev_string s EmptyString) = no_slash s.
Proof.
  induction s as [|c s IH]; cbn; [reflexivity|].
  rewrite rev_string_acc, no_slash_app, IH. cbn.
  rewrite andb_true_r. apply andb_comm.
Qed.

Lemma length_rev s : String.length (rev_string s EmptyString) = String.length s.
Proof.
  induction s as [|c s IH]; cbn; [reflexivity|].
  rewrite rev_string_acc, length_app, IH. cbn. lia.
Qed.

Lemma skip_slashes_name a b :
  a <> EmptyString -> no_slash a = true ->
  Path.skip_slashes (a ++ b) = a ++ b.
Proof.
  destruct a as [|c a]; [congruence|]. cbn.
  intros _ H. apply andb_true_iff in H. destruct H as [Hc _].
  apply negb_true_iff in Hc. now rewrite Hc.
Qed.

Lemma skip_name_prefix a b :
  no_slash a = true -> Path.skip_name (a ++ b) = Path.skip_name b.
Proof.
  induction a as [|c a IH]; cbn; [reflexivity|].
  intros H. apply andb_true_iff in H. destruct H as [Hc Ha].
  apply negb_true_iff in Hc. rewrite Hc. auto.
Qed.

Lemma take_app a b : take (String.length a) (a ++ b) = a.
Proof. induction a as [|c a IH]; cbn; [now destruct b | now rewrite IH]. Qed.

Lemma rev_nonempty s : s <> EmptyString -> rev_string s EmptyString <> EmptyString.
Proof.
  intros H E. apply (f_equal String.length) in E. rewrite length_rev in E.
  destruct s; [congruence | discriminate].
Qed.

Lemma dirname_of_child parent name :
  name <> EmptyString -> no_slash name = true ->
  Path.dirname (parent ++ "/" ++ name) = dir_part parent.
Proof.
  intros Hne Hns.
  assert (Hr : no_slash (rev_string name EmptyString) = true)
    by (now rewrite no_slash_rev).
  assert (Hrn := rev_nonempty Hne).
  destruct parent as [|c rest]; cbn [append Path.dirname dir_part].
  - change (Ascii.eqb "/" Path.slash) with true.
    rewrite <- (append_nil_r (rev_string name EmptyString)).
    rewrite skip_slashes_name, skip_name_prefix by assumption.
    reflexivity.
  - rewrite rev_string_app. cbn [rev_string].
    rewrite (rev_string_acc name).
    rewrite <- rev_string_acc.
    rewrite (rev_string_acc name (String "/" EmptyString)).
    rewrite append_assoc.
    rewrite skip_slashes_name, skip_name_prefix by assumption.
    cbn [append Path.skip_name]. change (Ascii.eqb "/" Path.slash) with true.
    cbv iota. rewrite length_rev.
    destruct (Ascii.eqb c Path.slash && Nat.eqb (S (String.length rest)) 1)%bool;
      [reflexivity|].
    cbn [take]. f_equal. apply take_app.
Qed.

Lemma startsWith_app a b : startsWith (a ++ b) a = true.
Proof.
  induction a as [|c a IH]; cbn; [apply startsWith_nil|].
  rewrite Ascii.eqb_refl. exact IH.
Qed.

(** C10 (containment is a test on text).  isWithinWorkspace answers by
    comparing strings: it is true exactly when the normalized directory
    path starts with the normalized workspace root.  So a directory whose
    name merely continues the name of the root - root [parent/name],
    directory [parent/name] followed by a suffix without a slash, both
    already normalized - is classified as inside the workspace, although
    it is another entry of the same parent directory, not a descendant of
    the root. *)
Theorem sibling_with_longer_name_counts_as_inside
  (parent name suffix : string)
  (Hname : name <> EmptyString)
  (Hns : no_slash name = true)
  (Hsuffix : suffix <> EmptyString)
  (Hss : no_slash suffix = true)
  (Hroot : Path.normalize (parent ++ "/" ++ name) = parent ++ "/" ++ name)
  (Hdir : Path.normalize (parent ++ "/" ++ name ++ suffix)
          = parent ++ "/" ++ name ++ suffix) :
  (forall root dir,
      isWithinWorkspace root dir
      = startsWith (Path.normalize dir) (Path.normalize root))
  /\ isWithinWorkspace (parent ++ "/" ++ name) (parent ++ "/" ++ name ++ suffix)
     = true
  /\ Path.dirname (parent ++ "/" ++ name ++ suffix)
     = Path.dirname (parent ++ "/" ++ name)
  /\ parent ++ "/" ++ name ++ suffix <> parent ++ "/" ++ name.
Proof.
  refine (conj _ (conj _ (conj _ _))).
  - reflexivity.
  - unfold isWithinWorkspace. rewrite Hroot, Hdir.
    rewrite <- (append_assoc "/" name suffix), <- (append_assoc parent).
    apply startsWith_app.
  - assert (Hlong : name ++ suffix <> EmptyString)
      by (destruct name; [congruence | discriminate]).
    assert (Hlns : no_slash (name ++ suffix) = true)
      by (rewrite no_slash_app, Hns, Hss; reflexivity).
    rewrite (dirname_of_child parent Hlong Hlns).
    rewrite (dirname_of_child parent Hname Hns). reflexivity.
  - intros E. apply (f_equal String.length) in E.
    rewrite !length_app in E.
    destruct suffix; [congruence | cbn in E; lia].
Qed.

Lemma sibling_witness :
  isWithinWorkspace "/w/app" "/w/app2" = true
  /\ Path.dirname "/w/app2" = Path.dirname "/w/app"
  /\ "/w/app2" <> "/w/app".
Proof.
  apply (@sibling_with_longer_name_counts_as_inside "/w" "app" "2").
  - discriminate.
  - reflexivity.
  - discriminate.
  - reflexivity.
  - reflexivity.
  - reflexivity.
Defined.

(** Module path resolution accepts the sibling ... *)
Example module_path_leaves_the_workspace :
  fst (resolveModulePath Fixtures.sibling_files "/w/app" "/" (IsString "../app2")
         "/w/app" Fixtures.fresh)
  = Ret (Some "/w/app2").
Proof. vm_compute. reflexivity. Qed.

(** ... and so does the parent fallback started below it. *)
Example parent_fallback_in_the_sibling :
  fst (resolveVariableValue Fixtures.sibling_files "/w/app" "/" Fixtures.clock
         12 "x" "/w/app2/sub" 0 Fixtures.fresh)
  = Ret (Some "outside").
Proof. vm_compute. reflexivity. Qed.

End Properties.

(* ================================================================== *)
(** * Properties of the cache and of its upkeep *)
(* ================================================================== *)

Module CacheProperties.
Import Js Effects Resolver Notions Properties.
Import TerraformCache CacheUpkeep Shapes MoreFixtures.
Local Open Scope Z_scope.

(** ** The map *)

Lemma map_get_map_set_other key k e c :
  String.eqb key k = false ->
  map_get key (map_set k e c) = map_get key c.
Proof.
  intros Hne. induction c as [|[k' e'] c IH]; cbn.
  - now rewrite Hne.
  - destruct (String.eqb k k') eqn:E; cbn.
    + apply String.eqb_eq in E. subst k'. now rewrite Hne.
    + destruct (String.eqb key k'); auto.
Qed.

Lemma map_get_In key e c : map_get key c = Some e -> In (key, e) c.
Proof.
  induction c as [|[k e'] c IH]; cbn; [discriminate|].
  destruct (String.eqb key k) eqn:E.
  - apply String.eqb_eq in E. intros H. injection H as <-. subst. now left.
  - intros H. right. auto.
Qed.

Lemma map_get_absent key c :
  ~ In key (map fst c) -> map_get key c = None.
Proof.
  induction c as [|[k e] c IH]; cbn; [reflexivity|].
  intros H. destruct (String.eqb key k) eqn:E.
  - apply String.eqb_eq in E. subst. exfalso. apply H. now left.
  - apply IH. intros Hin. apply H. now right.
Qed.

Lemma map_get_map_delete_other key k c :
  String.eqb key k = false ->
  map_get key (map_delete k c) = map_get key c.
Proof.
  intros Hne. induction c as [|[k' e'] c IH]; cbn; [reflexivity|].
  destruct (String.eqb k k') eqn:E; cbn.
  - apply String.eqb_eq in E. subst k'. now rewrite Hne.
  - destruct (String.eqb key k'); auto.
Qed.

Lemma map_get_map_delete_same key c :
  unique_keys c -> map_get key (map_delete key c) = None.
Proof.
  unfold unique_keys. induction c as [|[k e] c IH]; cbn; [reflexivity|].
  intros Hu. inversion Hu as [|? ? Hnotin Hu']; subst.
  destruct (String.eqb key k) eqn:E; cbn.
  - apply String.eqb_eq in E. subst k. now apply map_get_absent.
  - rewrite E. auto.
Qed.

Lemma keys_map_set_present key e e' c :
  map_get key c = Some e ->
  map fst (map_set key e' c) = map fst c.
Proof.
  induction c as [|[k e0] c IH]; cbn; [discriminate|].
  destruct (String.eqb key k) eqn:E; cbn.
  - reflexivity.
  - intros H. now rewrite IH.
Qed.

Lemma length_map_set_le key e c :
  (List.length (map_set key e c) <= S (List.length c))%nat.
Proof.
  induction c as [|[k e0] c IH]; cbn; [lia|].
  destruct (String.eqb key k); cbn; lia.
Qed.

Lemma length_map_set_new key e c :
  map_get key c = None ->
  List.length (map_set key e c) = S (List.length c).
Proof.
  induction c as [|[k e0] c IH]; cbn; [reflexivity|].
  destruct (String.eqb key k); cbn; [discriminate|].
  intros H. now rewrite IH.
Qed.

Lemma length_map_delete_In key e c :
  In (key, e) c -> S (List.length (map_delete key c)) = List.length c.
Proof.
  induction c as [|[k e0] c IH]; cbn; [tauto|].
  intros [H|H].
  - injection H as -> _. now rewrite String.eqb_refl.
  - destruct (String.eqb key k); cbn; [reflexivity|].
    now rewrite IH.
Qed.

Lemma map_delete_absent key pre c :
  ~ In key (map fst pre) ->
  map_delete key (pre ++ c)%list = (pre ++ map_delete key c)%list.
Proof.
  induction pre as [|[k e] pre IH]; cbn; [reflexivity|].
  intros H. destruct (String.eqb key k) eqn:E.
  - apply String.eqb_eq in E. subst. exfalso. apply H. now left.
  - rewrite IH; [reflexivity|]. intros Hin. apply H. now right.
Qed.

Lemma map_get_filter_keys (P : string -> bool) key c :
  map_get key (filter (fun ke => P (fst ke)) c)
  = if P key then map_get key c else None.
Proof.
  induction c as [|[k e] c IH]; cbn.
  - now destruct (P key).
  - destruct (P k) eqn:Pk; cbn.
    + destruct (String.eqb key k) eqn:E.
      * apply String.eqb_eq in E. subst. now rewrite Pk.
      * exact IH.
    + destruct (String.eqb key k) eqn:E.
      * apply String.eqb_eq in E. subst. rewrite Pk in *. exact IH.
      * exact IH.
Qed.

(** ** get and set *)

(** X1 (a value set is served until it expires).  After [set] has stored
    a value under a key at the time [now2], [get] of that key at the time
    [now] returns the value when at most TTL (60000) milliseconds have
    passed since [now2], and null when more have passed - whatever the
    cache held before, and whether or not the set had to evict an entry. *)
Theorem value_set_is_served_until_it_expires
  (now1 now2 now : Z) (key v : string) (c : Cache) :
  fst (get now key (set now1 now2 key v c))
  = if TTL <? now - now2 then None else Some v.
Proof.
  unfold get, set. rewrite map_get_map_set. cbn [timestamp value].
  destruct (TTL <? now - now2); reflexivity.
Qed.

(** X2 (reading does not extend the life of an entry).  A hit updates the
    access count and the time of last access of the entry and leaves its
    time stamp alone: an entry read while it is live is still not served
    once more than TTL milliseconds have passed since it was set, and that
    late read deletes it. *)
Theorem reading_does_not_extend_the_life_of_an_entry
  (c : Cache) (key : string) (e : CacheEntry) (now1 now2 : Z)
  (Hunique : unique_keys c)
  (Hentry : map_get key c = Some e)
  (Hlive : now1 - timestamp e <= TTL)
  (Hlate : TTL < now2 - timestamp e) :
  fst (get now1 key c) = Some (value e)
  /\ map_get key (snd (get now1 key c))
     = Some (mkEntry (value e) (timestamp e) (accessCount e + 1) now1)
  /\ fst (get now2 key (snd (get now1 key c))) = None
  /\ map_get key (snd (get now2 key (snd (get now1 key c)))) = None.
Proof.
  unfold get at 1 2 4 6. rewrite Hentry.
  destruct (Z.ltb_spec TTL (now1 - timestamp e)) as [Hx|_]; [lia|].
  cbn [fst snd].
  assert (Hu : unique_keys (map_set key
                 (mkEntry (value e) (timestamp e) (accessCount e + 1) now1) c)).
  { unfold unique_keys. now rewrite (@keys_map_set_present key e _ c Hentry). }
  unfold get. rewrite map_get_map_set. cbn [timestamp].
  destruct (Z.ltb_spec TTL (now2 - timestamp e)) as [_|Hx]; [|lia].
  cbn [fst snd]. repeat split. now apply map_get_map_delete_same.
Qed.

Lemma reading_witness :
  fst (get 2000 "k" [("k", mkEntry "v" 1000 1 1000)]) = Some "v"
  /\ map_get "k" (snd (get 2000 "k" [("k", mkEntry "v" 1000 1 1000)]))
     = Some (mkEntry "v" 1000 2 2000)
  /\ fst (get 70000 "k" (snd (get 2000 "k" [("k", mkEntry "v" 1000 1 1000)])))
     = None
  /\ map_get "k"
       (snd (get 70000 "k" (snd (get 2000 "k" [("k", mkEntry "v" 1000 1 1000)]))))
     = None.
Proof.
  apply (@reading_does_not_extend_the_life_of_an_entry
           [("k", mkEntry "v" 1000 1 1000)] "k" (mkEntry "v" 1000 1 1000)
           2000 70000).
  - unfold unique_keys. simpl. repeat constructor. simpl. tauto.
  - reflexivity.
  - unfold TTL. simpl. lia.
  - unfold TTL. simpl. lia.
Defined.

(** ** Eviction *)

Lemma lru_scan_spec c : forall acc t,
  (lru_scan c acc t = acc /\ forall k e, In (k, e) c -> t <= lastAccessed e)
  \/ (exists k e,
        lru_scan c acc t = Some k /\ In (k, e) c /\ lastAccessed e < t
        /\ forall k' e', In (k', e') c -> lastAccessed e <= lastAccessed e').
Proof.
  induction c as [|[k e] c IH]; intros acc t; cbn [lru_scan].
  - left. split; [reflexivity|]. intros k e [].
  - destruct (Z.ltb_spec (lastAccessed e) t) as [Hlt|Hge].
    + right.
      destruct (IH (Some k) (lastAccessed e))
        as [[Hr Hall]|(k1 & e1 & Hr & Hin & Hlt1 & Hmin)].
      * exists k, e. refine (conj Hr (conj (or_introl eq_refl) (conj Hlt _))).
        intros k' e' [H|H].
        -- inversion H; subst. lia.
        -- eauto.
      * exists k1, e1.
        refine (conj Hr (conj (or_intror Hin) (conj _ _))); [lia|].
        intros k' e' [H|H].
        -- inversion H; subst. lia.
        -- eauto.
    + destruct (IH acc t) as [[Hr Hall]|(k1 & e1 & Hr & Hin & Hlt1 & Hmin)].
      * left. split; [exact Hr|].
        intros k' e' [H|H].
        -- inversion H; subst. lia.
        -- eauto.
      * right. exists k1, e1.
        refine (conj Hr (conj (or_intror Hin) (conj Hlt1 _))).
        intros k' e' [H|H].
        -- inversion H; subst. lia.
        -- eauto.
Qed.

(** X3 (eviction takes a least recently used entry).  When no entry was
    last accessed before the time [now] read at the start of the scan,
    evictLeastRecentlyUsed leaves the cache as it is.  Otherwise it
    settles on an entry that was last accessed before [now] and no later
    than any other entry, and deletes it - unless the key of that entry
    is the empty string, in which case nothing is deleted. *)
Theorem eviction_takes_a_least_recently_used_entry (now : Z) (c : Cache) :
  ((forall k e, In (k, e) c -> now <= lastAccessed e)
   /\ evictLeastRecentlyUsed now c = c)
  \/ (exists k e,
        In (k, e) c /\ lastAccessed e < now
        /\ (forall k' e', In (k', e') c -> lastAccessed e <= lastAccessed e')
        /\ evictLeastRecentlyUsed now c
           = if is_empty k then c else map_delete k c).
Proof.
  unfold evictLeastRecentlyUsed.
  destruct (lru_scan_spec c None now) as [[Hr Hall]|(k & e & Hr & Hin & Hlt & Hmin)].
  - left. rewrite Hr. auto.
  - right. exists k, e. rewrite Hr. auto.
Qed.

(** X4 (the size bound and its conditions).  Let the cache hold at most
    MAX_SIZE (1000) entries, none under the empty key.  If every entry was
    last accessed before the time [now1] that the eviction reads, the
    cache still holds at most MAX_SIZE entries after [set].  If the cache
    is full and no entry was last accessed before [now1] - the clock has
    not advanced since - nothing is evicted, and setting a new key leaves
    MAX_SIZE + 1 entries. *)
Theorem full_cache_evicts_only_when_the_clock_has_advanced
  (now1 now2 : Z) (key v : string) (c : Cache)
  (Hsize : (List.length c <= MAX_SIZE)%nat)
  (Hkeys : forall k e, In (k, e) c -> is_empty k = false) :
  ((forall k e, In (k, e) c -> lastAccessed e < now1) ->
   (List.length (set now1 now2 key v c) <= MAX_SIZE)%nat)
  /\ (List.length c = MAX_SIZE ->
      (forall k e, In (k, e) c -> now1 <= lastAccessed e) ->
      map_get key c = None ->
      List.length (set now1 now2 key v c) = S MAX_SIZE).
Proof.
  split.
  - intros Hold. unfold set.
    destruct (Nat.leb_spec MAX_SIZE (List.length c)) as [Hfull|Hroom].
    + unfold evictLeastRecentlyUsed.
      destruct (lru_scan_spec c None now1)
        as [[_ Hall]|(k & e & Hr & Hin & _ & _)].
      * destruct c as [|[k e] c]; [cbv [MAX_SIZE] in *; cbn in *; lia|].
        specialize (Hall k e (or_introl eq_refl)).
        specialize (Hold k e (or_introl eq_refl)). lia.
      * rewrite Hr, (Hkeys _ _ Hin).
        pose proof (length_map_delete_In _ _ _ Hin) as Hd.
        pose proof (length_map_set_le key (mkEntry v now2 1 now2) (map_delete k c)).
        lia.
    + pose proof (length_map_set_le key (mkEntry v now2 1 now2) c). lia.
  - intros Hfull Hall Hnew. unfold set.
    rewrite Hfull, Nat.leb_refl. unfold evictLeastRecentlyUsed.
    destruct (lru_scan_spec c None now1)
      as [[Hr _]|(k & e & _ & Hin & Hlt & _)].
    + rewrite Hr, length_map_set_new by exact Hnew. now rewrite Hfull.
    + specialize (Hall _ _ Hin). lia.
Qed.

Lemma forall_entries (P : string -> CacheEntry -> bool) (c : Cache) :
  forallb (fun ke => P (fst ke) (snd ke)) c = true ->
  forall k e, In (k, e) c -> P k e = true.
Proof.
  intros H k e Hin. rewrite forallb_forall in H. exact (H (k, e) Hin).
Qed.

Lemma full_cache_witness :
  List.length (set 5 6 "new" "v" full_cache) = 1001%nat.
Proof.
  apply (@full_cache_evicts_only_when_the_clock_has_advanced
           5 6 "new" "v" full_cache).
  - apply Nat.leb_le. vm_compute. reflexivity.
  - intros k e Hin.
    apply (@forall_entries (fun k _ => negb (is_empty k)) full_cache
             ltac:(vm_compute; reflexivity)) in Hin.
    now apply negb_true_iff in Hin.
  - vm_compute. reflexivity.
  - intros k e Hin.
    apply (@forall_entries (fun _ e => 5 <=? lastAccessed e) full_cache
             ltac:(vm_compute; reflexivity)) in Hin.
    now apply Z.leb_le in Hin.
  - vm_compute. reflexivity.
Defined.

(** ** Invalidation and cleanup *)

Lemma invalidate_entries_filter filePath : forall entries pre,
  (forall k e, In (k, e) pre -> includes k filePath = false) ->
  invalidate_entries filePath entries (pre ++ entries)%list
  = (pre ++ filter (fun ke => negb (includes (fst ke) filePath)) entries)%list.
Proof.
  induction entries as [|[k e] r IH]; intros pre Hpre; cbn [invalidate_entries filter fst].
  - reflexivity.
  - destruct (includes k filePath) eqn:Hk; cbn [negb].
    + rewrite map_delete_absent.
      * cbn [map_delete]. rewrite String.eqb_refl. apply IH. exact Hpre.
      * intros Hin. apply in_map_iff in Hin. destruct Hin as ([k' e'] & Heq & Hin).
        cbn in Heq. subst k'. rewrite (Hpre _ _ Hin) in Hk. discriminate.
    + change (pre ++ (k, e) :: r)%list with (pre ++ [(k, e)] ++ r)%list.
      rewrite app_assoc, IH.
      * rewrite <- app_assoc. reflexivity.
      * intros k' e' Hin. apply in_app_or in Hin. destruct Hin as [Hin|[Heq|[]]].
        -- eauto.
        -- inversion Heq; subst. exact Hk.
Qed.

(** X5 (invalidateFile deletes the keys that hold the path).  After
    invalidateFile, the cache holds the entries whose key does not contain
    the path as a substring, in their order and unchanged; every entry
    whose key contains it is gone.  So a key that contains the path reads
    as absent, and any other key reads as before. *)
Theorem invalidateFile_deletes_the_keys_that_hold_the_path
  (filePath : string) (c : Cache) :
  invalidateFile filePath c
  = filter (fun ke => negb (includes (fst ke) filePath)) c
  /\ forall key,
       map_get key (invalidateFile filePath c)
       = if includes key filePath then None else map_get key c.
Proof.
  assert (H : invalidateFile filePath c
              = filter (fun ke => negb (includes (fst ke) filePath)) c).
  { unfold invalidateFile.
    apply (@invalidate_entries_filter filePath c []). intros k e []. }
  split; [exact H|].
  intros key. rewrite H.
  rewrite (map_get_filter_keys (fun k => negb (includes k filePath))).
  destruct (includes key filePath); reflexivity.
Qed.

Lemma cleanup_entries_filter now : forall entries pre,
  unique_keys (pre ++ entries)%list ->
  cleanup_entries now entries (pre ++ entries)%list
  = (pre ++ filter (fun ke => negb (TTL <? now - timestamp (snd ke))) entries)%list.
Proof.
  induction entries as [|[k e] r IH]; intros pre Hu; cbn [cleanup_entries filter snd].
  - reflexivity.
  - destruct (TTL <? now - timestamp e) eqn:Hk; cbn [negb].
    + rewrite map_delete_absent.
      * cbn [map_delete]. rewrite String.eqb_refl. apply IH.
        unfold unique_keys in *. rewrite map_app in *. cbn in Hu.
        now apply NoDup_remove_1 in Hu.
      * unfold unique_keys in Hu. rewrite map_app in Hu. cbn in Hu.
        apply NoDup_remove_2 in Hu. intros Hin. apply Hu.
        apply in_or_app. now left.
    + change (pre ++ (k, e) :: r)%list with (pre ++ [(k, e)] ++ r)%list.
      rewrite app_assoc, IH.
      * rewrite <- app_assoc. reflexivity.
      * rewrite <- app_assoc. exact Hu.
Qed.

(** X6 (cleanup deletes the expired entries).  On a cache that holds
    each key once, as a Map does, the periodic cleanup at the time [now]
    leaves the entries set at most TTL milliseconds before [now], in their
    order and unchanged, and deletes every other entry. *)
Theorem cleanup_deletes_the_expired_entries
  (now : Z) (c : Cache) (Hunique : unique_keys c) :
  cleanup now c = filter (fun ke => negb (TTL <? now - timestamp (snd ke))) c.
Proof.
  unfold cleanup. apply (@cleanup_entries_filter now c []). exact Hunique.
Qed.

Lemma cleanup_witness :
  cleanup 70000 [("old", mkEntry "a" 1000 1 1000); ("new", mkEntry "b" 20000 1 20000)]
  = [("new", mkEntry "b" 20000 1 20000)].
Proof.
  apply (@cleanup_deletes_the_expired_entries 70000
           [("old", mkEntry "a" 1000 1 1000); ("new", mkEntry "b" 20000 1 20000)]).
  unfold unique_keys. simpl. repeat constructor; simpl; intuition discriminate.
Defined.

(** ** The keys of the resolver and the paths of files *)

Lemma app_split a b c d :
  a ++ b = c ++ d -> (String.length a <= String.length c)%nat ->
  exists u, c = a ++ u /\ b = u ++ d.
Proof.
  revert c. induction a as [|x a IH]; intros c H Hlen; cbn in *.
  - exists c. auto.
  - destruct c as [|y c]; cbn in *; [lia|].
    injection H as -> H.
    destruct (IH c H ltac:(lia)) as (u & -> & ->). exists u. auto.
Qed.

Lemma startsWith_split s p :
  startsWith s p = true -> exists post, s = p ++ post.
Proof.
  revert s. induction p as [|a p IH]; intros s H; cbn in *.
  - exists s. reflexivity.
  - destruct s as [|b s]; [destruct p; discriminate|].
    cbn in H. apply andb_true_iff in H. destruct H as [Hab H].
    apply Ascii.eqb_eq in Hab. subst b.
    destruct (IH s H) as (post & ->). exists post. reflexivity.
Qed.

Lemma includes_split s p :
  includes s p = true -> exists pre post, s = pre ++ p ++ post.
Proof.
  unfold includes. induction s as [|c s IH]; cbn [indexOf].
  - destruct (startsWith EmptyString p) eqn:E; [|discriminate].
    intros _. destruct (startsWith_split _ _ E) as (post & Hp).
    exists EmptyString, post. exact Hp.
  - destruct (startsWith (String c s) p) eqn:E.
    + intros _. destruct (startsWith_split _ _ E) as (post & Hp).
      exists EmptyString, post. exact Hp.
    + destruct (indexOf s p); cbn; [|discriminate].
      intros _. destruct (IH eq_refl) as (pre & post & ->).
      exists (String c pre), post. reflexivity.
Qed.

(** A key made of a part without slash, an absolute directory and
    another part without slash does not contain the path of a file of
    that directory. *)
Lemma path_not_in_key (P D Q file : string) :
  no_slash P = true -> no_slash Q = true -> startsWith D "/" = true ->
  includes (P ++ D ++ Q) (D ++ "/" ++ file) = false.
Proof.
  intros HP HQ HD.
  destruct (includes (P ++ D ++ Q) (D ++ "/" ++ file)) eqn:E; [|reflexivity].
  exfalso. apply includes_split in E. destruct E as (pre & post & E).
  destruct (startsWith_split _ _ HD) as (D' & HD').
  destruct (Nat.le_gt_cases (String.length P) (String.length pre)) as [Hle|Hgt].
  - destruct (app_split _ _ _ _ E Hle) as (u & -> & E').
    rewrite <- !append_assoc in E'. rewrite (append_assoc u) in E'.
    rewrite !append_assoc in E'.
    assert (Hlen : (String.length D <= String.length (u ++ D))%nat)
      by (rewrite length_app; lia).
    rewrite <- (append_assoc u D) in E'.
    destruct (app_split _ _ _ _ E' Hlen) as (w & _ & HQ').
    subst Q. rewrite no_slash_app in HQ. cbn in HQ.
    rewrite andb_false_r in HQ. discriminate.
  - symmetry in E. rewrite append_assoc in E.
    destruct (app_split _ _ _ _ E ltac:(lia)) as (u & HPu & Hrest).
    subst P. rewrite length_app in Hgt.
    destruct u as [|x u]; [cbn in Hgt; lia|].
    rewrite HD' in Hrest. cbn in Hrest. injection Hrest as Hx _. subst x.
    rewrite no_slash_app in HP. cbn in HP. rewrite andb_false_r in HP.
    discriminate.
Qed.

Lemma no_slash_digits d : no_slash (NilEmpty.string_of_uint d) = true.
Proof. induction d; cbn; auto. Qed.

Lemma no_slash_nat_to_string n : no_slash (nat_to_string n) = true.
Proof. apply no_slash_digits. Qed.

Lemma handleFileChange_keeps (P D Q file : string) (s : State) :
  no_slash P = true -> no_slash Q = true -> startsWith D "/" = true ->
  map_get (P ++ D ++ Q) (cache (handleFileChange (D ++ "/" ++ file) s))
  = map_get (P ++ D ++ Q) (cache s).
Proof.
  intros HP HQ HD. unfold handleFileChange. cbn [cache].
  pose proof (invalidate_entries_filter (D ++ "/" ++ file) (cache s) []
                (fun k e (H : In (k, e) []) => match H with end)) as H.
  cbn [app] in H. unfold invalidateFile. rewrite H.
  rewrite (map_get_filter_keys (fun k => negb (includes k (D ++ "/" ++ file)))).
  now rewrite path_not_in_key.
Qed.

Lemma finder_key_kept (P x D file : string) (s : State) :
  no_slash P = true -> no_slash x = true -> startsWith D "/" = true ->
  map_get (P ++ x ++ ":" ++ D) (cache (handleFileChange (D ++ "/" ++ file) s))
  = map_get (P ++ x ++ ":" ++ D) (cache s).
Proof.
  intros HP Hx HD.
  pose proof (@handleFileChange_keeps (P ++ x ++ ":") D EmptyString file s) as H.
  rewrite append_nil_r, !append_assoc in H. apply H; auto.
  rewrite !no_slash_app, HP, Hx. reflexivity.
Qed.

Lemma resolver_key_kept (P x D Q file : string) (s : State) :
  no_slash P = true -> no_slash x = true -> no_slash Q = true ->
  startsWith D "/" = true ->
  map_get (P ++ x ++ ":" ++ D ++ Q)
    (cache (handleFileChange (D ++ "/" ++ file) s))
  = map_get (P ++ x ++ ":" ++ D ++ Q) (cache s).
Proof.
  intros HP Hx HQ HD.
  pose proof (@handleFileChange_keeps (P ++ x ++ ":") D Q file s) as H.
  rewrite !append_assoc in H. apply H; auto.
  rewrite !no_slash_app, HP, Hx. reflexivity.
Qed.

Lemma resolve_key_kept (x D file : string) (depth : nat) (s : State) :
  startsWith D "/" = true -> no_slash x = true ->
  map_get (resolve_key x D depth)
    (cache (handleFileChange (D ++ "/" ++ file) s))
  = map_get (resolve_key x D depth) (cache s).
Proof.
  intros HD Hx.
  apply (@resolver_key_kept "resolve:" x D (":" ++ nat_to_string depth));
    auto.
  rewrite no_slash_app, no_slash_nat_to_string. reflexivity.
Qed.

Lemma enhanced_key_kept (x D file : string) (depth : nat) (s : State) :
  startsWith D "/" = true -> no_slash x = true ->
  map_get (enhanced_key x D depth [])
    (cache (handleFileChange (D ++ "/" ++ file) s))
  = map_get (enhanced_key x D depth []) (cache s).
Proof.
  intros HD Hx.
  apply (@resolver_key_kept "enhanced:" x D
           (":" ++ nat_to_string depth ++ ":" ++ join "," [])); auto.
  rewrite !no_slash_app, no_slash_nat_to_string. reflexivity.
Qed.

(** X7 (a file change leaves the entries of its directory in place).
    The keys under which the resolver stores what it found for a name in
    a directory hold the directory, not the files read.  So when the file
    watcher reports the file [file] of the absolute directory [D],
    handleFileChange deletes none of the entries stored for a name
    without slash in [D]: the entries of the three finders, of the module
    call lookup and of both resolutions read as before the change. *)
Theorem file_change_keeps_the_entries_of_its_directory
  (x D file : string) (depth : nat) (s : State)
  (Habsolute : startsWith D "/" = true)
  (Hname : no_slash x = true) :
  map_get (tfvars_key x D) (cache (handleFileChange (D ++ "/" ++ file) s))
  = map_get (tfvars_key x D) (cache s)
  /\ map_get (locals_key x D) (cache (handleFileChange (D ++ "/" ++ file) s))
     = map_get (locals_key x D) (cache s)
  /\ map_get (outputs_key x D) (cache (handleFileChange (D ++ "/" ++ file) s))
     = map_get (outputs_key x D) (cache s)
  /\ map_get (module_key x D) (cache (handleFileChange (D ++ "/" ++ file) s))
     = map_get (module_key x D) (cache s)
  /\ map_get (resolve_key x D depth)
       (cache (handleFileChange (D ++ "/" ++ file) s))
     = map_get (resolve_key x D depth) (cache s)
  /\ map_get (enhanced_key x D depth [])
       (cache (handleFileChange (D ++ "/" ++ file) s))
     = map_get (enhanced_key x D depth []) (cache s).
Proof.
  refine (conj _ (conj _ (conj _ (conj _ (conj _ _))))).
  - apply (@finder_key_kept "tfvars:"); auto.
  - apply (@finder_key_kept "locals:"); auto.
  - apply (@finder_key_kept "outputs:"); auto.
  - apply (@finder_key_kept "module:"); auto.
  - apply resolve_key_kept; auto.
  - apply enhanced_key_kept; auto.
Qed.

Lemma file_change_witness :
  map_get (tfvars_key "x" "/w")
    (cache (handleFileChange "/w/prod.tfvars" warm_precedence))
  = map_get (tfvars_key "x" "/w") (cache warm_precedence).
Proof.
  apply (@file_change_keeps_the_entries_of_its_directory
           "x" "/w" "prod.tfvars" 0 warm_precedence);
    reflexivity.
Defined.

(** The entry is there: the first resolution stored it. *)
Example entry_of_the_directory_is_cached :
  option_map value (map_get (tfvars_key "x" "/w") (cache warm_precedence))
  = Some "from-override".
Proof. vm_compute. reflexivity. Qed.

Section ChangedFiles.
Variables fs changed : FileSystem.
Variable workspaceRoot : string.
Variable cwd : string.
Variable clock : nat -> Z.

(** X8 (a changed file is not seen while the entry lives).  Let a
    resolution of a name without slash in an absolute directory have
    found a value, starting with no entry under its key.  Let the file
    watcher then report a file of that directory, and let the file set
    be any other one.  While the clock stays within the time to live,
    the same resolution still returns the value found before the change:
    the entry stored under the key of the resolution survives
    handleFileChange and is served without any file being read.  This
    holds for resolveVariableValue and for resolveVariableValueEnhanced. *)
Theorem changed_file_is_not_seen_while_the_entry_lives
  (fuel : nat) (name dir file : string) (depth : nat) (s : State)
  (Hclock : forall a b, clock b - clock a <= TTL)
  (Habsolute : startsWith dir "/" = true)
  (Hname : no_slash name = true)
  (Hcold : map_get (resolve_key name dir depth) (cache s) = None)
  (HcoldE : map_get (enhanced_key name dir depth []) (cache s) = None) :
  (forall v,
      fst (resolveVariableValue fs workspaceRoot cwd clock fuel name dir depth s)
      = Ret (Some v) ->
      fst (resolveVariableValue changed workspaceRoot cwd clock fuel name dir depth
             (handleFileChange (dir ++ "/" ++ file)
                (snd (resolveVariableValue fs workspaceRoot cwd clock fuel
                        name dir depth s))))
      = Ret (Some v))
  /\ (forall v,
      fst (resolveVariableValueEnhanced fs workspaceRoot cwd clock fuel
             name dir depth [] s)
      = Ret (Some v) ->
      fst (resolveVariableValueEnhanced changed workspaceRoot cwd clock fuel
             name dir depth []
             (handleFileChange (dir ++ "/" ++ file)
                (snd (resolveVariableValueEnhanced fs workspaceRoot cwd clock fuel
                        name dir depth [] s))))
      = Ret (Some v)).
Proof.
  split.
  - intros v H.
    destruct (resolveVariableValue_stores _ _ _ _ _ _ _ _ _ Hcold H)
      as (e & i & He & Hv & Hi).
    destruct fuel as [|fuel']; [discriminate|].
    set (s' := handleFileChange _ _).
    assert (He' : map_get (resolve_key name dir depth) (cache s') = Some e).
    { unfold s'. rewrite resolve_key_kept by assumption. exact He. }
    cbn [resolveVariableValue] in H |- *.
    destruct (maxRecursionDepth <? depth)%nat; [discriminate|].
    unfold bind at 1.
    pose proof (@cache_get_live clock _ _ _ s' Hclock He' Hi) as Hget.
    destruct (cache_get clock (resolve_key name dir depth) s') as [o t].
    cbn in Hget. subst o. rewrite Hv. reflexivity.
  - intros v H.
    destruct (resolveVariableValueEnhanced_stores _ _ _ _ _ _ _ _ _ _ HcoldE H)
      as (e & i & He & Hv & Hi).
    destruct fuel as [|fuel']; [discriminate|].
    set (s' := handleFileChange _ _).
    assert (He' : map_get (enhanced_key name dir depth []) (cache s') = Some e).
    { unfold s'. rewrite enhanced_key_kept by assumption. exact He. }
    cbn [resolveVariableValueEnhanced] in H |- *.
    destruct (maxRecursionDepth <? depth)%nat; [discriminate|].
    unfold bind at 1.
    pose proof (@cache_get_live clock _ _ _ s' Hclock He' Hi) as Hget.
    destruct (cache_get clock (enhanced_key name dir depth []) s') as [o t].
    cbn in Hget. subst o. rewrite Hv. reflexivity.
Qed.

End ChangedFiles.

(** With nothing cached the changed file set answers with the new value. *)
Example changed_file_read_cold :
  fst (resolveVariableValue edited_files "/w" "/" Fixtures.clock 12
         "x" "/w" 0 Fixtures.fresh)
  = Ret (Some "edited").
Proof. vm_compute. reflexivity. Qed.

Lemma changed_file_witness :
  fst (resolveVariableValue edited_files "/w" "/" Fixtures.clock 12 "x" "/w" 0
         (handleFileChange "/w/prod.tfvars"
            (snd (resolveVariableValue Fixtures.precedence_files "/w" "/"
                    Fixtures.clock 12 "x" "/w" 0 Fixtures.fresh))))
  = Ret (Some "from-override").
Proof.
  apply (@changed_file_is_not_seen_while_the_entry_lives
           Fixtures.precedence_files edited_files "/w" "/" Fixtures.clock
           12 "x" "/w" "prod.tfvars" 0 Fixtures.fresh).
  - intros a b. unfold Fixtures.clock, TTL. lia.
  - reflexivity.
  - reflexivity.
  - reflexivity.
  - reflexivity.
  - vm_compute. reflexivity.
Defined.

End CacheProperties.

(* ================================================================== *)
(** * Properties of the parser *)
(* ================================================================== *)

Module ParserProperties.
Import Js Regex Json TerraformParser Notions Properties Shapes.

(** ** White space and characters *)

Lemma rev_string_cons c s :
  rev_string (String c s) EmptyString = rev_string s EmptyString ++ str1 c.
Proof. cbn. apply rev_string_acc. Qed.

Lemma rev_string_involutive s :
  rev_string (rev_string s EmptyString) EmptyString = s.
Proof.
  induction s as [|c s IH]; [reflexivity|].
  rewrite rev_string_cons, rev_string_app, IH. reflexivity.
Qed.

Lemma trimStart_app c a b :
  is_space c = false -> trimStart (a ++ String c b) = trimStart a ++ String c b.
Proof.
  intros Hc. induction a as [|d a IH]; cbn.
  - now rewrite Hc.
  - destruct (is_space d); [exact IH | reflexivity].
Qed.

Lemma trimStart_idempotent s : trimStart (trimStart s) = trimStart s.
Proof.
  induction s as [|c s IH]; [reflexivity|]. cbn.
  destruct (is_space c) eqn:E; [exact IH|]. cbn. now rewrite E.
Qed.

Lemma trimStart_head s :
  trimStart s = EmptyString
  \/ exists c t, trimStart s = String c t /\ is_space c = false.
Proof.
  induction s as [|c s IH]; [now left|]. cbn.
  destruct (is_space c) eqn:E; [exact IH|]. right. eauto.
Qed.

Lemma trimEnd_app c a b :
  is_space c = false -> trimEnd (a ++ String c b) = a ++ String c (trimEnd b).
Proof.
  intros Hc. unfold trimEnd.
  rewrite rev_string_app, rev_string_cons, append_assoc. cbn [append str1].
  rewrite trimStart_app by exact Hc.
  rewrite rev_string_app, rev_string_cons, rev_string_involutive.
  rewrite append_assoc. reflexivity.
Qed.

Lemma trimEnd_idempotent s : trimEnd (trimEnd s) = trimEnd s.
Proof.
  unfold trimEnd. now rewrite rev_string_involutive, trimStart_idempotent.
Qed.

Lemma trim_head s :
  trim s = EmptyString
  \/ exists c t, trim s = String c t /\ is_space c = false.
Proof.
  unfold trim. destruct (trimStart_head s) as [H|(c & t & H & Hc)]; rewrite H.
  - now left.
  - right. exists c, (trimEnd t). split; [|exact Hc].
    apply (@trimEnd_app c EmptyString t Hc).
Qed.

Lemma trimStart_fixed s :
  (s = EmptyString \/ exists c t, s = String c t /\ is_space c = false) ->
  trimStart s = s.
Proof.
  intros [->|(c & t & -> & Hc)]; [reflexivity|]. cbn. now rewrite Hc.
Qed.

Lemma trim_idempotent s : trim (trim s) = trim s.
Proof.
  unfold trim at 1. rewrite (trimStart_fixed (trim_head s)).
  unfold trim. apply trimEnd_idempotent.
Qed.

Lemma trim_trimStart s : trim (trimStart s) = trim s.
Proof. unfold trim. now rewrite trimStart_idempotent. Qed.

Lemma lacks_app c a b : lacks c (a ++ b) = lacks c a && lacks c b.
Proof.
  induction a as [|d a IH]; cbn; [reflexivity|].
  now rewrite IH, andb_assoc.
Qed.

Lemma lacks_rev c s : lacks c (rev_string s EmptyString) = lacks c s.
Proof.
  induction s as [|d s IH]; [reflexivity|].
  rewrite rev_string_cons, lacks_app, IH. cbn.
  rewrite andb_true_r. apply andb_comm.
Qed.

Lemma lacks_trimStart c s : lacks c s = true -> lacks c (trimStart s) = true.
Proof.
  induction s as [|d s IH]; [reflexivity|]. cbn.
  intros H. apply andb_true_iff in H. destruct H as [Hd Hs].
  destruct (is_space d); [auto|]. cbn. now rewrite Hd, Hs.
Qed.

Lemma lacks_trim c s : lacks c s = true -> lacks c (trim s) = true.
Proof.
  intros H. unfold trim, trimEnd.
  rewrite lacks_rev. apply lacks_trimStart.
  rewrite lacks_rev. now apply lacks_trimStart.
Qed.

Lemma lacks_take c n s : lacks c s = true -> lacks c (take n s) = true.
Proof.
  revert s. induction n as [|n IH]; intros [|d s]; cbn; auto.
  intros H. apply andb_true_iff in H. destruct H as [Hd Hs].
  now rewrite Hd, IH.
Qed.

Lemma indexOf_lacks c s :
  lacks c s = true -> indexOf s (str1 c) = None.
Proof.
  induction s as [|d s IH]; [reflexivity|]. cbn.
  intros H. apply andb_true_iff in H. destruct H as [Hd Hs].
  apply negb_true_iff in Hd. rewrite Hd. cbn. now rewrite IH.
Qed.

Lemma indexOf_first c a b :
  lacks c a = true ->
  indexOf (a ++ String c b) (str1 c) = Some (String.length a).
Proof.
  induction a as [|d a IH]; cbn.
  - intros _. rewrite Ascii.eqb_refl. now destruct b.
  - intros H. apply andb_true_iff in H. destruct H as [Hd Ha].
    apply negb_true_iff in Hd. rewrite Hd. cbn. now rewrite IH.
Qed.

Lemma indexOf_before c s i :
  indexOf s (str1 c) = Some i -> lacks c (take i s) = true.
Proof.
  revert i. induction s as [|d s IH]; intros i; cbn.
  - discriminate.
  - destruct (Ascii.eqb c d) eqn:E; cbn.
    + rewrite startsWith_nil. intros H. injection H as <-. reflexivity.
    + destruct (indexOf s (str1 c)) as [j|]; cbn; [|discriminate].
      intros H. injection H as <-. cbn. rewrite E. cbn. now apply IH.
Qed.

Lemma indexOf_absent c s :
  indexOf s (str1 c) = None -> lacks c s = true.
Proof.
  induction s as [|d s IH]; cbn; [reflexivity|].
  destruct (Ascii.eqb c d) eqn:E; cbn.
  - rewrite startsWith_nil. discriminate.
  - destruct (indexOf s (str1 c)); cbn; [discriminate|]. auto.
Qed.

(** ** cleanValue *)

(** X9 (cleanValue cuts a trailing comment).  In a value, everything
    from the first [#] on is dropped, wherever it stands - also inside a
    quoted string: the value [a # b], [a] holding no [#], is cleaned to
    what [a] alone is cleaned to. *)
Theorem cleanValue_cuts_at_the_first_hash
  (a b : string) (Hfirst : lacks "#" a = true) :
  cleanValue (a ++ "#" ++ b) = cleanValue a.
Proof.
  assert (Htrim : trim (a ++ String "#" b)
                  = trimStart a ++ String "#" (trimEnd b)).
  { unfold trim. rewrite trimStart_app by reflexivity.
    apply trimEnd_app. reflexivity. }
  unfold cleanValue.
  replace (is_empty (a ++ "#" ++ b)) with false by (now destruct a).
  change (a ++ "#" ++ b) with (a ++ String "#" b). rewrite Htrim.
  change "#" with (str1 "#"%char).
  rewrite indexOf_first by (now apply lacks_trimStart).
  rewrite take_app, trim_trimStart.
  destruct a as [|c a']; [reflexivity|]. cbn [is_empty].
  rewrite (indexOf_lacks _ _ (lacks_trim _ _ Hfirst)). reflexivity.
Qed.

Lemma cleanValue_comment_witness :
  cleanValue (q "'ami-1'   " ++ "#" ++ " the image") = q "'ami-1'".
Proof.
  rewrite (@cleanValue_cuts_at_the_first_hash (q "'ami-1'   ") " the image").
  - reflexivity.
  - reflexivity.
Defined.

(** A [#] inside a quoted string is taken for a comment as well. *)
Example hash_inside_a_string :
  cleanValue (q "'#ff0000'") = str1 dquote.
Proof. reflexivity. Qed.

(** X10 (the shape of a cleaned value).  Whatever the value, the result
    of cleanValue holds no [#] and has no white space at either end:
    trimming it again changes nothing. *)
Theorem cleaned_value_is_trimmed_and_without_hash (value : string) :
  lacks "#" (cleanValue value) = true
  /\ trim (cleanValue value) = cleanValue value.
Proof.
  unfold cleanValue. destruct (is_empty value); [split; reflexivity|].
  change "#" with (str1 "#"%char).
  destruct (indexOf (trim value) (str1 "#"%char)) as [i|] eqn:Hi.
  - apply indexOf_before in Hi.
    destruct (endsWith _ ","); split;
      auto using trim_idempotent, lacks_trim, lacks_take.
  - apply indexOf_absent in Hi.
    destruct (endsWith _ ","); split;
      auto using trim_idempotent, lacks_trim, lacks_take.
Qed.

(** ** hasMatchingBraces *)

Lemma braces_scan_unquoted a : forall rest n,
  unquoted a = true ->
  braces_scan (a ++ rest) n false false
  = braces_scan rest (n + count_char "{" a - count_char "}" a)%Z false false.
Proof.
  unfold unquoted.
  induction a as [|c a IH]; intros rest n H; cbn [append braces_scan count_char].
  - f_equal. lia.
  - cbn [lacks] in H. rewrite !andb_true_iff, !negb_true_iff in H.
    destruct H as [[Hq Ha] [Hb Ha']].
    rewrite Ascii.eqb_sym in Hq. rewrite Ascii.eqb_sym in Hb.
    rewrite Hb, Hq. cbn [negb].
    assert (Hu : lacks dquote a && lacks bslash a = true)
      by (now rewrite Ha, Ha').
    rewrite (Ascii.eqb_sym "{" c), (Ascii.eqb_sym "}" c).
    destruct (Ascii.eqb c "{") eqn:E1.
    + apply Ascii.eqb_eq in E1. subst c. cbn [Ascii.eqb Bool.eqb andb].
      rewrite IH by exact Hu. f_equal. lia.
    + destruct (Ascii.eqb c "}") eqn:E2; rewrite IH by exact Hu; f_equal; lia.
Qed.

Lemma braces_scan_in_string l : forall rest n,
  unquoted l = true ->
  braces_scan (l ++ rest) n true false = braces_scan rest n true false.
Proof.
  unfold unquoted.
  induction l as [|c l IH]; intros rest n H; cbn [append braces_scan].
  - reflexivity.
  - cbn [lacks] in H. rewrite !andb_true_iff, !negb_true_iff in H.
    destruct H as [[Hq Hl] [Hb Hl']].
    rewrite Ascii.eqb_sym in Hq. rewrite Ascii.eqb_sym in Hb.
    rewrite Hb, Hq. cbn [negb]. apply IH. now rewrite Hl, Hl'.
Qed.

(** X11 (hasMatchingBraces counts, outside strings).  On a text without
    double quotes and backslashes the test holds exactly when the text
    has as many [{] as [}], in whatever order they come.  Braces between
    two double quotes do not count: a string literal without quotes and
    backslashes inside, put after such a text, changes nothing. *)
Theorem hasMatchingBraces_counts_outside_strings
  (a l b : string) (Ha : unquoted a = true) (Hl : unquoted l = true) :
  hasMatchingBraces a = Z.eqb (count_char "{" a) (count_char "}" a)
  /\ hasMatchingBraces (a ++ str1 dquote ++ l ++ str1 dquote ++ b)
     = hasMatchingBraces (a ++ b).
Proof.
  unfold hasMatchingBraces. split.
  - rewrite <- (append_nil_r a) at 1.
    rewrite braces_scan_unquoted by exact Ha. cbn [braces_scan].
    destruct (Z.eqb_spec (count_char "{" a) (count_char "}" a)) as [E|E].
    + apply Z.eqb_eq. lia.
    + apply Z.eqb_neq. lia.
  - rewrite (@braces_scan_unquoted a b 0%Z Ha).
    rewrite (@braces_scan_unquoted a _ 0%Z Ha).
    cbn [append str1 braces_scan]. rewrite Ascii.eqb_refl.
    change (Ascii.eqb dquote bslash) with false. cbn [negb].
    rewrite braces_scan_in_string by exact Hl.
    cbn [braces_scan]. rewrite Ascii.eqb_refl.
    change (Ascii.eqb dquote bslash) with false. reflexivity.
Qed.

Lemma closing_before_opening_witness :
  hasMatchingBraces "}{" = true
  /\ hasMatchingBraces ("{ a = " ++ str1 dquote ++ "}}" ++ str1 dquote ++ " }")
     = hasMatchingBraces ("{ a = " ++ " }").
Proof.
  pose proof (@hasMatchingBraces_counts_outside_strings "}{" "" ""
                eq_refl eq_refl) as H1.
  pose proof (@hasMatchingBraces_counts_outside_strings "{ a = " "}}" " }"
                eq_refl eq_refl) as H2.
  split; [exact (proj1 H1) | exact (proj2 H2)].
Defined.

(** ** extractVariableReferences *)

Lemma mem_In x xs : mem x xs = true <-> In x xs.
Proof.
  induction xs as [|y xs IH]; cbn.
  - split; [discriminate | tauto].
  - rewrite orb_true_iff, IH, String.eqb_eq. split; intros [H|H]; auto.
Qed.

Lemma dedup_from_spec xs : forall seen,
  NoDup (dedup_from seen xs)
  /\ forall x, In x (dedup_from seen xs) <-> (In x xs /\ ~ In x seen).
Proof.
  induction xs as [|y xs IH]; intros seen; cbn [dedup_from].
  - split; [constructor|]. intros x. cbn. tauto.
  - destruct (mem y seen) eqn:Hm.
    + destruct (IH seen) as [Hnd Hin]. split; [exact Hnd|].
      intros x. rewrite Hin. apply mem_In in Hm. cbn.
      split; [tauto|]. intros [[->|H] Hs]; [contradiction | auto].
    + destruct (IH (y :: seen)) as [Hnd Hin].
      assert (Hy : ~ In y seen).
      { intros H. apply mem_In in H. congruence. }
      split.
      * constructor; [|exact Hnd]. rewrite Hin. cbn. tauto.
      * intros x. cbn. rewrite Hin. cbn.
        destruct (String.eqb_spec y x) as [->|Hne]; [tauto|]. tauto.
Qed.

(** ** The matcher *)

(** The iteration inside [rmatch] for a greedy and for a lazy star. *)
Local Abbreviation star_fix a k :=
  (fix loop (n : nat) (s : mstate) {struct n} : option mstate :=
     match n with
     | O => k s
     | S n' =>
         orelse
           (rmatch a (fun s' => if Nat.ltb (pos s) (pos s')
                                then loop n' s' else None) s)
           (fun _ => k s)
     end).

Local Abbreviation lazy_fix a k :=
  (fix loop (n : nat) (s : mstate) {struct n} : option mstate :=
     match n with
     | O => k s
     | S n' =>
         orelse (k s)
           (fun _ => rmatch a (fun s' => if Nat.ltb (pos s) (pos s')
                                         then loop n' s' else None) s)
     end).

Lemma rmatch_star a k s :
  rmatch (Star a) k s = star_fix a k (S (String.length (rest s))) s.
Proof. reflexivity. Qed.

Lemma rmatch_lazy a k s :
  rmatch (LazyStar a) k s = lazy_fix a k (S (String.length (rest s))) s.
Proof. reflexivity. Qed.

Lemma star_fix_S a k n s :
  star_fix a k (S n) s
  = orelse (rmatch a (fun s' => if Nat.ltb (pos s) (pos s')
                                then star_fix a k n s' else None) s)
      (fun _ => k s).
Proof. reflexivity. Qed.

Lemma lazy_fix_S a k n s :
  lazy_fix a k (S n) s
  = orelse (k s)
      (fun _ => rmatch a (fun s' => if Nat.ltb (pos s) (pos s')
                                    then lazy_fix a k n s' else None) s).
Proof. reflexivity. Qed.

Lemma rmatch_cls p k s :
  rmatch (Cls p) k s
  = match rest s with
    | String c t => if p c then k (step s c t) else None
    | EmptyString => None
    end.
Proof. reflexivity. Qed.

(** If a pattern fails with one continuation, it fails with any
    continuation that fails at least where the first does. *)
Section StarFails.
Variable a : re.
Hypothesis IHa : forall k k' s,
  (forall s', k s' = None -> k' s' = None) ->
  rmatch a k s = None -> rmatch a k' s = None.
Variables k k' : mstate -> option mstate.
Hypothesis Hk : forall s', k s' = None -> k' s' = None.

Lemma star_fix_fail_mono : forall n s,
  star_fix a k n s = None -> star_fix a k' n s = None.
Proof.
  induction n as [|n IHn]; intros s; [apply Hk|].
  lazy beta iota fix. unfold orelse.
  destruct (rmatch a _ s) eqn:Ea; [discriminate|].
  intros Hks. erewrite IHa; [apply Hk; exact Hks | | exact Ea].
  intros s'. cbv beta.
  destruct (Nat.ltb (pos s) (pos s')); [apply IHn | reflexivity].
Qed.

Lemma lazy_fix_fail_mono : forall n s,
  lazy_fix a k n s = None -> lazy_fix a k' n s = None.
Proof.
  induction n as [|n IHn]; intros s; [apply Hk|].
  lazy beta iota fix. unfold orelse.
  destruct (k s) eqn:Eks; [discriminate|].
  rewrite (@Hk _ Eks). apply IHa.
  intros s'. cbv beta.
  destruct (Nat.ltb (pos s) (pos s')); [apply IHn | reflexivity].
Qed.

End StarFails.

Lemma rmatch_fail_mono r : forall k k' s,
  (forall s', k s' = None -> k' s' = None) ->
  rmatch r k s = None -> rmatch r k' s = None.
Proof.
  induction r as [|p|a IHa b IHb|a IHa b IHb|a IHa|a IHa|n a IHa|m|m| |a IHa|n];
    intros k k' s Hk.
  - apply Hk.
  - cbn [rmatch]. destruct (rest s) as [|c t]; [auto|].
    destruct (p c); [apply Hk | auto].
  - cbn [rmatch]. apply IHa. intros s'. apply IHb. exact Hk.
  - cbn [rmatch]. unfold orelse.
    destruct (rmatch a k s) eqn:Ea; [discriminate|].
    intros Hb. rewrite (IHa _ _ _ Hk Ea). exact (IHb _ _ _ Hk Hb).
  - exact (@star_fix_fail_mono a IHa k k' Hk (S (String.length (rest s))) s).
  - exact (@lazy_fix_fail_mono a IHa k k' Hk (S (String.length (rest s))) s).
  - cbn [rmatch]. apply IHa. intros s'. apply Hk.
  - cbn [rmatch]. destruct (at_bol m s); [apply Hk | auto].
  - cbn [rmatch]. destruct (at_eol m s); [apply Hk | auto].
  - cbn [rmatch]. destruct (xorb _ _); [apply Hk | auto].
  - cbn [rmatch]. destruct (rmatch a _ s); [apply Hk | auto].
  - cbn [rmatch]. destruct (get_cap n (caps s)); [|apply Hk].
    destruct (eat _ s); [apply Hk | auto].
Qed.

Lemma rmatch_cat_tail a x y k k' s :
  (forall s', rmatch x k s' = None -> rmatch y k' s' = None) ->
  rmatch (Cat a x) k s = None -> rmatch (Cat a y) k' s = None.
Proof. intros H. cbn [rmatch]. apply rmatch_fail_mono. exact H. Qed.

(** A greedy star never fails before a continuation that never fails. *)
Lemma star_fix_total a k :
  (forall s', k s' <> None) -> forall n s, star_fix a k n s <> None.
Proof.
  intros Hk. induction n as [|n IHn]; intros s; [apply Hk|].
  lazy beta iota fix. unfold orelse.
  destruct (rmatch a _ s); [discriminate | apply Hk].
Qed.

Lemma rmatch_star_total a k s :
  (forall s', k s' <> None) -> rmatch (Star a) k s <> None.
Proof.
  intros Hk. exact (@star_fix_total a k Hk (S (String.length (rest s))) s).
Qed.

Lemma search_fail_mono r r' :
  (forall s, match_at r s = None -> match_at r' s = None) ->
  forall fuel s, search r fuel s = None -> search r' fuel s = None.
Proof.
  intros H. induction fuel as [|f IH]; intros s; cbn [search].
  - destruct (match_at r s) eqn:E; [discriminate|]. rewrite (H _ E).
    destruct (rest s); reflexivity.
  - destruct (match_at r s) eqn:E; [discriminate|]. rewrite (H _ E).
    destruct (rest s); [reflexivity|]. apply IH.
Qed.

Lemma match_at_none r s : match_at r s = None <-> rmatch r (fun s' => Some s') s = None.
Proof.
  unfold match_at. destruct (rmatch r _ s); split; intros H; congruence.
Qed.

(** ** extractVariableReferences *)

Lemma rmatch_lit l : forall k s,
  rmatch (lit l) k s <> None -> startsWith (rest s) l = true.
Proof.
  induction l as [|c l IH]; intros k s; cbn [lit].
  - intros _. apply startsWith_nil.
  - cbn [rmatch]. unfold chr. rewrite rmatch_cls.
    destruct (rest s) as [|d t]; [congruence|]. cbn [startsWith].
    destruct (Ascii.eqb c d); [|congruence].
    intros H. apply IH in H. exact H.
Qed.

Lemma lacks_prefix c s p :
  lacks c s = true -> startsWith s p = true -> lacks c p = true.
Proof.
  revert s. induction p as [|a p IH]; intros s Hs Hp; [reflexivity|].
  destruct s as [|b s]; [discriminate|]. cbn in *.
  apply andb_true_iff in Hs, Hp. destruct Hs as [Hb Hs], Hp as [Hab Hp].
  apply Ascii.eqb_eq in Hab. subst b. rewrite Hb. cbn. eauto.
Qed.

(** A pattern that starts at a word boundary with a literal holding a
    dot finds nothing in a text without dot. *)
Lemma search_dotted l x : lacks "." l = false -> forall fuel s,
  lacks "." (rest s) = true ->
  search (Cat Wb (Cat (lit l) x)) fuel s = None.
Proof.
  intros Hl.
  assert (Hat : forall s, lacks "." (rest s) = true ->
                  match_at (Cat Wb (Cat (lit l) x)) s = None).
  { intros s Hs. apply match_at_none. cbn [rmatch].
    destruct (xorb _ _); [|reflexivity].
    destruct (rmatch (lit l) _ s) eqn:E; [|reflexivity].
    assert (Hp : startsWith (rest s) l = true).
    { eapply rmatch_lit. rewrite E. discriminate. }
    rewrite (@lacks_prefix _ _ _ Hs Hp) in Hl. discriminate. }
  induction fuel as [|f IH]; intros s Hs; cbn [search]; rewrite (Hat s Hs).
  - destruct (rest s); reflexivity.
  - destruct (rest s) as [|c t] eqn:Er; [reflexivity|].
    apply IH. cbn [rest]. cbn in Hs. apply andb_true_iff in Hs. apply Hs.
Qed.

Lemma all_matches_dotted l x subject :
  lacks "." l = false -> lacks "." subject = true ->
  all_matches (Cat Wb (Cat (lit l) x)) subject = [].
Proof.
  intros Hl Hs. unfold all_matches. cbn [all_matches_from].
  rewrite search_dotted; auto.
Qed.

Lemma no_references_without_dot value :
  lacks "." value = true -> extractVariableReferences value = [].
Proof.
  intros Hv. unfold extractVariableReferences. cbn [seq].
  rewrite !all_matches_dotted by (exact Hv || reflexivity).
  reflexivity.
Qed.

(** X12 (each reference once, and none without a dot).
    extractVariableReferences returns each reference text once, however
    often the value mentions it; and a value without dot holds no
    reference at all. *)
Theorem references_are_listed_once (value : string) :
  NoDup (extractVariableReferences value)
  /\ (lacks "." value = true -> extractVariableReferences value = []).
Proof.
  split.
  - unfold extractVariableReferences, dedup.
    match goal with |- NoDup (dedup_from [] ?xs) =>
      exact (proj1 (dedup_from_spec xs [])) end.
  - apply no_references_without_dot.
Qed.

Lemma no_reference_witness : extractVariableReferences "eu-west-1" = [].
Proof.
  apply (@references_are_listed_once "eu-west-1"). reflexivity.
Defined.

Example repeated_reference :
  extractVariableReferences "${var.env}-${var.env}-${local.tier}"
  = ["var.env"; "local.tier"].
Proof. vm_compute. reflexivity. Qed.

(** ** parseOutputBlock *)

(** X13 (an output gives the first line of its value).  The second
    pattern of parseOutputBlock, meant for values in braces that span
    lines, is tried only where the first one - [value = ] and the rest of
    the line - has failed, and there it fails too.  So parseOutputBlock
    returns, for the first output block of the name, the cleaned rest of
    the first line that assigns [value], and null when the block has no
    such line or the content no such block: a value in braces that spans
    lines comes back as its first line. *)
Theorem output_value_is_its_first_line (content outputName : string) :
  parseOutputBlock content outputName
  = match output_body content outputName with
    | Some outputContent => value_line outputContent
    | None => None
    end.
Proof.
  unfold parseOutputBlock, output_body, value_line.
  destruct (exec _ content) as [m|]; [|reflexivity].
  match goal with |- context [exec ?r1 ?body] =>
    destruct (exec r1 body) as [vm|] eqn:E1; [reflexivity|] end.
  match goal with |- match exec ?r2 ?body with _ => _ end = None =>
    replace (exec r2 body) with (@None rmatch_result); [reflexivity|] end.
  symmetry. revert E1. unfold exec. apply search_fail_mono.
  intros s. rewrite !match_at_none. unfold block_body. cbn [seq app].
  apply rmatch_cat_tail. intros s1. apply rmatch_cat_tail. intros s2.
  apply rmatch_cat_tail. intros s3. apply rmatch_cat_tail.
  intros s' Hs'. exfalso. revert Hs'.
  change (rmatch (Star (none_of nl))
            (fun s'' => Some (MState (prev s'') (rest s'') (pos s'')
                                (set_cap 1 (take (pos s'' - pos s') (rest s'))
                                   (caps s''))))
            s' <> None).
  apply rmatch_star_total. discriminate.
Qed.

Example output_object_is_cut :
  parseOutputBlock
    (unlines [q "output 'tags' {"; "  value = {"; q "    env = 'prod'"; "  }"; "}"])
    "tags"
  = Some "{".
Proof. vm_compute. reflexivity. Qed.

(** ** parseModuleVariables *)

Lemma get_cap_set_cap_same n v cs : get_cap n (set_cap n v cs) = Some v.
Proof.
  induction cs as [|[m w] cs IH]; cbn.
  - now rewrite Nat.eqb_refl.
  - destruct (Nat.eqb n m) eqn:E; cbn; rewrite E; auto.
Qed.

Lemma get_cap_set_cap_other n m v cs :
  Nat.eqb n m = false -> get_cap n (set_cap m v cs) = get_cap n cs.
Proof.
  intros Hne. induction cs as [|[m' w] cs IH]; cbn.
  - now rewrite Hne.
  - destruct (Nat.eqb m m') eqn:E; cbn.
    + apply Nat.eqb_eq in E. subst m'. now rewrite Hne.
    + destruct (Nat.eqb n m'); auto.
Qed.

Lemma eat_caps l : forall s s', eat l s = Some s' -> caps s' = caps s.
Proof.
  induction l as [|c l IH]; intros s s'; cbn.
  - intros H. now injection H as <-.
  - destruct (rest s) as [|d t]; [discriminate|].
    destruct (Ascii.eqb c d); [|discriminate].
    intros H. apply IH in H. exact H.
Qed.

(** A successful match has gone through its continuation, and a pattern
    without group [n] hands the capture of group [n] on as it found it. *)
Section StarKeeps.
Variable n : nat.
Variable a : re.
Hypothesis IHa : forall k s sf,
  rmatch a k s = Some sf ->
  exists sm, k sm = Some sf /\ get_cap n (caps sm) = get_cap n (caps s).
Variable k : mstate -> option mstate.
Variable sf : mstate.

Lemma star_fix_keeps : forall i s,
  star_fix a k i s = Some sf ->
  exists sm, k sm = Some sf /\ get_cap n (caps sm) = get_cap n (caps s).
Proof.
  induction i as [|i IHi]; intros s; [eauto|].
  lazy beta iota fix. unfold orelse.
  destruct (rmatch a _ s) eqn:Ea.
  - intros H. injection H as <-.
    destruct (IHa _ _ Ea) as (s1 & H1 & E1). cbv beta in H1.
    destruct (Nat.ltb (pos s) (pos s1)); [|discriminate].
    destruct (IHi _ H1) as (sm & Hm & Em).
    exists sm. split; [exact Hm | congruence].
  - eauto.
Qed.

Lemma lazy_fix_keeps : forall i s,
  lazy_fix a k i s = Some sf ->
  exists sm, k sm = Some sf /\ get_cap n (caps sm) = get_cap n (caps s).
Proof.
  induction i as [|i IHi]; intros s; [eauto|].
  lazy beta iota fix. unfold orelse. destruct (k s) eqn:Eks.
  - intros H. injection H as <-. eauto.
  - intros H.
    destruct (IHa _ _ H) as (s1 & H1 & E1). cbv beta in H1.
    destruct (Nat.ltb (pos s) (pos s1)); [|discriminate].
    destruct (IHi _ H1) as (sm & Hm & Em).
    exists sm. split; [exact Hm | congruence].
Qed.

End StarKeeps.

Lemma rmatch_keeps n r : keeps n r = true -> forall k s sf,
  rmatch r k s = Some sf ->
  exists sm, k sm = Some sf /\ get_cap n (caps sm) = get_cap n (caps s).
Proof.
  induction r as [|p|a IHa b IHb|a IHa b IHb|a IHa|a IHa|m a IHa|m|m| |a IHa|m];
    intros Hkeep k s sf; cbn [keeps] in Hkeep.
  - cbn [rmatch]. eauto.
  - cbn [rmatch]. destruct (rest s) as [|c t]; [discriminate|].
    destruct (p c); [|discriminate].
    intros H. eexists. split; [exact H|reflexivity].
  - cbn [rmatch]. apply andb_true_iff in Hkeep. destruct Hkeep as [Ha Hb].
    intros H.
    destruct (IHa Ha _ _ _ H) as (s1 & H1 & E1).
    destruct (IHb Hb _ _ _ H1) as (sm & Hm & Em).
    exists sm. split; [exact Hm | congruence].
  - cbn [rmatch]. apply andb_true_iff in Hkeep. destruct Hkeep as [Ha Hb].
    unfold orelse. destruct (rmatch a k s) eqn:Ea.
    + intros H. injection H as <-. eauto.
    + eauto.
  - exact (@star_fix_keeps n a (IHa Hkeep) k sf (S (String.length (rest s))) s).
  - exact (@lazy_fix_keeps n a (IHa Hkeep) k sf (S (String.length (rest s))) s).
  - cbn [rmatch]. apply andb_true_iff in Hkeep. destruct Hkeep as [Hnm Ha].
    apply negb_true_iff in Hnm. intros H.
    destruct (IHa Ha _ _ _ H) as (s1 & H1 & E1). cbv beta in H1.
    eexists. split; [exact H1|]. cbn [caps].
    rewrite get_cap_set_cap_other by exact Hnm. exact E1.
  - cbn [rmatch]. destruct (at_bol m s); [eauto | discriminate].
  - cbn [rmatch]. destruct (at_eol m s); [eauto | discriminate].
  - cbn [rmatch]. destruct (xorb _ _); [eauto | discriminate].
  - cbn [rmatch].
    destruct (rmatch a (fun s' => Some s') s) as [s'|] eqn:Ea; [|discriminate].
    intros H. destruct (IHa Hkeep _ _ _ Ea) as (s1 & H1 & E1).
    injection H1 as ->. eexists. split; [exact H|]. exact E1.
  - cbn [rmatch]. destruct (get_cap m (caps s)) as [v|]; [|eauto].
    destruct (eat v s) as [s'|] eqn:Ee; [|discriminate].
    intros H. exists s'. split; [exact H|]. now rewrite (eat_caps _ _ Ee).
Qed.

(** What a greedy star over a character class has consumed before its
    continuation succeeds either is nothing or starts with a character
    of the class. *)
Lemma star_fix_cls p k sf : forall i s,
  star_fix (Cls p) k i s = Some sf ->
  exists sp sm,
    rest s = sp ++ rest sm /\ k sm = Some sf
    /\ (sp = EmptyString \/ exists c t, sp = String c t /\ p c = true).
Proof.
  induction i as [|i IHi]; intros s.
  - intros H. exists EmptyString, s. auto.
  - lazy beta iota fix. unfold orelse at 1. rewrite rmatch_cls.
    destruct (rest s) as [|c t] eqn:Er.
    + intros H. exists EmptyString, s. rewrite Er. auto.
    + destruct (p c) eqn:Hp.
      * destruct (Nat.ltb (pos s) (pos (step s c t))).
        -- destruct (star_fix (Cls p) k i (step s c t)) eqn:El.
           ++ intros H. injection H as <-.
              destruct (IHi _ El) as (sp & sm & Hr & Hk & _).
              exists (String c sp), sm. cbn [rest step] in Hr.
              rewrite Hr. split; [reflexivity|]. split; [exact Hk|].
              right. eauto.
           ++ intros H. exists EmptyString, s. rewrite Er. auto.
        -- intros H. exists EmptyString, s. rewrite Er. auto.
      * intros H. exists EmptyString, s. rewrite Er. auto.
Qed.

Lemma rmatch_star_cls p k s sf :
  rmatch (Star (Cls p)) k s = Some sf ->
  exists sp sm,
    rest s = sp ++ rest sm /\ k sm = Some sf
    /\ (sp = EmptyString \/ exists c t, sp = String c t /\ p c = true).
Proof. exact (@star_fix_cls p k sf (S (String.length (rest s))) s). Qed.

Lemma search_anchored x : forall fuel s,
  prev s <> None -> search (Cat (Bol false) x) fuel s = None.
Proof.
  induction fuel as [|f IH]; intros s Hp; cbn [search].
  - unfold match_at. cbn [rmatch]. unfold at_bol.
    destruct (prev s); [|congruence]. cbn. destruct (rest s); reflexivity.
  - unfold match_at. cbn [rmatch]. unfold at_bol.
    destruct (prev s); [|congruence]. cbn.
    destruct (rest s); [reflexivity|]. apply IH. discriminate.
Qed.

Lemma exec_anchored x subject m :
  exec (Cat (Bol false) x) subject = Some m ->
  match_at (Cat (Bol false) x) (start_of subject) = Some m.
Proof.
  unfold exec. generalize (String.length subject). intros f.
  destruct f as [|f]; cbn [search];
    destruct (match_at (Cat (Bol false) x) (start_of subject)) as [m'|];
    auto; cbn [rest start_of]; destruct subject as [|c t]; try discriminate.
  rewrite search_anchored; discriminate.
Qed.

(** The pattern of parseModuleVariables, [^\s*(\w+)\s*=\s*(.+)$], on a
    line without white space in front: its first group is a prefix of the
    line. *)
Lemma module_line_key line m v :
  (line = EmptyString \/ exists c t, line = String c t /\ is_space c = false) ->
  exec (seq [Bol false; Star space; Grp 1 (plus word); Star space;
             chr "="; Star space; Grp 2 (plus dot); Eol false]) line = Some m ->
  group 1 m = Some v ->
  exists j, v = take j line.
Proof.
  intros Hhead Hexec Hgroup. cbn [seq] in Hexec.
  apply exec_anchored in Hexec. unfold match_at in Hexec.
  destruct (rmatch _ _ (start_of line)) as [sf|] eqn:Hm; [|discriminate].
  injection Hexec as <-. unfold group in Hgroup. cbn [m_caps] in Hgroup.
  cbn [rmatch] in Hm. unfold at_bol in Hm. cbn [prev start_of] in Hm.
  fold (rmatch (Star space)) in Hm.
  change (rmatch (Star space)
            (rmatch (Cat (Grp 1 (plus word))
                       (seq [Star space; chr "="; Star space; Grp 2 (plus dot);
                             Eol false]))
               (fun s' => Some s')) (start_of line) = Some sf) in Hm.
  apply rmatch_star_cls in Hm. destruct Hm as (sp & s1 & Hr & Hm & Hsp).
  cbn [rest start_of] in Hr.
  assert (Hs1 : rest s1 = line).
  { destruct Hsp as [->|(c & t & -> & Hc)]; [now rewrite Hr|].
    destruct Hhead as [->|(c' & t' & -> & Hc')]; [discriminate|].
    cbn in Hr. injection Hr as -> _. change (is_space c = true) in Hc. congruence. }
  cbn [rmatch] in Hm.
  fold (rmatch (plus word)) in Hm.
  change (rmatch (plus word)
            (fun s' =>
               rmatch (seq [Star space; chr "="; Star space; Grp 2 (plus dot);
                            Eol false]) (fun s'' => Some s'')
                 (MState (prev s') (rest s') (pos s')
                    (set_cap 1 (take (pos s' - pos s1) (rest s1)) (caps s'))))
            s1 = Some sf) in Hm.
  destruct (@rmatch_keeps 1 (plus word) eq_refl _ _ _ Hm) as (s2 & Hm2 & _).
  destruct (@rmatch_keeps 1
              (seq [Star space; chr "="; Star space; Grp 2 (plus dot); Eol false])
              eq_refl _ _ _ Hm2) as (s3 & Hm3 & Hcap).
  injection Hm3 as ->. cbn [caps] in Hcap.
  rewrite get_cap_set_cap_same in Hcap. rewrite Hcap in Hgroup.
  injection Hgroup as <-. rewrite Hs1. eauto.
Qed.

Lemma startsWith_take n s p :
  startsWith (take n s) p = true -> startsWith s p = true.
Proof.
  revert n s. induction p as [|a p IH]; intros n s;
    [intros _; apply startsWith_nil|].
  destruct n as [|n], s as [|b s]; cbn; try discriminate.
  intros H. apply andb_true_iff in H. destruct H as [Hab H].
  rewrite Hab. cbn. eauto.
Qed.

Lemma var_get_var_set_other k k' v vs :
  String.eqb k k' = false -> var_get k (var_set k' v vs) = var_get k vs.
Proof.
  intros Hne. induction vs as [|[k0 v0] vs IH]; cbn.
  - now rewrite Hne.
  - destruct (String.eqb k' k0) eqn:E; cbn.
    + apply String.eqb_eq in E. subst k0. now rewrite Hne.
    + destruct (String.eqb k k0); auto.
Qed.

Lemma parseModuleVariables_lines_source lines : forall variables,
  (forall key, startsWith key "source" = true -> var_get key variables = None) ->
  forall key, startsWith key "source" = true ->
    var_get key (parseModuleVariables_lines lines variables) = None.
Proof.
  induction lines as [|line lines IH]; intros variables Hvs; [exact Hvs|].
  cbn [parseModuleVariables_lines]. cbv zeta.
  destruct (startsWith (trim line) "source") eqn:Hsrc; [now apply IH|].
  cbn [orb].
  destruct (startsWith (trim line) "#" || negb (includes (trim line) "="))%bool;
    [now apply IH|].
  match goal with |- context [exec ?r (trim line)] =>
    destruct (exec r (trim line)) as [m|] eqn:Hexec end; [|now apply IH].
  apply IH. intros key Hkey.
  destruct (group 1 m) as [v|] eqn:Hg.
  - destruct (module_line_key (trim_head line) Hexec Hg) as (j & ->).
    destruct (String.eqb (take j (trim line)) "__proto__"); [auto|].
    rewrite var_get_var_set_other; [auto|].
    apply String.eqb_neq. intros ->.
    apply startsWith_take in Hkey. congruence.
  - cbn. rewrite var_get_var_set_other; [auto|].
    apply String.eqb_neq. intros ->. discriminate.
Qed.

(** X14 (a module input whose name starts with source is not recorded).
    parseModuleVariables skips every line that, trimmed, starts with the
    word source: not only the source line of the module, also an
    argument such as [source_dir = ...].  So the inputs it returns never
    hold a key that starts with source, whatever the module body is. *)
Theorem inputs_named_source_are_dropped
  (moduleContent key : string) (Hkey : startsWith key "source" = true) :
  var_get key (parseModuleVariables moduleContent) = None.
Proof.
  unfold parseModuleVariables.
  apply parseModuleVariables_lines_source; [|exact Hkey].
  intros k _. reflexivity.
Qed.

Example other_inputs_are_recorded :
  parseModuleVariables
    (unlines [q "  source = './child'"; q "  source_dir = 'dist'"; "  size = var.env_size"])
  = [("size", "var.env_size")].
Proof. vm_compute. reflexivity. Qed.

Lemma source_input_witness :
  var_get "source_dir"
    (parseModuleVariables
       (unlines [q "  source = './child'"; q "  source_dir = 'dist'";
                 "  size = var.env_size"]))
  = None.
Proof.
  apply (@inputs_named_source_are_dropped _ "source_dir"). reflexivity.
Defined.

End ParserProperties.

(* ================================================================== *)
(** * Further properties of the resolver *)
(* ================================================================== *)

Module ResolverProperties.
Import Js Regex Json TerraformParser Effects Resolver Notions Laws Properties.
Import Shapes ParserProperties.
Local Open Scope resolver_scope.

Lemma assoc_get_assoc_set k k' v m :
  assoc_get k (assoc_set k' v m)
  = if String.eqb k k' then Some v else assoc_get k m.
Proof.
  induction m as [|[k0 v0] m IH]; cbn.
  - reflexivity.
  - destruct (String.eqb k' k0) eqn:E; cbn.
    + apply String.eqb_eq in E. subst k0.
      destruct (String.eqb k k'); reflexivity.
    + destruct (String.eqb k k0) eqn:E0; [|exact IH].
      apply String.eqb_eq in E0. subst k0.
      rewrite String.eqb_sym in E. now rewrite E.
Qed.

Section ModulePaths.
Variable fs : FileSystem.
Variable workspaceRoot : string.
Variable cwd : string.

Local Abbreviation sound := (yields_sound_paths fs workspaceRoot).

Lemma sound_ret_none : sound (ret None).
Proof. intros s Hs. split; [exact Hs | discriminate]. Qed.

Lemma sound_throw : sound throw.
Proof. intros s Hs. split; [exact Hs | discriminate]. Qed.

Lemma sound_try_catch (m h : M (option string)) :
  sound m -> sound h -> sound (try_catch m h).
Proof.
  intros Hm Hh s Hs. unfold try_catch.
  destruct (Hm s Hs) as [H1 H2].
  destruct (m s) as [[o| |] s']; cbn [fst snd] in *.
  - auto.
  - apply Hh. exact H1.
  - split; [exact H1 | discriminate].
Qed.

(** The candidate directory of a source, checked and memoised. *)
Lemma sound_candidate key candidatePath :
  sound (r <- (ex <- directoryExists fs candidatePath ;;
               ret (if ex then Some candidatePath else None)) ;;
         match r with
         | Some p =>
             if (negb (is_empty p) && isWithinWorkspace workspaceRoot p)%bool
             then paths_set key p ;;; ret (Some p)
             else ret None
         | None => ret None
         end).
Proof.
  intros s Hs. unfold bind, directoryExists, ret. cbn.
  destruct (fs_isDirectory fs candidatePath) eqn:Hd; cbn.
  - destruct (is_empty candidatePath); cbn.
    + split; [exact Hs | discriminate].
    + destruct (isWithinWorkspace workspaceRoot candidatePath) eqn:Hw; cbn.
      * split.
        -- intros k q. cbn. rewrite assoc_get_assoc_set.
           destruct (String.eqb k key).
           ++ intros H _. injection H as <-. auto.
           ++ apply Hs.
        -- intros p H. injection H as <-. auto.
      * split; [exact Hs | discriminate].
  - split; [exact Hs | discriminate].
Qed.

Ltac sound_leaf :=
  first [ apply sound_candidate | apply sound_ret_none | apply sound_throw ].

(** X15 (module paths are directories of the workspace).  Let every
    path memoised so far be a directory that passes isWithinWorkspace, as
    it is in a new resolver, whose memo is empty.  Then the same holds
    after a call of resolveModulePath, and a path that the call returns -
    from the memo or newly resolved - is a directory that passes
    isWithinWorkspace. *)
Theorem resolved_module_paths_are_directories_of_the_workspace
  (source : js_source) (currentDir : string) (s : State)
  (Hsound : paths_sound fs workspaceRoot s) :
  paths_sound fs workspaceRoot
    (snd (resolveModulePath fs workspaceRoot cwd source currentDir s))
  /\ forall p,
       fst (resolveModulePath fs workspaceRoot cwd source currentDir s)
       = Ret (Some p) ->
       fs_isDirectory fs p = true /\ isWithinWorkspace workspaceRoot p = true.
Proof.
  revert s Hsound.
  change (sound (resolveModulePath fs workspaceRoot cwd source currentDir)).
  unfold resolveModulePath. cbv beta zeta.
  apply sound_try_catch; [|apply sound_ret_none].
  intros s Hs.
  match goal with
  | |- context [bind (paths_get ?key) ?K s] =>
      change (bind (paths_get key) K s)
        with (K (assoc_get key (resolvedModulePaths s)) s)
  end.
  cbv beta.
  destruct (assoc_get (modulePath_key (printed source) currentDir)
              (resolvedModulePaths s)) as [p0|] eqn:Hmemo;
    [destruct (is_empty p0) eqn:Hp0|].
  - revert s Hs Hmemo. intros s Hs _. revert s Hs.
    destruct source as [source0|text]; [|sound_leaf].
    destruct (startsWith source0 "./" || startsWith source0 "../")%bool;
      [sound_leaf|].
    destruct (startsWith source0 "/"); [sound_leaf|].
    destruct (includes source0 "terraform.io" || includes source0 "github.com")%bool;
      sound_leaf.
  - split; [exact Hs|].
    intros p H. injection H as <-. exact (Hs _ _ Hmemo Hp0).
  - revert s Hs Hmemo. intros s Hs _. revert s Hs.
    destruct source as [source0|text]; [|sound_leaf].
    destruct (startsWith source0 "./" || startsWith source0 "../")%bool;
      [sound_leaf|].
    destruct (startsWith source0 "/"); [sound_leaf|].
    destruct (includes source0 "terraform.io" || includes source0 "github.com")%bool;
      sound_leaf.
Qed.

End ModulePaths.

Lemma module_path_witness :
  fs_isDirectory Fixtures.threading_files "/w/child" = true
  /\ isWithinWorkspace "/w" "/w/child" = true.
Proof.
  refine (proj2 (@resolved_module_paths_are_directories_of_the_workspace
                   Fixtures.threading_files "/w" "/" (IsString "./child") "/w"
                   Fixtures.fresh _) "/w/child" _).
  - intros key p H. discriminate H.
  - vm_compute. reflexivity.
Defined.

Section Contexts.
Variable fs : FileSystem.
Variable workspaceRoot : string.
Variable cwd : string.
Variable clock : nat -> Z.

(** X16 (the contexts are reported in search order).
    resolveVariableInMultipleContexts returns, from every state: it gives
    a list of pairs of a value and a directory whose directories are
    search directories, in the order of the search list (those for which
    nothing was found are left out), and whose values are not blank. *)
Theorem contexts_are_reported_in_search_order
  (variableName : string) (searchDirectories : list string) (s : State) :
  exists results,
    fst (resolveVariableInMultipleContexts fs workspaceRoot cwd clock
           variableName searchDirectories s) = Ret results
    /\ subsequence (map snd results) searchDirectories
    /\ Forall (fun r => trim (fst r) <> EmptyString) results.
Proof.
  revert s. induction searchDirectories as [|dir dirs IH]; intros s.
  - exists []. repeat constructor.
  - cbn [resolveVariableInMultipleContexts].
    unfold bind at 1. unfold try_catch.
    pose proof (@behaved_resolveVariableValue fs workspaceRoot cwd clock
                  (maxRecursionDepth + 2) variableName dir 0
                  ltac:(cbv [maxRecursionDepth]; lia)) as Hb.
    destruct (behaved_total Hb
                (mkState (cache s) (resolvedModulePaths s) [] (ticks s)))
      as (result & Hres).
    destruct (resolveVariableValue fs workspaceRoot cwd clock
                (maxRecursionDepth + 2) variableName dir 0
                (mkState (cache s) (resolvedModulePaths s) [] (ticks s)))
      as [o s1].
    cbn [fst] in Hres. subst o. cbv iota beta.
    unfold bind at 1.
    match goal with
    | |- context [resolveVariableInMultipleContexts _ _ _ _ _ dirs ?st] =>
        destruct (IH st) as (rest & Hrest & Hsub & Hall);
        destruct (resolveVariableInMultipleContexts fs workspaceRoot cwd clock
                    variableName dirs st) as [o s2]
    end.
    cbn [fst] in Hrest. subst o. cbv iota beta.
    destruct result as [value|].
    + destruct (negb (is_empty value) && negb (is_empty (trim value)))%bool
        eqn:Hblank.
      * exists ((value, dir) :: rest). cbn [fst ret map snd].
        refine (conj eq_refl (conj (sub_take _ Hsub) _)).
        constructor; [|exact Hall]. cbn [fst].
        apply andb_true_iff in Hblank. destruct Hblank as [_ Ht].
        destruct (trim value); [discriminate | discriminate].
      * exists rest. cbn [fst ret].
        refine (conj eq_refl (conj (sub_skip _ Hsub) Hall)).
    + exists rest. cbn [fst ret].
      refine (conj eq_refl (conj (sub_skip _ Hsub) Hall)).
Qed.

End Contexts.

Example contexts_of_a_name :
  fst (resolveVariableInMultipleContexts Fixtures.sibling_files "/w" "/"
         Fixtures.clock "x" ["/w/app"; "/w/app2"; "/w/app2/sub"] Fixtures.fresh)
  = Ret [("outside", "/w/app2"); ("outside", "/w/app2/sub")].
Proof. vm_compute. reflexivity. Qed.

Section PlainValues.
Variable fs : FileSystem.
Variable workspaceRoot : string.
Variable cwd : string.
Variable clock : nat -> Z.

(** X17 (a value without dot is final).  Both substitutions of
    references - resolveNestedReferences of the enhanced resolution and
    resolveReferencesInValue of the module outputs - return a value that
    holds no dot as it is: it has no reference, so nothing is resolved,
    no file is read, and the state of the resolver stays as it was. *)
Theorem value_without_dot_is_final
  (fuel : nat) (value contextDir : string) (depth : nat) (s : State)
  (Hplain : lacks "." value = true) :
  resolveNestedReferences fs workspaceRoot cwd clock
    (resolveVariableValueEnhanced fs workspaceRoot cwd clock fuel)
    (resolveVariableValue fs workspaceRoot cwd clock fuel)
    value contextDir depth s
  = (Ret value, s)
  /\ resolveReferencesInValue
       (resolveVariableValue fs workspaceRoot cwd clock fuel)
       value contextDir depth s
     = (Ret value, s).
Proof.
  unfold resolveNestedReferences, resolveReferencesInValue.
  rewrite (no_references_without_dot _ Hplain).
  destruct (is_empty value); split; reflexivity.
Qed.

End PlainValues.

Lemma plain_value_witness :
  resolveNestedReferences Fixtures.precedence_files "/w" "/" Fixtures.clock
    (resolveVariableValueEnhanced Fixtures.precedence_files "/w" "/"
       Fixtures.clock 11)
    (resolveVariableValue Fixtures.precedence_files "/w" "/" Fixtures.clock 11)
    "from-override" "/w" 1 Fixtures.fresh
  = (Ret "from-override", Fixtures.fresh).
Proof.
  apply (@value_without_dot_is_final Fixtures.precedence_files "/w" "/"
           Fixtures.clock 11 "from-override" "/w" 1 Fixtures.fresh).
  reflexivity.
Defined.

(** ** Names of module outputs *)

Lemma split_chr_nonempty c s : split_chr c s <> [].
Proof.
  induction s as [|d s IH]; cbn; [discriminate|].
  destruct (Ascii.eqb d c); [discriminate|].
  destruct (split_chr c s); [contradiction | discriminate].
Qed.

Lemma split_chr_app c a b :
  lacks c a = true -> split_chr c (a ++ String c b) = a :: split_chr c b.
Proof.
  induction a as [|d a IH]; cbn.
  - now rewrite Ascii.eqb_refl.
  - intros H. apply andb_true_iff in H. destruct H as [Hd Ha].
    apply negb_true_iff in Hd. rewrite Ascii.eqb_sym in Hd. rewrite Hd.
    now rewrite (IH Ha).
Qed.

Lemma join_split_chr c s : join (str1 c) (split_chr c s) = s.
Proof.
  induction s as [|d s IH]; [reflexivity|]. cbn [split_chr].
  destruct (Ascii.eqb d c) eqn:E.
  - apply Ascii.eqb_eq in E. subst d.
    pose proof (split_chr_nonempty c s) as Hne.
    destruct (split_chr c s) as [|h r]; [contradiction|].
    cbn [join append str1] in *. now rewrite IH.
  - pose proof (split_chr_nonempty c s) as Hne.
    destruct (split_chr c s) as [|h r]; [contradiction|].
    destruct r as [|h' r]; cbn [join append] in *; now rewrite <- IH.
Qed.

Section Composition.
Variable fs : FileSystem.
Variable workspaceRoot : string.
Variable cwd : string.
Variable clock : nat -> Z.

Local Abbreviation rVV := (resolveVariableValue fs workspaceRoot cwd clock).
Local Abbreviation rVVE :=
  (resolveVariableValueEnhanced fs workspaceRoot cwd clock).

(** X20 (a module output is read in the directory of the module).  Let
    resolveVariableValue be called for the reference
    [module.<m>.<out>], [m] without dot, in a directory [D] that exists,
    can be listed and gives the reference itself no value (depth within
    the bound, nothing cached, the call not on the visited set).  Let
    findModuleCall find the call of [m] in [D], let resolveModulePath
    resolve its source from [D] to the directory [P], and let
    findInOutputs find the output [out] in [P] with the value [ov].
    Then the call returns what resolveReferencesInValue makes of [ov] in
    [P], two levels deeper. *)
Theorem module_output_is_read_in_the_module_directory
  (fuel : nat) (m out D P ov v : string) (depth : nat)
  (s s1 s2 s3 s4 : State) (files : list string) (mc : json)
  (Hdepth : depth <= maxRecursionDepth)
  (Hm : lacks "." m = true)
  (Hmiss : TerraformCache.map_get
             (resolve_key ("module." ++ m ++ "." ++ out) D depth) (cache s)
           = None)
  (Hcold : cold_lookups ("module." ++ m ++ "." ++ out) D s)
  (Hfresh : mem (visit_key ("module." ++ m ++ "." ++ out) D depth) (visited s)
            = false)
  (Hdir : fs_isDirectory fs D = true)
  (Hls : fs_readdir fs D = Some files)
  (Hno_override : override_value fs ("module." ++ m ++ "." ++ out) D files = None)
  (Hno_local : locals_value fs ("module." ++ m ++ "." ++ out) D files = None)
  (Hno_output : outputs_value fs ("module." ++ m ++ "." ++ out) D files = None)
  (Hcall : findModuleCall fs clock m D
             (entered (visit_key ("module." ++ m ++ "." ++ out) D depth) s)
           = (Ret (Some mc), s1))
  (Htruthy : truthy mc = true)
  (Hpath : resolveModulePath fs workspaceRoot cwd (source_of mc) D s1
           = (Ret (Some P), s2))
  (Hnonempty : is_empty P = false)
  (Hout : findInOutputs fs clock out P s2 = (Ret (Some ov), s3))
  (Hrefs : resolveReferencesInValue (rVV fuel) ov P (depth + 1 + 1) s3
           = (Ret v, s4)) :
  fst (rVV (S fuel) ("module." ++ m ++ "." ++ out) D depth s) = Ret (Some v).
Proof.
  destruct Hcold as (Ht & Hl & Ho).
  set (name := "module." ++ m ++ "." ++ out) in *.
  set (s0 := entered (visit_key name D depth) s) in *.
  assert (Hparts : split_chr "." name = "module" :: m :: split_chr "." out).
  { unfold name.
    change ("module." ++ m ++ "." ++ out)
      with ("module" ++ String "." (m ++ String "." out)).
    rewrite (@split_chr_app "." "module" (m ++ String "." out) eq_refl).
    now rewrite (@split_chr_app "." m out Hm). }
  cbn [resolveVariableValue]. rewrite (not_too_deep Hdepth).
  run (cache_get_miss clock _ _ Hmiss).
  rewrite visited_enter by exact Hfresh. fold s0. cbn [fst].
  unfold try_catch at 1.
  run (findInTfvarsFiles_miss fs clock name D s0 Ht Hdir Hls Hno_override).
  run (findInLocals_miss fs clock name D s0 Hl Hdir Hls Hno_local).
  run (findInOutputs_miss fs clock name D s0 Ho Hdir Hls Hno_output).
  assert (Hstart : startsWith name "module." = true)
    by (unfold name; cbn; apply startsWith_nil).
  rewrite Hstart.
  assert (Hmodule :
    resolveModuleOutput fs workspaceRoot cwd clock (rVV fuel) name D (depth + 1) s0
    = (Ret (Some v), s4)).
  { unfold resolveModuleOutput, try_catch. rewrite Hparts.
    pose proof (split_chr_nonempty "." out) as Hne.
    destruct (split_chr "." out) as [|o1 os] eqn:Hsplit; [contradiction|].
    cbn [List.length Nat.ltb Nat.leb nth orb negb skipn].
    change (String.eqb "module" "module") with true. cbn [negb].
    run Hcall. rewrite Htruthy. cbn [negb].
    run Hpath. rewrite Hnonempty.
    assert (Hname : join "." (o1 :: os) = out).
    { rewrite <- Hsplit. apply (join_split_chr "." out). }
    rewrite Hname. run Hout. run Hrefs. reflexivity. }
  run Hmodule.
  pose proof (stored_result clock (resolve_key name D depth) v s4) as H.
  destruct ((cache_set clock _ _ ;;; ret _) s4) as [o t2].
  cbn in H. subst o. reflexivity.
Qed.

(** X21 (the order of the sources in the enhanced resolution).  Let
    resolveVariableValueEnhanced be called for a name in a directory that
    exists and can be listed, at a depth within the bound, with nothing
    cached for the name in that directory and the call not on the visited
    set.  The sources are consulted in the order override files, locals,
    outputs, and the value of the first that has one is handed to
    resolveNestedReferences, one level deeper; what that returns is the
    result. *)
Theorem enhanced_sources_are_consulted_in_order
  (fuel : nat) (x D : string) (depth : nat) (moduleContext : list string)
  (s : State) (files : list string)
  (Hdepth : depth <= maxRecursionDepth)
  (Hmiss : TerraformCache.map_get (enhanced_key x D depth moduleContext) (cache s)
           = None)
  (Hcold : cold_lookups x D s)
  (Hfresh : mem (visit_key x D depth) (visited s) = false)
  (Hdir : fs_isDirectory fs D = true)
  (Hls : fs_readdir fs D = Some files) :
  (forall v final,
      override_value fs x D files = Some v ->
      fst (resolveNestedReferences fs workspaceRoot cwd clock (rVVE fuel) (rVV fuel)
             (preserveComplexStructure v) D (depth + 1)
             (snd (findInTfvarsFiles fs clock x D (entered (visit_key x D depth) s))))
      = Ret final ->
      fst (rVVE (S fuel) x D depth moduleContext s) = Ret (Some final))
  /\ (forall v final,
      override_value fs x D files = None ->
      locals_value fs x D files = Some v ->
      fst (resolveNestedReferences fs workspaceRoot cwd clock (rVVE fuel) (rVV fuel)
             v D (depth + 1)
             (snd (findInLocals fs clock x D (entered (visit_key x D depth) s))))
      = Ret final ->
      fst (rVVE (S fuel) x D depth moduleContext s) = Ret (Some final))
  /\ (forall v final,
      override_value fs x D files = None ->
      locals_value fs x D files = None ->
      outputs_value fs x D files = Some v ->
      fst (resolveNestedReferences fs workspaceRoot cwd clock (rVVE fuel) (rVV fuel)
             v D (depth + 1)
             (snd (findInOutputs fs clock x D (entered (visit_key x D depth) s))))
      = Ret final ->
      fst (rVVE (S fuel) x D depth moduleContext s) = Ret (Some final)).
Proof.
  destruct Hcold as (Ht & Hl & Ho).
  set (s0 := entered (visit_key x D depth) s).
  assert (Hnested : forall value final st,
    fst (resolveNestedReferences fs workspaceRoot cwd clock (rVVE fuel) (rVV fuel)
           value D (depth + 1) st) = Ret final ->
    fst ((finalValue <- resolveNestedReferences fs workspaceRoot cwd clock
                          (rVVE fuel) (rVV fuel) value D (depth + 1) ;;
          cache_set clock (enhanced_key x D depth moduleContext) finalValue ;;;
          ret (Some finalValue)) st) = Ret (Some final)).
  { intros value final st H.
    destruct (resolveNestedReferences fs workspaceRoot cwd clock (rVVE fuel)
                (rVV fuel) value D (depth + 1) st) as [o t1] eqn:E.
    cbn in H. subst o. run E.
    apply (stored_result clock). }
  refine (conj _ (conj _ _)).
  - intros v final Hv Hfinal.
    cbn [resolveVariableValueEnhanced]. rewrite (not_too_deep Hdepth).
    cbv zeta.
    run (cache_get_miss clock _ _ Hmiss).
    rewrite visited_enter by exact Hfresh. fold s0. cbn [fst].
    unfold try_catch at 1.
    pose proof (findInTfvarsFiles_cold fs clock x D s0 Ht Hdir Hls) as H1.
    rewrite Hv in H1. cbn [option_map] in H1.
    fold s0 in Hfinal.
    destruct (findInTfvarsFiles fs clock x D s0) as [o t1] eqn:E.
    cbn in H1. subst o. run E. cbn [snd] in Hfinal.
    pose proof (Hnested _ _ _ Hfinal) as H2.
    match goal with |- fst (match ?body t1 with _ => _ end) = _ =>
      destruct (body t1) as [o t2] end.
    cbn in H2. subst o. reflexivity.
  - intros v final H1 H2 Hfinal.
    cbn [resolveVariableValueEnhanced]. rewrite (not_too_deep Hdepth).
    cbv zeta.
    run (cache_get_miss clock _ _ Hmiss).
    rewrite visited_enter by exact Hfresh. fold s0. cbn [fst].
    unfold try_catch at 1.
    run (findInTfvarsFiles_miss fs clock x D s0 Ht Hdir Hls H1).
    pose proof (findInLocals_cold fs clock x D s0 Hl Hdir Hls) as H3.
    rewrite H2 in H3. fold s0 in Hfinal.
    destruct (findInLocals fs clock x D s0) as [o t1] eqn:E.
    cbn in H3. subst o. run E. cbn [snd] in Hfinal.
    pose proof (Hnested _ _ _ Hfinal) as H4.
    match goal with |- fst (match ?body t1 with _ => _ end) = _ =>
      destruct (body t1) as [o t2] end.
    cbn in H4. subst o. reflexivity.
  - intros v final H1 H2 H3 Hfinal.
    cbn [resolveVariableValueEnhanced]. rewrite (not_too_deep Hdepth).
    cbv zeta.
    run (cache_get_miss clock _ _ Hmiss).
    rewrite visited_enter by exact Hfresh. fold s0. cbn [fst].
    unfold try_catch at 1.
    run (findInTfvarsFiles_miss fs clock x D s0 Ht Hdir Hls H1).
    run (findInLocals_miss fs clock x D s0 Hl Hdir Hls H2).
    pose proof (findInOutputs_cold fs clock x D s0 Ho Hdir Hls) as H4.
    rewrite H3 in H4. fold s0 in Hfinal.
    destruct (findInOutputs fs clock x D s0) as [o t1] eqn:E.
    cbn in H4. subst o. run E. cbn [snd] in Hfinal.
    pose proof (Hnested _ _ _ Hfinal) as H5.
    match goal with |- fst (match ?body t1 with _ => _ end) = _ =>
      destruct (body t1) as [o t2] end.
    cbn in H5. subst o. reflexivity.
Qed.

End Composition.

Lemma module_output_witness :
  fst (resolveVariableValue MoreFixtures.output_files "/w" "/" Fixtures.clock 12
         ("module." ++ "net" ++ "." ++ "cidr") "/w" 0 Fixtures.fresh)
  = Ret (Some (q "'10.0.0.0/16'")).
Proof.
  eapply (@module_output_is_read_in_the_module_directory
            MoreFixtures.output_files "/w" "/" Fixtures.clock 11 "net" "cidr" "/w"
            "/w/network" _ _ 0 Fixtures.fresh _ _ _ _ ["main.tf"; "network"]).
  - cbv [maxRecursionDepth]. lia.
  - reflexivity.
  - reflexivity.
  - repeat split.
  - reflexivity.
  - reflexivity.
  - reflexivity.
  - vm_compute. reflexivity.
  - vm_compute. reflexivity.
  - vm_compute. reflexivity.
  - vm_compute. reflexivity.
  - reflexivity.
  - vm_compute. reflexivity.
  - reflexivity.
  - vm_compute. reflexivity.
  - vm_compute. reflexivity.
Defined.

Lemma enhanced_order_witness :
  fst (resolveVariableValueEnhanced Fixtures.precedence_files "/w" "/"
         Fixtures.clock 12 "x" "/w" 0 [] Fixtures.fresh)
  = Ret (Some "from-override").
Proof.
  refine (proj1 (@enhanced_sources_are_consulted_in_order
                   Fixtures.precedence_files "/w" "/" Fixtures.clock 11
                   "x" "/w" 0 [] Fixtures.fresh ["main.tf"; "prod.tfvars"]
                   _ _ _ _ _ _) "from-override" "from-override" _ _).
  - cbv [maxRecursionDepth]. lia.
  - reflexivity.
  - repeat split.
  - reflexivity.
  - reflexivity.
  - reflexivity.
  - vm_compute. reflexivity.
  - vm_compute. reflexivity.
Defined.

End ResolverProperties.

(* ================================================================== *)
(** * Properties of the hint label *)
(* ================================================================== *)

Module ProviderProperties.
Import Js Regex Notions Properties Shapes InlayProvider.

Lemma length_take_le n s : String.length (take n s) <= n.
Proof.
  revert s. induction n as [|n IH]; intros [|c s]; cbn; try lia.
  specialize (IH s). lia.
Qed.

Lemma length_quoted s :
  String.length (str1 dquote ++ s ++ str1 dquote) = String.length s + 2.
Proof. cbn. rewrite length_app. cbn. lia. Qed.

(** X18 (the label of a hint is short).  Whatever the resolved value,
    formatResolvedValue gives a text of at most 82 characters: objects
    and arrays of more than 50 characters or of several lines are replaced
    by the words [complex object] and [array], a value of more than 80
    characters is cut to its first 75 characters followed by three dots,
    between quotes.  The label of a hint - the words [complex object] or
    [multiple values], or the formatted value - is therefore at most 82
    characters after its arrow. *)
Theorem hint_label_is_short
  (value : string) (resolvedValues : list ResolvedValue) :
  String.length (formatResolvedValue value) <= 82
  /\ String.length (displayText resolvedValues) <= 82.
Proof.
  assert (Hfmt : forall v, String.length (formatResolvedValue v) <= 82).
  { intros v. unfold formatResolvedValue.
    destruct (is_empty v || is_empty (trim v))%bool; [cbn; lia|].
    destruct (startsWith (trim v) "{" && endsWith (trim v) "}")%bool.
    { destruct (Nat.ltb_spec 50 (String.length (trim (slice_inner (trim v)))))
        as [Hlong|Hshort]; cbn [orb]; [cbn; lia|].
      destruct (includes _ nl); [cbn; lia|].
      rewrite !length_app. cbn. lia. }
    destruct (startsWith (trim v) "[" && endsWith (trim v) "]")%bool.
    { destruct (Nat.ltb_spec 50 (String.length (trim (slice_inner (trim v)))))
        as [Hlong|Hshort]; cbn [orb]; [cbn; lia|].
      destruct (includes _ nl); [cbn; lia|].
      rewrite !length_app. cbn. lia. }
    destruct (Nat.ltb_spec 80 (String.length v)) as [Hlong|Hshort].
    { rewrite !length_app.
      change (String.length (str1 dquote)) with 1.
      change (String.length "...") with 3.
      pose proof (length_take_le 75 v). lia. }
    destruct (negb _ && negb _ && negb _ && negb _)%bool.
    - rewrite length_quoted. lia.
    - lia. }
  split; [apply Hfmt|].
  unfold displayText.
  destruct resolvedValues as [|r [|r' rs]]; [cbn; lia| |cbn; lia].
  destruct (isComplexObject (rv_value r)); [cbn; lia | apply Hfmt].
Qed.

Example long_value_is_cut :
  formatResolvedValue
    "aaaaaaaaaabbbbbbbbbbccccccccccddddddddddeeeeeeeeeeffffffffffgggggggggghhhhhhhhhhi"
  = q "'aaaaaaaaaabbbbbbbbbbccccccccccddddddddddeeeeeeeeeeffffffffffgggggggggghhhhh...'".
Proof. vm_compute. reflexivity. Qed.

Lemma string_scan_double_quotes : forall n line b,
  lacks bslash line = true -> lacks squote line = true ->
  string_scan n line b (if b then Some dquote else None) false
  = xorb b (Z.odd (count_char dquote (take n line))).
Proof.
  induction n as [|n IH]; intros line b Hb Hs.
  - destruct line; cbn; now rewrite xorb_false_r.
  - destruct line as [|c t]; [cbn; now rewrite xorb_false_r|].
    cbn [lacks] in Hb, Hs. apply andb_true_iff in Hb, Hs.
    destruct Hb as [Hcb Hb], Hs as [Hcs Hs].
    apply negb_true_iff in Hcb, Hcs.
    rewrite Ascii.eqb_sym in Hcb. rewrite Ascii.eqb_sym in Hcs.
    cbn [string_scan take count_char]. rewrite Hcb, Hcs, orb_false_r.
    rewrite (Ascii.eqb_sym dquote c).
    destruct (Ascii.eqb c dquote) eqn:Hq.
    + apply Ascii.eqb_eq in Hq. subst c.
      replace (1 + count_char dquote (take n t))%Z
        with (Z.succ (count_char dquote (take n t))) by lia.
      rewrite Z.odd_succ, <- Z.negb_odd.
      destruct b; cbn [negb andb].
      * rewrite Ascii.eqb_refl. cbn [andb].
        rewrite (IH t false Hb Hs). cbn [xorb].
        now destruct (Z.odd _).
      * rewrite (IH t true Hb Hs). cbn [xorb]. reflexivity.
    + cbn [andb]. replace (0 + count_char dquote (take n t))%Z
        with (count_char dquote (take n t)) by lia.
      destruct b.
      * rewrite Hq. cbn [andb]. apply (IH t true Hb Hs).
      * cbn [andb]. apply (IH t false Hb Hs).
Qed.

(** X19 (what counts as inside a string or a comment).  On a line
    without backslash and single quote: every position behind the first
    [#] of the line counts as inside a comment, also when that [#] stands
    between double quotes; and on a line without [#], a position counts
    as inside a string exactly when an odd number of double quotes
    stands before it. *)
Theorem position_in_string_or_comment
  (lineText : string) (charIndex : nat)
  (Hbackslash : lacks bslash lineText = true)
  (Hsingle : lacks squote lineText = true) :
  (forall commentIndex,
      indexOf lineText "#" = Some commentIndex ->
      commentIndex < charIndex ->
      isInStringOrComment lineText charIndex = true)
  /\ (lacks "#" lineText = true ->
      isInStringOrComment lineText charIndex
      = Z.odd (count_char dquote (take charIndex lineText))).
Proof.
  unfold isInStringOrComment. split.
  - intros j Hj Hlt. rewrite Hj. apply Nat.ltb_lt in Hlt. now rewrite Hlt.
  - intros Hc. change "#" with (str1 "#"%char).
    rewrite (ParserProperties.indexOf_lacks _ _ Hc).
    apply (string_scan_double_quotes charIndex lineText false Hbackslash Hsingle).
Qed.

Lemma interpolation_witness :
  isInStringOrComment (q "  name = '${var.env}-app'") 19 = true.
Proof.
  refine (eq_trans
            (proj2 (@position_in_string_or_comment
                      (q "  name = '${var.env}-app'") 19 eq_refl eq_refl)
               eq_refl) _).
  reflexivity.
Defined.

End ProviderProperties.

(* ================================================================== *)
(** * Module inputs: the scan of the parent directory *)
(* ================================================================== *)

Module Threading.
Import Js Regex Json TerraformParser Effects Resolver Notions Laws Properties.
Import Shapes Sources CacheProperties ResolverProperties.
Local Open Scope resolver_scope.

Lemma append_cancel_r a b c : a ++ c = b ++ c -> a = b.
Proof.
  revert b. induction a as [|x a IH]; intros [|y b] H; cbn in H.
  - reflexivity.
  - apply (f_equal String.length) in H. cbn in H. rewrite length_app in H. lia.
  - apply (f_equal String.length) in H. cbn in H. rewrite length_app in H. lia.
  - injection H as Hx H. subst y. f_equal. exact (IH b H).
Qed.

Lemma modulePath_key_inj source source' dir :
  modulePath_key source dir = modulePath_key source' dir -> source = source'.
Proof.
  unfold modulePath_key. intros H. cbn in H. injection H as H.
  exact (append_cancel_r _ _ _ H).
Qed.



Section Scan.
Variable fs : FileSystem.
Variable workspaceRoot : string.
Variable cwd : string.
Variable clock : nat -> Z.

Local Abbreviation rVV := (resolveVariableValue fs workspaceRoot cwd clock).
Local Abbreviation rVVE :=
  (resolveVariableValueEnhanced fs workspaceRoot cwd clock).
Local Abbreviation faithful := (paths_faithful fs workspaceRoot cwd).
Local Abbreviation more := (memoised_more fs workspaceRoot cwd).
Local Abbreviation path_of := (module_path fs workspaceRoot cwd).

Lemma memoised_more_refl dir s : more dir s s.
Proof. repeat split. intros key. now left. Qed.

Lemma memoised_more_trans dir s1 s2 s3 :
  more dir s1 s2 -> more dir s2 s3 -> more dir s1 s3.
Proof.
  intros (Hc & Hv & Ht & Hm) (Hc' & Hv' & Ht' & Hm').
  refine (conj _ (conj _ (conj _ _))); try congruence.
  intros key. destruct (Hm' key) as [Heq|Hnew].
  - destruct (Hm key) as [Heq0|(source & p & Hk & Hget & Hp)].
    + left. congruence.
    + right. exists source, p. repeat split; congruence.
  - now right.
Qed.

Lemma faithful_more dir s s' : faithful dir s -> more dir s s' -> faithful dir s'.
Proof.
  intros Hf (_ & _ & _ & Hm) source p Hget Hp.
  destruct (Hm (modulePath_key source dir)) as [Heq|(source' & p' & Hk & Hget' & Hp')].
  - rewrite Heq in Hget. exact (Hf _ _ Hget Hp).
  - apply modulePath_key_inj in Hk. subst source'. congruence.
Qed.

Lemma faithful_entered dir key s : faithful dir s -> faithful dir (entered key s).
Proof. exact (fun H => H). Qed.

(** The candidate of a source, checked and memoised under [key]. *)
Lemma candidate_reads source dir candidatePath s :
  path_of source dir = checked_directory fs workspaceRoot candidatePath ->
  exists s',
    (r <- (ex <- directoryExists fs candidatePath ;;
           ret (if ex then Some candidatePath else None)) ;;
     match r with
     | Some p =>
         if (negb (is_empty p) && isWithinWorkspace workspaceRoot p)%bool
         then paths_set (modulePath_key source dir) p ;;; ret (Some p)
         else ret None
     | None => ret None
     end) s
    = (Ret (path_of source dir), s')
    /\ more dir s s'.
Proof.
  intros Hpath. rewrite Hpath.
  remember (modulePath_key source dir) as K eqn:HK.
  unfold checked_directory.
  unfold bind, directoryExists, ret. cbn.
  destruct (fs_isDirectory fs candidatePath) eqn:Hd; cbn.
  - destruct (negb (is_empty candidatePath)
              && isWithinWorkspace workspaceRoot candidatePath)%bool eqn:Hw; cbn.
    + eexists. split; [reflexivity|].
      refine (conj eq_refl (conj eq_refl (conj eq_refl _))).
      intros key. cbn. rewrite assoc_get_assoc_set.
      destruct (String.eqb key K) eqn:E.
      * right. apply String.eqb_eq in E. exists source, candidatePath.
        refine (conj _ (conj eq_refl _)); [rewrite E, HK; reflexivity|].
        rewrite Hpath. unfold checked_directory. now rewrite Hd, Hw.
      * now left.
    + exists s. split; [reflexivity | apply memoised_more_refl].
  - exists s. split; [reflexivity | apply memoised_more_refl].
Qed.

(** resolveModulePath returns the directory the source resolves to, and
    memoises it. *)
Lemma resolveModulePath_reads source dir s :
  faithful dir s ->
  exists s',
    resolveModulePath fs workspaceRoot cwd (IsString source) dir s
    = (Ret (path_of source dir), s')
    /\ more dir s s'.
Proof.
  intros Hf.
  assert (Huncached : exists s',
    (if (startsWith source "./" || startsWith source "../")%bool then
       r <- (ex <- directoryExists fs (Path.resolve cwd dir source) ;;
             ret (if ex then Some (Path.resolve cwd dir source) else None)) ;;
       match r with
       | Some p =>
           if (negb (is_empty p) && isWithinWorkspace workspaceRoot p)%bool
           then paths_set (modulePath_key source dir) p ;;; ret (Some p)
           else ret None
       | None => ret None
       end
     else if startsWith source "/" then
       r <- (ex <- directoryExists fs (Path.join2 workspaceRoot source) ;;
             ret (if ex then Some (Path.join2 workspaceRoot source) else None)) ;;
       match r with
       | Some p =>
           if (negb (is_empty p) && isWithinWorkspace workspaceRoot p)%bool
           then paths_set (modulePath_key source dir) p ;;; ret (Some p)
           else ret None
       | None => ret None
       end
     else if (includes source "terraform.io" || includes source "github.com")%bool
     then ret None
     else
       r <- (ex <- directoryExists fs (Path.resolve cwd dir source) ;;
             ret (if ex then Some (Path.resolve cwd dir source) else None)) ;;
       match r with
       | Some p =>
           if (negb (is_empty p) && isWithinWorkspace workspaceRoot p)%bool
           then paths_set (modulePath_key source dir) p ;;; ret (Some p)
           else ret None
       | None => ret None
       end) s
    = (Ret (path_of source dir), s') /\ more dir s s').
  { destruct (startsWith source "./" || startsWith source "../")%bool eqn:E1.
    - apply candidate_reads. unfold module_path. now rewrite E1.
    - destruct (startsWith source "/") eqn:E2.
      + apply candidate_reads. unfold module_path. now rewrite E1, E2.
      + destruct (includes source "terraform.io" || includes source "github.com")%bool
          eqn:E3.
        * exists s. split; [|apply memoised_more_refl].
          unfold module_path. now rewrite E1, E2, E3.
        * apply candidate_reads. unfold module_path. now rewrite E1, E2, E3. }
  destruct Huncached as (s' & Hrun & Hmore).
  unfold resolveModulePath. cbv beta zeta. unfold try_catch.
  match goal with
  | |- context [bind (paths_get ?key) ?K s] =>
      change (bind (paths_get key) K s)
        with (K (assoc_get key (resolvedModulePaths s)) s)
  end.
  cbv beta. cbn [printed].
  destruct (assoc_get (modulePath_key source dir) (resolvedModulePaths s))
    as [p0|] eqn:Hmemo; [destruct (is_empty p0) eqn:Hp0|].
  - rewrite Hrun. exists s'. now split.
  - exists s. split; [|apply memoised_more_refl].
    rewrite (Hf _ _ Hmemo Hp0). reflexivity.
  - rewrite Hrun. exists s'. now split.
Qed.

Lemma calls_in_matches_reads ms searchDir targetDir :
  forall moduleCalls s,
    faithful searchDir s ->
    exists s',
      calls_in_matches fs workspaceRoot cwd ms searchDir targetDir moduleCalls s
      = (Ret (moduleCalls
              ++ calls_of_matches fs workspaceRoot cwd ms searchDir targetDir)%list,
         s')
      /\ more searchDir s s'.
Proof.
  induction ms as [|m r IH]; intros moduleCalls s Hf;
    cbn [calls_in_matches calls_of_matches].
  - exists s. rewrite app_nil_r. split; [reflexivity | apply memoised_more_refl].
  - destruct (exec re_source _) as [sm|]; [|exact (IH _ _ Hf)].
    destruct (@resolveModulePath_reads
                (match group 1 sm with Some v => v | None => EmptyString end)
                searchDir s Hf) as (s1 & Hrun & Hmore).
    run Hrun.
    pose proof (faithful_more Hf Hmore) as Hf1.
    destruct (path_of _ searchDir) as [p|].
    + destruct (String.eqb p targetDir).
      * destruct (IH (moduleCalls ++ [mkModuleCall
                        (match group 1 m with Some v => v | None => EmptyString end)
                        (match group 1 sm with Some v => v | None => EmptyString end)
                        (parseModuleVariables
                           (match group 2 m with Some v => v | None => EmptyString end))])%list
                    s1 Hf1) as (s2 & Hrun2 & Hmore2).
        exists s2. rewrite Hrun2, <- app_assoc. cbn [app].
        split; [reflexivity | exact (memoised_more_trans Hmore Hmore2)].
      * destruct (IH moduleCalls s1 Hf1) as (s2 & Hrun2 & Hmore2).
        exists s2. split; [exact Hrun2 | exact (memoised_more_trans Hmore Hmore2)].
    + destruct (IH moduleCalls s1 Hf1) as (s2 & Hrun2 & Hmore2).
      exists s2. split; [exact Hrun2 | exact (memoised_more_trans Hmore Hmore2)].
Qed.

Lemma calls_in_files_reads files searchDir targetDir :
  forall moduleCalls s,
    faithful searchDir s ->
    exists s',
      calls_in_files fs workspaceRoot cwd files searchDir targetDir moduleCalls s
      = (Ret (moduleCalls
              ++ calls_of_files fs workspaceRoot cwd files searchDir targetDir)%list,
         s')
      /\ more searchDir s s'.
Proof.
  induction files as [|file r IH]; intros moduleCalls s Hf;
    cbn [calls_in_files calls_of_files].
  - exists s. rewrite app_nil_r. split; [reflexivity | apply memoised_more_refl].
  - destruct (fs_readFile fs (Path.join2 searchDir file)) as [content|].
    + destruct (@calls_in_matches_reads (all_matches re_any_module content)
                  searchDir targetDir moduleCalls s Hf) as (s1 & Hrun & Hmore).
      run Hrun.
      destruct (IH (moduleCalls
                    ++ calls_of_matches fs workspaceRoot cwd
                         (all_matches re_any_module content) searchDir targetDir)%list
                  s1 (faithful_more Hf Hmore)) as (s2 & Hrun2 & Hmore2).
      exists s2. rewrite Hrun2, <- app_assoc.
      split; [reflexivity | exact (memoised_more_trans Hmore Hmore2)].
    + exists s. rewrite app_nil_r.
      split; [reflexivity | apply memoised_more_refl].
Qed.

(** findModuleCallsToDirectory returns the module calls that the files of
    the directory hold for the target, and touches the memo only. *)
Lemma findModuleCallsToDirectory_reads searchDir targetDir s :
  faithful searchDir s ->
  exists s',
    findModuleCallsToDirectory fs workspaceRoot cwd searchDir targetDir s
    = (Ret (module_calls_to fs workspaceRoot cwd searchDir targetDir), s')
    /\ more searchDir s s'.
Proof.
  intros Hf. unfold findModuleCallsToDirectory, module_calls_to.
  unfold bind at 1. unfold directoryExists, ret.
  destruct (fs_isDirectory fs searchDir); cbn [negb].
  - destruct (fs_readdir fs searchDir) as [files|].
    + exact (@calls_in_files_reads (filter (fun f => endsWith f ".tf") files)
               searchDir targetDir [] s Hf).
    + exists s. split; [reflexivity | apply memoised_more_refl].
  - exists s. split; [reflexivity | apply memoised_more_refl].
Qed.

(** The loop over the module calls stops at the first call whose argument
    for the name resolves. *)
Lemma first_passed_input_hit rve rvv name parentDir depth ref v :
  forall moduleCalls s s',
    passed_argument name moduleCalls = Some ref ->
    resolveVariableReference fs workspaceRoot cwd clock rve rvv ref parentDir depth s
    = (Ret (Some v), s') ->
    first_passed_input fs workspaceRoot cwd clock rve rvv moduleCalls name parentDir
      depth s
    = (Ret (Some v), s').
Proof.
  induction moduleCalls as [|mc r IH]; intros s s' Harg Href;
    cbn [passed_argument first_passed_input] in *; [discriminate|].
  destruct (var_get name (mc_variables mc)) as [a|]; [|exact (IH _ _ Harg Href)].
  destruct (is_empty a); [exact (IH _ _ Harg Href)|].
  injection Harg as ->. run Href. reflexivity.
Qed.


(** The enhanced resolution of a name that its directory gives a value,
    when the references of the value resolve to nothing new. *)
Lemma enhanced_direct fuel x D depth moduleContext s files v :
  depth <= maxRecursionDepth ->
  TerraformCache.map_get (enhanced_key x D depth moduleContext) (cache s) = None ->
  cold_lookups x D s ->
  mem (visit_key x D depth) (visited s) = false ->
  fs_isDirectory fs D = true ->
  fs_readdir fs D = Some files ->
  direct_value fs x D files = Some v ->
  (forall st,
      resolveNestedReferences fs workspaceRoot cwd clock (rVVE fuel) (rVV fuel)
        v D (depth + 1) st = (Ret v, st)) ->
  fst (rVVE (S fuel) x D depth moduleContext s) = Ret (Some v).
Proof.
  intros Hdepth Hmiss (Ht & Hl & Ho) Hfresh Hdir Hls Hvalue Hnested.
  set (s0 := entered (visit_key x D depth) s).
  assert (Hfinal : forall st,
    fst ((finalValue <- resolveNestedReferences fs workspaceRoot cwd clock
                          (rVVE fuel) (rVV fuel) v D (depth + 1) ;;
          cache_set clock (enhanced_key x D depth moduleContext) finalValue ;;;
          ret (Some finalValue)) st) = Ret (Some v)).
  { intros st. run (Hnested st). apply (stored_result clock). }
  cbn [resolveVariableValueEnhanced]. rewrite (not_too_deep Hdepth). cbv zeta.
  run (cache_get_miss clock _ _ Hmiss).
  rewrite visited_enter by exact Hfresh. fold s0. cbn [fst].
  unfold try_catch at 1.
  unfold direct_value in Hvalue.
  destruct (override_value fs x D files) as [v1|] eqn:H1.
  - injection Hvalue as <-.
    pose proof (findInTfvarsFiles_cold fs clock x D s0 Ht Hdir Hls) as Hr.
    rewrite H1 in Hr. cbn [option_map] in Hr.
    destruct (findInTfvarsFiles fs clock x D s0) as [o t1] eqn:E.
    cbn in Hr. subst o. run E.
    pose proof (Hfinal t1) as H2.
    match goal with |- fst (match ?body t1 with _ => _ end) = _ =>
      destruct (body t1) as [o t2] end.
    cbn in H2. subst o. reflexivity.
  - run (findInTfvarsFiles_miss fs clock x D s0 Ht Hdir Hls H1).
    destruct (locals_value fs x D files) as [v2|] eqn:H2.
    + injection Hvalue as <-.
      pose proof (findInLocals_cold fs clock x D s0 Hl Hdir Hls) as Hr.
      rewrite H2 in Hr.
      destruct (findInLocals fs clock x D s0) as [o t1] eqn:E.
      cbn in Hr. subst o. run E.
      pose proof (Hfinal t1) as H3.
      match goal with |- fst (match ?body t1 with _ => _ end) = _ =>
        destruct (body t1) as [o t2] end.
      cbn in H3. subst o. reflexivity.
    + run (findInLocals_miss fs clock x D s0 Hl Hdir Hls H2).
      pose proof (findInOutputs_cold fs clock x D s0 Ho Hdir Hls) as Hr.
      rewrite Hvalue in Hr.
      destruct (findInOutputs fs clock x D s0) as [o t1] eqn:E.
      cbn in Hr. subst o. run E.
      pose proof (Hfinal t1) as H3.
      match goal with |- fst (match ?body t1 with _ => _ end) = _ =>
        destruct (body t1) as [o t2] end.
      cbn in H3. subst o. reflexivity.
Qed.

(** The enhanced resolution of a name that its directory gives no value
    returns what resolveAsModuleInput finds for it. *)
Lemma enhanced_by_module_input fuel name child depth s files v s2 :
  depth <= maxRecursionDepth ->
  cold_enhanced name child depth s ->
  fs_isDirectory fs child = true ->
  fs_readdir fs child = Some files ->
  direct_value fs name child files = None ->
  resolveAsModuleInput fs workspaceRoot cwd clock (rVVE fuel) (rVV fuel)
    name child (depth + 1) (entered (visit_key name child depth) s)
  = (Ret (Some v), s2) ->
  fst (rVVE (S fuel) name child depth [] s) = Ret (Some v).
Proof.
  intros Hdepth (Hmiss & (Ht & Hl & Ho) & Hfresh) Hdir Hls Hnone Hinput.
  set (s0 := entered (visit_key name child depth) s) in *.
  unfold direct_value in Hnone.
  destruct (override_value fs name child files) eqn:H1; [discriminate|].
  destruct (locals_value fs name child files) eqn:H2; [discriminate|].
  cbn [resolveVariableValueEnhanced]. rewrite (not_too_deep Hdepth).
  run (cache_get_miss clock _ _ Hmiss).
  rewrite visited_enter by exact Hfresh. fold s0. cbn [fst].
  unfold try_catch at 1.
  run (findInTfvarsFiles_miss fs clock name child s0 Ht Hdir Hls H1).
  run (findInLocals_miss fs clock name child s0 Hl Hdir Hls H2).
  run (findInOutputs_miss fs clock name child s0 Ho Hdir Hls Hnone).
  run Hinput.
  pose proof (stored_result clock (enhanced_key name child depth []) v s2) as H.
  destruct ((cache_set clock _ _ ;;; ret _) s2) as [o t2].
  cbn in H. subst o. reflexivity.
Qed.

(** resolveAsModuleInput resolves the argument of the first module call of
    the parent that passes the name. *)
Lemma module_input_of_first_call rve rvv name child depth ref v s :
  isWithinWorkspace workspaceRoot (Path.dirname child) = true ->
  faithful (Path.dirname child) s ->
  passed_argument name
    (module_calls_to fs workspaceRoot cwd (Path.dirname child) child) = Some ref ->
  (forall s1,
      more (Path.dirname child) s s1 ->
      fst (resolveVariableReference fs workspaceRoot cwd clock rve rvv ref
             (Path.dirname child) depth s1) = Ret (Some v)) ->
  exists s2,
    resolveAsModuleInput fs workspaceRoot cwd clock rve rvv name child depth s
    = (Ret (Some v), s2).
Proof.
  intros Hwithin Hf Harg Href.
  destruct (@findModuleCallsToDirectory_reads (Path.dirname child) child s Hf)
    as (s1 & Hscan & Hmore).
  specialize (Href s1 Hmore).
  destruct (resolveVariableReference fs workspaceRoot cwd clock rve rvv ref
              (Path.dirname child) depth s1) as [o s2] eqn:E.
  cbn in Href. subst o.
  exists s2. unfold resolveAsModuleInput, try_catch. rewrite Hwithin. cbn [negb].
  run Hscan.
  rewrite (@first_passed_input_hit rve rvv name (Path.dirname child) depth ref v
             _ s1 s2 Harg E).
  reflexivity.
Qed.


(** X22 (a module argument that is no reference is passed as a text).  In
    the setting of the module threading - resolveVariableValueEnhanced
    called for an input [name] in a module directory [child] that gives it
    no value itself, the parent of [child] inside the workspace - let the
    first module call that the .tf files of the parent hold for [child]
    and that gives [name] an argument that is not empty give it an
    argument that, with its quotes removed and trimmed, starts with none
    of [var.], [local.] and [module.].  Then the call returns that text:
    the argument is taken for a value, and nothing in it is resolved. *)
Theorem module_argument_without_reference_is_a_value
  (fuel : nat) (name child ref : string) (depth : nat) (s : State)
  (files : list string)
  (Hdepth : depth <= maxRecursionDepth)
  (Hcold : cold_enhanced name child depth s)
  (Hmemo : paths_faithful fs workspaceRoot cwd (Path.dirname child) s)
  (Hdir : fs_isDirectory fs child = true)
  (Hls : fs_readdir fs child = Some files)
  (Hnone : direct_value fs name child files = None)
  (Hwithin : isWithinWorkspace workspaceRoot (Path.dirname child) = true)
  (Harg : passed_argument name
            (module_calls_to fs workspaceRoot cwd (Path.dirname child) child)
          = Some ref)
  (Hvar : startsWith (clean_reference ref) "var." = false)
  (Hlocal : startsWith (clean_reference ref) "local." = false)
  (Hmodule : startsWith (clean_reference ref) "module." = false) :
  fst (rVVE (S fuel) name child depth [] s) = Ret (Some (clean_reference ref)).
Proof.
  assert (Href : forall s1,
    more (Path.dirname child) (entered (visit_key name child depth) s) s1 ->
    fst (resolveVariableReference fs workspaceRoot cwd clock (rVVE fuel)
           (rVV fuel) ref (Path.dirname child) (depth + 1) s1)
    = Ret (Some (clean_reference ref))).
  { intros s1 _. unfold resolveVariableReference, try_catch.
    rewrite Hvar, Hlocal, Hmodule. reflexivity. }
  destruct (@module_input_of_first_call (rVVE fuel) (rVV fuel)
              name child (depth + 1) ref (clean_reference ref)
              (entered (visit_key name child depth) s) Hwithin
              (@faithful_entered (Path.dirname child)
                 (visit_key name child depth) s Hmemo)
              Harg Href) as (s2 & Hinput).
  exact (@enhanced_by_module_input fuel name child depth s files _ s2
           Hdepth Hcold Hdir Hls Hnone Hinput).
Qed.

End Scan.


(** An argument that follows a closing brace inside the module block is
    not seen: the block is read up to its first closing brace. *)
Example argument_after_a_closing_brace_is_not_seen :
  map mc_variables
    (module_calls_to MoreFixtures.nested_block_files "/w" "/" "/w" "/w/child")
  = [[("providers", "{"); ("aws", "aws.east")]]
  /\ fst (resolveVariableValueEnhanced MoreFixtures.nested_block_files "/w" "/"
            Fixtures.clock 12 "size" "/w/child" 0 [] Fixtures.fresh)
     = Ret None.
Proof. split; vm_compute; reflexivity. Qed.


Lemma literal_argument_witness :
  fst (resolveVariableValueEnhanced MoreFixtures.literal_files "/w" "/"
         Fixtures.clock 12 "size" "/w/child" 0 [] Fixtures.fresh)
  = Ret (Some (clean_reference (q "'large'"))).
Proof.
  apply (@module_argument_without_reference_is_a_value
           MoreFixtures.literal_files "/w" "/" Fixtures.clock 11 "size"
           "/w/child" (q "'large'") 0 Fixtures.fresh ["main.tf"]).
  - cbv [maxRecursionDepth]. lia.
  - repeat split.
  - intros source p H. discriminate H.
  - reflexivity.
  - reflexivity.
  - vm_compute. reflexivity.
  - vm_compute. reflexivity.
  - vm_compute. reflexivity.
  - vm_compute. reflexivity.
  - vm_compute. reflexivity.
  - vm_compute. reflexivity.
Defined.

(** The text passed is the argument without its quotes. *)
Example literal_argument_loses_its_quotes :
  clean_reference (q "'large'") = "large".
Proof. vm_compute. reflexivity. Qed.

End Threading.

(* ================================================================== *)
(** * Chains of references: the depth bound and mutual locals *)
(* ================================================================== *)

Module Chains.
Import Js Regex Json TerraformParser Effects Resolver Notions Laws Properties.
Import Shapes Sources CacheProperties Threading.
Local Open Scope resolver_scope.

Lemma map_get_map_delete_none key k c :
  TerraformCache.map_get key c = None ->
  TerraformCache.map_get key (TerraformCache.map_delete k c) = None.
Proof.
  induction c as [|[k1 e1] c IH]; cbn; [reflexivity|].
  destruct (String.eqb key k1) eqn:E; [discriminate|]. intros H.
  destruct (String.eqb k k1); cbn; [exact H|]. rewrite E. exact (IH H).
Qed.

Section Bounded.
Variable fs : FileSystem.
Variable workspaceRoot : string.
Variable cwd : string.
Variable clock : nat -> Z.

Local Abbreviation rVV := (resolveVariableValue fs workspaceRoot cwd clock).
Local Abbreviation rVVE :=
  (resolveVariableValueEnhanced fs workspaceRoot cwd clock).

(** Storing under one key leaves what is not cached under another key
    not cached. *)
Lemma cache_set_keeps_miss key k v s :
  String.eqb key k = false ->
  TerraformCache.map_get key (cache s) = None ->
  TerraformCache.map_get key (cache (snd (cache_set clock k v s))) = None.
Proof.
  intros Hne Hmiss. unfold cache_set, TerraformCache.set.
  destruct (TerraformCache.MAX_SIZE <=? List.length (cache s))%nat;
    cbn [snd cache]; rewrite map_get_map_set_other by exact Hne;
    [|exact Hmiss].
  unfold TerraformCache.evictLeastRecentlyUsed.
  destruct (TerraformCache.lru_scan _ _ _) as [k0|]; [|exact Hmiss].
  destruct (is_empty k0); [exact Hmiss|].
  now apply map_get_map_delete_none.
Qed.

(** The loop over the files stores and returns the first readable hit. *)
Lemma for_files_hit {A} dir files (parse_file : string -> string -> option A)
  (found : A -> M A) v a s s' :
  first_readable_hit fs dir files parse_file = Some v ->
  found v s = (Ret a, s') ->
  for_files fs dir files parse_file found s = (Ret (Some a), s').
Proof.
  intros Hhit Hfound. induction files as [|file r IH]; [discriminate|].
  cbn [for_files first_readable_hit] in *.
  unfold bind at 1. unfold try_catch, bind, lift_option.
  destruct (fs_readFile fs (Path.join2 dir file)) as [content|]; cbn.
  - destruct (parse_file file content) as [v0|]; cbn; [|exact (IH Hhit)].
    injection Hhit as ->. rewrite Hfound. reflexivity.
  - exact (IH Hhit).
Qed.

Lemma findInLocals_hit x D files v s :
  TerraformCache.map_get (locals_key x D) (cache s) = None ->
  fs_isDirectory fs D = true ->
  fs_readdir fs D = Some files ->
  locals_value fs x D files = Some v ->
  findInLocals fs clock x D s
  = (Ret (Some v), snd (cache_set clock (locals_key x D) v s)).
Proof.
  intros Hmiss Hdir Hls Hv. unfold findInLocals, try_catch.
  run (cache_get_miss clock _ _ Hmiss).
  unfold directoryExists. rewrite Hdir.
  unfold bind at 1. cbn [ret]. rewrite Hls. unfold bind at 1.
  cbn [lift_option ret negb]. cbv beta.
  rewrite (@for_files_hit _ D _ _ _ v v s
             (snd (cache_set clock (locals_key x D) v s)) Hv);
    [reflexivity|].
  unfold bind, cache_set, ret.
  destruct (_ <=? _)%nat; reflexivity.
Qed.

(** Beyond the bound no [var.] reference is followed: a value whose
    references are all [var.] references comes back as it is. *)
Lemma nested_beyond_the_bound fuel rvv value D depth :
  maxRecursionDepth < depth ->
  only_var_references value = true ->
  forall st,
    resolveNestedReferences fs workspaceRoot cwd clock (rVVE (S fuel)) rvv
      value D depth st
    = (Ret value, st).
Proof.
  intros Hdeep Hrefs st. unfold resolveNestedReferences.
  destruct (is_empty value); [reflexivity|].
  unfold only_var_references in Hrefs. unfold try_catch.
  assert (Hloop : forall refs resolvedValue,
    forallb (fun r => startsWith (clean_reference r) "var.") refs = true ->
    substitute_nested fs workspaceRoot cwd clock (rVVE (S fuel)) rvv refs D depth
      resolvedValue st
    = (Ret resolvedValue, st)).
  { induction refs as [|r refs IH]; intros resolvedValue H; [reflexivity|].
    cbn [forallb] in H. apply andb_true_iff in H. destruct H as [Hr H].
    cbn [substitute_nested].
    assert (Href :
      resolveVariableReference fs workspaceRoot cwd clock (rVVE (S fuel)) rvv
        r D depth st = (Ret None, st)).
    { unfold resolveVariableReference, try_catch. rewrite Hr.
      cbn [resolveVariableValueEnhanced].
      apply Nat.ltb_lt in Hdeep. rewrite Hdeep. reflexivity. }
    run Href. exact (IH _ H). }
  rewrite (Hloop _ _ Hrefs). reflexivity.
Qed.

(** C3, as amended (depth bound).  The recursion is bounded by the depth
    argument, which every recursive call increases: a call whose nesting
    allowance covers the depths that remain up to the bound
    ([fuel > maxRecursionDepth + 1 - depth]) returns - a value or null,
    no error - for both resolvers; and a call made at a depth above the
    bound returns null at once, leaving cache, visited set and clock
    untouched.  The bound does not turn a chain of references into null:
    a call of resolveVariableValueEnhanced at the maximal depth whose
    directory gives the name a value (nothing being cached for the name
    there) returns that value as it is when the references in it are
    [var.] references - the calls for them would be made above the bound
    and answer null, so the references stay in the text. *)
Theorem depth_bound_ends_every_resolution
  (fuel : nat) (name dir : string) (depth : nat) (moduleContext : list string)
  (s : State)
  (Hfuel : maxRecursionDepth + 1 - depth < fuel) :
  (exists r, fst (rVV fuel name dir depth s) = Ret r)
  /\ (exists r, fst (rVVE fuel name dir depth moduleContext s) = Ret r)
  /\ (maxRecursionDepth < depth ->
      rVV fuel name dir depth s = (Ret None, s)
      /\ rVVE fuel name dir depth moduleContext s = (Ret None, s))
  /\ (forall files value,
      depth = maxRecursionDepth ->
      TerraformCache.map_get (enhanced_key name dir depth moduleContext) (cache s)
      = None ->
      cold_lookups name dir s ->
      mem (visit_key name dir depth) (visited s) = false ->
      fs_isDirectory fs dir = true ->
      fs_readdir fs dir = Some files ->
      direct_value fs name dir files = Some value ->
      only_var_references value = true ->
      fst (rVVE fuel name dir depth moduleContext s) = Ret (Some value)).
Proof.
  refine (conj _ (conj _ (conj _ _))).
  - apply behaved_total, behaved_resolveVariableValue, Hfuel.
  - apply behaved_total, behaved_resolveVariableValueEnhanced, Hfuel.
  - intros Hdeep. destruct fuel as [|fuel]; [lia|].
    apply Nat.ltb_lt in Hdeep.
    cbn [resolveVariableValue resolveVariableValueEnhanced].
    rewrite Hdeep. split; reflexivity.
  - intros files value Hmax Hmiss Hcold Hfresh Hdir Hls Hvalue Hrefs.
    destruct fuel as [|[|fuel]]; [lia | lia |].
    apply (@enhanced_direct fs workspaceRoot cwd clock (S fuel) name dir depth
             moduleContext s files value); try assumption.
    + lia.
    + apply nested_beyond_the_bound; [lia | exact Hrefs].
Qed.

(** C4, as amended (mutual locals).  Let the locals of a directory give
    [a] the value [local.b] and [b] the value [local.a], no override file
    giving [a] a value (depth within the bound, nothing cached for the
    lookups involved, the call not on the visited set).  Resolving [a]
    ends, without an error, and with the text of a reference, not with
    null: resolveVariableValue returns the value of [a], [local.b], as it
    is; resolveVariableValueEnhanced replaces that reference once, by
    what findInLocals gives for [b], and returns [local.a].  A [local.]
    reference is answered by findInLocals, which makes no recursive call,
    so no context is entered twice. *)
Theorem mutual_locals_end_in_a_reference_text
  (fuel : nat) (D : string) (depth : nat) (s : State) (files : list string)
  (Hdepth : depth <= maxRecursionDepth)
  (Hplain : cold_plain "a" D depth s)
  (Henhanced : cold_enhanced "a" D depth s)
  (Hcold_b : TerraformCache.map_get (locals_key "b" D) (cache s) = None)
  (Hdir : fs_isDirectory fs D = true)
  (Hls : fs_readdir fs D = Some files)
  (Hno_override : override_value fs "a" D files = None)
  (Ha : locals_value fs "a" D files = Some "local.b")
  (Hb : locals_value fs "b" D files = Some "local.a") :
  fst (rVV (S fuel) "a" D depth s) = Ret (Some "local.b")
  /\ fst (rVVE (S fuel) "a" D depth [] s) = Ret (Some "local.a").
Proof.
  destruct Hplain as (Hmiss & (Ht & Hl & Ho) & Hfresh).
  destruct Henhanced as (Hmiss' & _ & _).
  set (s0 := entered (visit_key "a" D depth) s).
  assert (Hfind : findInLocals fs clock "a" D s0
                  = (Ret (Some "local.b"),
                     snd (cache_set clock (locals_key "a" D) "local.b" s0)))
    by (apply (@findInLocals_hit "a" D files); assumption).
  split.
  - cbn [resolveVariableValue]. rewrite (not_too_deep Hdepth).
    run (cache_get_miss clock _ _ Hmiss).
    rewrite visited_enter by exact Hfresh. fold s0. cbn [fst].
    unfold try_catch.
    run (findInTfvarsFiles_miss fs clock "a" D s0 Ht Hdir Hls Hno_override).
    run Hfind.
    match goal with |- fst (match ?body ?t with _ => _ end) = _ =>
      pose proof (stored_result clock (resolve_key "a" D depth) "local.b" t) as H;
      destruct (body t) as [o t2] end.
    cbn in H. subst o. reflexivity.
  - set (t1 := snd (cache_set clock (locals_key "a" D) "local.b" s0)) in *.
    assert (Hb1 : TerraformCache.map_get (locals_key "b" D) (cache t1) = None).
    { apply cache_set_keeps_miss; [|exact Hcold_b].
      apply String.eqb_neq. unfold locals_key. intros H. cbn in H.
      discriminate H. }
    assert (Href :
      resolveVariableReference fs workspaceRoot cwd clock (rVVE fuel) (rVV fuel)
        "local.b" D (depth + 1) t1
      = (Ret (Some "local.a"),
         snd (cache_set clock (locals_key "b" D) "local.a" t1))).
    { unfold resolveVariableReference, try_catch.
      replace (clean_reference "local.b") with "local.b"
        by (vm_compute; reflexivity).
      cbn [startsWith Ascii.eqb Bool.eqb andb drop].
      rewrite (@findInLocals_hit "b" D files "local.a" t1 Hb1 Hdir Hls Hb).
      reflexivity. }
    assert (Hnested :
      resolveNestedReferences fs workspaceRoot cwd clock (rVVE fuel) (rVV fuel)
        "local.b" D (depth + 1) t1
      = (Ret "local.a", snd (cache_set clock (locals_key "b" D) "local.a" t1))).
    { unfold resolveNestedReferences. cbn [is_empty]. unfold try_catch.
      replace (extractVariableReferences "local.b") with ["local.b"]
        by (vm_compute; reflexivity).
      cbn [substitute_nested]. run Href.
      change (String.eqb "local.a" "local.b") with false. cbv iota.
      replace (replace_all (seq [Wb; lit "local.b"; Wb]) 0 "local.a" "local.b")
        with "local.a" by (vm_compute; reflexivity).
      reflexivity. }
    cbn [resolveVariableValueEnhanced]. rewrite (not_too_deep Hdepth). cbv zeta.
    run (cache_get_miss clock _ _ Hmiss').
    rewrite visited_enter by exact Hfresh. fold s0. cbn [fst].
    unfold try_catch at 1.
    run (findInTfvarsFiles_miss fs clock "a" D s0 Ht Hdir Hls Hno_override).
    run Hfind. fold t1. run Hnested.
    match goal with |- fst (match ?body ?t with _ => _ end) = _ =>
      pose proof (stored_result clock (enhanced_key "a" D depth []) "local.a" t)
        as H;
      destruct (body t) as [o t2] end.
    cbn in H. subst o. reflexivity.
Qed.

End Bounded.

(** At depth 10 the value of a10, [var.a11], is returned as it is. *)
Lemma depth_bound_witness :
  fst (resolveVariableValueEnhanced Fixtures.chain_files "/w" "/" Fixtures.clock
         2 "a10" "/w" 10 [] Fixtures.fresh)
  = Ret (Some "var.a11").
Proof.
  refine (proj2 (proj2 (proj2
            (@depth_bound_ends_every_resolution Fixtures.chain_files "/w" "/"
               Fixtures.clock 2 "a10" "/w" 10 [] Fixtures.fresh _)))
            ["chain.tfvars"] "var.a11" _ _ _ _ _ _ _ _).
  - cbv [maxRecursionDepth]. lia.
  - reflexivity.
  - reflexivity.
  - repeat split.
  - reflexivity.
  - reflexivity.
  - reflexivity.
  - vm_compute. reflexivity.
  - vm_compute. reflexivity.
Defined.

Lemma mutual_locals_witness :
  fst (resolveVariableValueEnhanced Fixtures.cycle_files "/w" "/" Fixtures.clock
         12 "a" "/w" 0 [] Fixtures.fresh)
  = Ret (Some "local.a").
Proof.
  refine (proj2 (@mutual_locals_end_in_a_reference_text Fixtures.cycle_files
                   "/w" "/" Fixtures.clock 11 "/w" 0 Fixtures.fresh ["main.tf"]
                   _ _ _ _ _ _ _ _ _)).
  - cbv [maxRecursionDepth]. lia.
  - repeat split.
  - repeat split.
  - reflexivity.
  - reflexivity.
  - reflexivity.
  - vm_compute. reflexivity.
  - vm_compute. reflexivity.
  - vm_compute. reflexivity.
Defined.

(** Where references do lead back to a context - [a = var.b] and
    [b = var.a] in one override file - the visit key, which carries the
    depth, differs at every level: the context of [a] is entered again at
    the depths 2, 4, ..., 10 without being recognised, and the resolution
    ends at the depth bound, with the text of a reference. *)
Example var_cycle_is_not_recognised :
  fst (resolveVariableValueEnhanced MoreFixtures.var_cycle_files "/w" "/"
         Fixtures.clock 12 "a" "/w" 0 [] Fixtures.fresh)
  = Ret (Some "var.b")
  /\ visit_key "a" "/w" 0 <> visit_key "a" "/w" 2.
Proof. split; [vm_compute; reflexivity | discriminate]. Qed.

End Chains.
